(** * Logging façade of sim: sanitizer, structured logger, console logger

    A shallow embedding of
      - lib/logs/sanitizer           (redaction rules, deep sanitizer),
      - lib/logs/structured/logger   (StructuredLogger over pino),
      - lib/logs/console/logger      (Logger façade over console / structured),
    followed by the properties of the specification that were checked
    against it (Part II) and by further properties of the code
    (Part III). *)

From Stdlib Require Import ZArith NArith List String Ascii Lia Bool Arith DecimalString.
From stdpp Require Import gmap.
Import ListNotations.

Set Default Proof Using "Type".

(* ================================================================== *)
(** * Part I — definitions                                             *)
(* ================================================================== *)

(* ------------------------------------------------------------------ *)
(** ** JavaScript strings

    A JavaScript string is a sequence of UTF-16 code units.  None of the
    regular expressions of the sanitizer carries the [u] flag, so they
    work on code units, and so does the model. *)

Definition char := N.
Definition str := list char.

(** [js "abc"] is the JavaScript string literal ['abc'] (ASCII only). *)
Definition js (s : string) : str := map N_of_ascii (list_ascii_of_string s).

Definition char_eqb (a b : char) : bool := N.eqb a b.

Fixpoint str_eqb (a b : str) : bool :=
  match a, b with
  | [], [] => true
  | x :: a', y :: b' => char_eqb x y && str_eqb a' b'
  | _, _ => false
  end.

(** [starts_with p s]: [p] is a prefix of [s] (String.prototype.startsWith). *)
Fixpoint starts_with (p s : str) : bool :=
  match p, s with
  | [], _ => true
  | x :: p', y :: s' => char_eqb x y && starts_with p' s'
  | _ :: _, [] => false
  end.

(** [includes s p]: [p] occurs in [s] (String.prototype.includes). *)
Fixpoint includes (s p : str) : bool :=
  starts_with p s ||
  match s with
  | [] => false
  | _ :: s' => includes s' p
  end.

(* ------------------------------------------------------------------ *)
(** ** Character classes of the patterns *)

Local Open Scope N_scope.

Definition in_range (lo hi c : char) : bool := N.leb lo c && N.leb c hi.

Definition is_upper (c : char) : bool := in_range 65 90 c.
Definition is_lower (c : char) : bool := in_range 97 122 c.
Definition is_digit (c : char) : bool := in_range 48 57 c.

(** [[A-Za-z0-9]] *)
Definition is_alnum (c : char) : bool := is_upper c || is_lower c || is_digit c.

(** [[A-Za-z0-9._-]] *)
Definition is_token (c : char) : bool :=
  is_alnum c || char_eqb c 46 || char_eqb c 95 || char_eqb c 45.

(** [[A-Za-z0-9_-]] *)
Definition is_b64url (c : char) : bool :=
  is_alnum c || char_eqb c 95 || char_eqb c 45.

(** [\w], used by [\b]. *)
Definition is_word (c : char) : bool := is_alnum c || char_eqb c 95.

(** [\s]: ECMAScript WhiteSpace and LineTerminator code points. *)
Definition is_space (c : char) : bool :=
  in_range 9 13 c || char_eqb c 32 || char_eqb c 160 || char_eqb c 5760 ||
  in_range 8192 8202 c || char_eqb c 8232 || char_eqb c 8233 ||
  char_eqb c 8239 || char_eqb c 8287 || char_eqb c 12288 || char_eqb c 65279.

(** The class of the two quotation marks (code units 34 and 39) and
    its complement. *)
Definition is_quote (c : char) : bool := char_eqb c 34 || char_eqb c 39.
Definition not_quote (c : char) : bool := negb (is_quote c).

(** [[=:]] *)
Definition is_assign (c : char) : bool := char_eqb c 61 || char_eqb c 58.

(** [[^:]], [[^@]], [[^/]] *)
Definition not_colon (c : char) : bool := negb (char_eqb c 58).
Definition not_at (c : char) : bool := negb (char_eqb c 64).
Definition not_slash (c : char) : bool := negb (char_eqb c 47).

(** Case folding of the [i] flag.  Without the [u] flag a code unit
    above 127 never folds to an ASCII one, so a pattern letter matches
    exactly its two ASCII cases. *)
Definition to_upper (c : char) : char := if is_lower c then c - 32 else c.
Definition char_eqb_i (a b : char) : bool := char_eqb (to_upper a) (to_upper b).

Local Close Scope N_scope.

(* ------------------------------------------------------------------ *)
(** ** A backtracking matcher for the fragment of regular expressions
       the sanitizer uses

    Quantifiers occur in the patterns only over single character
    classes ([\s+], [[^:]+], [[A-Za-z0-9]{20,}] ...), all greedy. *)

Module Re.

Inductive regex :=
| Eps
| Chr (p : char -> bool)
| Seq (r1 r2 : regex)
| Alt (r1 r2 : regex)
| Rep (p : char -> bool) (min : nat)      (* p{min,}  (greedy) *)
| Opt (p : char -> bool)                  (* p?       (greedy) *)
| WordB                                   (* \b *)
| Group (n : nat) (r : regex).            (* n-th capturing group *)

(** The matcher's position: the code unit before it (for [\b]), the
    input still to read, and the captures made so far. *)
Record mstate := MState {
  prev : option char;
  rest : str;
  caps : list (nat * str)
}.

(** A literal, case sensitive or folded. *)
Fixpoint lit (s : str) : regex :=
  match s with
  | [] => Eps
  | c :: s' => Seq (Chr (char_eqb c)) (lit s')
  end.

Fixpoint lit_i (s : str) : regex :=
  match s with
  | [] => Eps
  | c :: s' => Seq (Chr (char_eqb_i c)) (lit_i s')
  end.

Definition is_word_opt (o : option char) : bool :=
  match o with Some c => is_word c | None => false end.

(** Greedy [p{min,}]: take the longest run first, give back one code
    unit at a time while the continuation fails. *)
Fixpoint rep_greedy {A} (p : char -> bool) (min : nat) (pv : option char)
  (s : str) (k : option char -> str -> option A) : option A :=
  let stop := match min with O => k pv s | S _ => None end in
  match s with
  | c :: s' =>
      if p c then
        match rep_greedy p (Nat.pred min) (Some c) s' k with
        | Some x => Some x
        | None => stop
        end
      else stop
  | [] => stop
  end.

(** The text consumed between two positions of the same input. *)
Definition consumed (before after : str) : str :=
  firstn (length before - length after) before.

Fixpoint rmatch (r : regex) (st : mstate) (k : mstate -> option mstate)
  : option mstate :=
  match r with
  | Eps => k st
  | Chr p =>
      match rest st with
      | c :: s' => if p c then k (MState (Some c) s' (caps st)) else None
      | [] => None
      end
  | Seq r1 r2 => rmatch r1 st (fun st' => rmatch r2 st' k)
  | Alt r1 r2 =>
      match rmatch r1 st k with
      | Some x => Some x
      | None => rmatch r2 st k
      end
  | Rep p min =>
      rep_greedy p min (prev st) (rest st)
        (fun pv s => k (MState pv s (caps st)))
  | Opt p =>
      match rest st with
      | c :: s' =>
          if p c then
            match k (MState (Some c) s' (caps st)) with
            | Some x => Some x
            | None => k st
            end
          else k st
      | [] => k st
      end
  | WordB =>
      if xorb (is_word_opt (prev st)) (is_word_opt (head (rest st)))
      then k st else None
  | Group n r' =>
      rmatch r' st (fun st' =>
        k (MState (prev st') (rest st')
             ((n, consumed (rest st) (rest st')) :: caps st')))
  end.

(** One match attempt at the current position: the matched text, the
    captures, and the position after the match. *)
Record hit := Hit {
  matched : str;
  groups : list (nat * str);
  after : str
}.

Definition match_here (r : regex) (pv : option char) (s : str) : option hit :=
  match rmatch r (MState pv s []) Some with
  | Some st' => Some (Hit (consumed s (rest st')) (caps st') (rest st'))
  | None => None
  end.

(** The value of capture [n] ([$n]); the empty string when unset. *)
Fixpoint capture (n : nat) (cs : list (nat * str)) : str :=
  match cs with
  | [] => []
  | (m, t) :: cs' => if Nat.eqb n m then t else capture n cs'
  end.

Definition last_char (pv : option char) (m : str) : option char :=
  match rev m with c :: _ => Some c | [] => pv end.

(** A replacement: what [String.prototype.replace] puts in place of a
    match, computed from the matched text and its captures. *)
Definition replacer := str -> list (nat * str) -> str.

(** [s.replace(/r/g, f)]: left to right, every match replaced, the
    scan resuming after each match.  [skip] counts the code units of the
    current match still to be stepped over. *)
Fixpoint replace_scan (r : regex) (f : replacer) (pv : option char)
  (s : str) (skip : nat) : str :=
  match s with
  | [] =>
      match skip, match_here r pv [] with
      | O, Some h => f (matched h) (groups h)
      | _, _ => []
      end
  | c :: s' =>
      match skip with
      | S n => replace_scan r f (Some c) s' n
      | O =>
          match match_here r pv s with
          | Some h =>
              match length (matched h) with
              | O => f [] (groups h) ++ c :: replace_scan r f (Some c) s' 0
              | S n => f (matched h) (groups h) ++ replace_scan r f (Some c) s' n
              end
          | None => c :: replace_scan r f (Some c) s' 0
          end
      end
  end.

Definition replace_all (r : regex) (f : replacer) (s : str) : str :=
  replace_scan r f None s 0.

(** [s.replace(/r/, f)] without the [g] flag: the first match only. *)
Fixpoint replace_first_from (r : regex) (f : replacer) (pv : option char)
  (s : str) : str :=
  match match_here r pv s with
  | Some h => f (matched h) (groups h) ++ after h
  | None =>
      match s with
      | [] => []
      | c :: s' => c :: replace_first_from r f (Some c) s'
      end
  end.

Definition replace_first (r : regex) (f : replacer) (s : str) : str :=
  replace_first_from r f None s.

(** The first match at or after the current position; the result is the
    number of code units skipped before the match and its length. *)
Fixpoint search (r : regex) (pv : option char) (s : str) : option (nat * nat) :=
  match match_here r pv s with
  | Some h => Some (O, length (matched h))
  | None =>
      match s with
      | [] => None
      | c :: s' =>
          match search r (Some c) s' with
          | Some (i, n) => Some (S i, n)
          | None => None
          end
      end
  end.

(** [re.test(s)] for a regular expression object with the [g] flag: the
    search starts at the object's [lastIndex] and leaves the end of the
    match there; a failed search resets it to 0.  The result is the
    answer and the new [lastIndex]. *)
Definition test_global (r : regex) (lastIndex : nat) (s : str) : bool * nat :=
  if Nat.ltb (length s) lastIndex then (false, O)
  else
    let pv := match lastIndex with
              | O => None
              | S i => nth_error s i
              end in
    match search r pv (skipn lastIndex s) with
    | Some (i, n) => (true, lastIndex + i + n)%nat
    | None => (false, O)
    end.

(** What a pattern can match: the text, and the captures before and
    after.  [\b] is taken as the empty match, whatever is around. *)
Fixpoint sem (r : regex) (m : str) (cs cs' : list (nat * str)) : Prop :=
  match r with
  | Eps => m = [] /\ cs' = cs
  | Chr p => exists c, m = [c] /\ p c = true /\ cs' = cs
  | Seq r1 r2 =>
      exists m1 m2 cs1, m = m1 ++ m2 /\ sem r1 m1 cs cs1 /\ sem r2 m2 cs1 cs'
  | Alt r1 r2 => sem r1 m cs cs' \/ sem r2 m cs cs'
  | Rep p min => forallb p m = true /\ (min <= length m)%nat /\ cs' = cs
  | Opt p => (m = [] \/ exists c, m = [c] /\ p c = true) /\ cs' = cs
  | WordB => m = [] /\ cs' = cs
  | Group n r' => exists cs1, sem r' m cs cs1 /\ cs' = (n, m) :: cs1
  end.

(** [rewrites ok miss s out]: [out] is [s] with some chunks replaced;
    every replaced chunk and its replacement are related by [ok], and a
    code unit is only copied at a position that satisfies [miss], or
    after the replacement of an empty match at that position. *)
Inductive rewrites (ok : str -> str -> Prop) (miss : str -> Prop) : str -> str -> Prop :=
| rw_nil : rewrites ok miss [] []
| rw_copy c s out :
    miss (c :: s) -> rewrites ok miss s out -> rewrites ok miss (c :: s) (c :: out)
| rw_empty c s out t :
    ok [] t -> rewrites ok miss s out -> rewrites ok miss (c :: s) (t ++ c :: out)
| rw_chunk m t s out :
    ok m t -> rewrites ok miss s out -> rewrites ok miss (m ++ s) (t ++ out).

End Re.

(* ------------------------------------------------------------------ *)
(** ** sanitizer: SENSITIVE_PATTERNS and sanitizeString *)

(** The [replacement] member of a rule: a replacement string, in which
    [String.prototype.replace] expands [$$], [$&] and [$1]..[$9], or a
    function of the matched text. *)
Inductive replacement :=
| ReplString (template : str)
| ReplFunction (fn : str -> str).

Definition digit_val (c : char) : option nat :=
  if is_digit c then Some (N.to_nat (c - 48)%N) else None.

(** Expansion of a replacement string (GetSubstitution).  Only the forms
    the rules could meet are expanded: [$$], [$&], and [$n] for a group
    that exists; any other [$] stays as it is. *)
Fixpoint expand (template m : str) (cs : list (nat * str)) : str :=
  match template with
  | [] => []
  | c :: t =>
      if char_eqb c 36%N then
        match t with
        | d :: t' =>
            if char_eqb d 36%N then 36%N :: expand t' m cs
            else if char_eqb d 38%N then m ++ expand t' m cs
            else
              match digit_val d with
              | Some n =>
                  if existsb (fun g => Nat.eqb n (fst g)) cs
                  then Re.capture n cs ++ expand t' m cs
                  else c :: expand t m cs
              | None => c :: expand t m cs
              end
        | [] => [c]
        end
      else c :: expand t m cs
  end.

Definition replacer_of (r : replacement) : Re.replacer :=
  match r with
  | ReplString t => fun m cs => expand t m cs
  | ReplFunction fn => fun m _ => fn m
  end.

Record rule := Rule {
  pattern : Re.regex;
  repl : replacement;
  description : str
}.

Definition REDACTED : str := js "[REDACTED]".

(** The quotation marks, and a string between double quotes. *)
Definition dquote : char := 34%N.
Definition squote : char := 39%N.
Definition dquoted (s : str) : str := dquote :: s ++ [dquote].
Definition squoted (s : str) : str := squote :: s ++ [squote].

(** /Bearer\s+[A-Za-z0-9._-]+/gi *)
Definition bearer_re : Re.regex :=
  Re.Seq (Re.lit_i (js "Bearer")) (Re.Seq (Re.Rep is_space 1) (Re.Rep is_token 1)).

(** /\bsk-[A-Za-z0-9]{20,}/g *)
Definition sk_re : Re.regex :=
  Re.Seq Re.WordB (Re.Seq (Re.lit (js "sk-")) (Re.Rep is_alnum 20)).

(** /\b(?:api_key|apikey|api-key)\s*[=:]\s*[\x22']?[A-Za-z0-9._-]{16,}[\x22']?/gi
    (the double quote of the source is written \x22 here) *)
Definition apikey_re : Re.regex :=
  Re.Seq Re.WordB
   (Re.Seq (Re.Alt (Re.lit_i (js "api_key"))
              (Re.Alt (Re.lit_i (js "apikey")) (Re.lit_i (js "api-key"))))
     (Re.Seq (Re.Rep is_space 0)
       (Re.Seq (Re.Chr is_assign)
         (Re.Seq (Re.Rep is_space 0)
           (Re.Seq (Re.Opt is_quote)
             (Re.Seq (Re.Rep is_token 16) (Re.Opt is_quote))))))).

(** /[A-Za-z0-9._-]{16,}/g, inside the replacement of the rule above *)
Definition apikey_value_re : Re.regex := Re.Rep is_token 16.

(** /(?:password|secret|key)\s*[=:]\s*[\x22'][^\x22']{2,}[\x22']/gi *)
Definition password_re : Re.regex :=
  Re.Seq (Re.Alt (Re.lit_i (js "password"))
            (Re.Alt (Re.lit_i (js "secret")) (Re.lit_i (js "key"))))
    (Re.Seq (Re.Rep is_space 0)
      (Re.Seq (Re.Chr is_assign)
        (Re.Seq (Re.Rep is_space 0)
          (Re.Seq (Re.Chr is_quote)
            (Re.Seq (Re.Rep not_quote 2) (Re.Chr is_quote)))))).

(** /[\x22'][^\x22']{2,}[\x22']/, inside the replacement of the rule above *)
Definition quoted_re : Re.regex :=
  Re.Seq (Re.Chr is_quote) (Re.Seq (Re.Rep not_quote 2) (Re.Chr is_quote)).

(** /\beyJ[A-Za-z0-9_-]+\.[A-Za-z0-9_-]+\.[A-Za-z0-9_-]*/g *)
Definition jwt_re : Re.regex :=
  Re.Seq Re.WordB
   (Re.Seq (Re.lit (js "eyJ"))
     (Re.Seq (Re.Rep is_b64url 1)
       (Re.Seq (Re.Chr (char_eqb 46%N))
         (Re.Seq (Re.Rep is_b64url 1)
           (Re.Seq (Re.Chr (char_eqb 46%N)) (Re.Rep is_b64url 0)))))).

(** /(postgresql:\/\/[^:]+:)[^@]+(@[^/]+)/gi *)
Definition postgres_re : Re.regex :=
  Re.Seq (Re.Group 1 (Re.Seq (Re.lit_i (js "postgresql://"))
                        (Re.Seq (Re.Rep not_colon 1) (Re.Chr (char_eqb 58%N)))))
    (Re.Seq (Re.Rep not_at 1)
      (Re.Group 2 (Re.Seq (Re.Chr (char_eqb 64%N)) (Re.Rep not_slash 1)))).

Definition BEARER_PLACEHOLDER : str := js "Bearer [REDACTED]".

Definition BEARER_RULE : rule :=
  Rule bearer_re (ReplString BEARER_PLACEHOLDER) (js "Bearer tokens").

Definition SK_RULE : rule :=
  Rule sk_re (ReplString (js "sk-[REDACTED]")) (js "OpenAI/Stripe-style API keys").

Definition APIKEY_RULE : rule :=
  Rule apikey_re
    (ReplFunction (fun m =>
       Re.replace_all apikey_value_re (replacer_of (ReplString REDACTED)) m))
    (js "Generic API keys").

Definition PASSWORD_RULE : rule :=
  Rule password_re
    (ReplFunction (fun m =>
       Re.replace_first quoted_re (replacer_of (ReplString (dquoted REDACTED))) m))
    (js "Password/secret fields").

Definition JWT_RULE : rule :=
  Rule jwt_re (ReplString (js "eyJ[REDACTED_JWT]")) (js "JWT tokens").

Definition POSTGRES_RULE : rule :=
  Rule postgres_re (ReplString (js "$1[REDACTED]$2"))
    (js "Database connection strings").

Definition SENSITIVE_PATTERNS : list rule :=
  [ BEARER_RULE; SK_RULE; APIKEY_RULE; PASSWORD_RULE; JWT_RULE; POSTGRES_RULE ].

(** One pass of the loop of [sanitizeString]: [result.replace(pattern,
    replacement)], the same call in both branches of the [typeof] test. *)
Definition apply_rule (result : str) (r : rule) : str :=
  Re.replace_all (pattern r) (replacer_of (repl r)) result.

(** [replace] with a [g] pattern starts from [lastIndex] 0 and leaves it
    at 0, so the result does not depend on the state of the patterns. *)
Definition sanitizeString (input : str) : str :=
  fold_left apply_rule SENSITIVE_PATTERNS input.

(** The patterns are regular expression objects with the [g] flag: each
    carries a [lastIndex] that [test] reads and writes.  The state of the
    module is the list of the six [lastIndex] values, all 0 at load. *)
Definition pattern_state := list nat.
Definition fresh_patterns : pattern_state := map (fun _ => O) SENSITIVE_PATTERNS.

(** [SENSITIVE_PATTERNS.some(({ pattern }) => pattern.test(input))]:
    [some] stops at the first rule whose test answers true. *)
Fixpoint some_test (rs : list rule) (st : pattern_state) (input : str)
  : bool * pattern_state :=
  match rs, st with
  | r :: rs', i :: st' =>
      let '(b, i') := Re.test_global (pattern r) i input in
      if b then (true, i' :: st')
      else let '(b', st'') := some_test rs' st' input in (b', i' :: st'')
  | _, _ => (false, st)
  end.

Definition containsSensitiveData (st : pattern_state) (input : str)
  : bool * pattern_state :=
  some_test SENSITIVE_PATTERNS st input.

(** [SENSITIVE_PATTERNS.filter(({ pattern }) => pattern.test(input))
      .map(({ description }) => description)]: every rule is tested. *)
Fixpoint filter_test (rs : list rule) (st : pattern_state) (input : str)
  : list rule * pattern_state :=
  match rs, st with
  | r :: rs', i :: st' =>
      let '(b, i') := Re.test_global (pattern r) i input in
      let '(keep, st'') := filter_test rs' st' input in
      ((if b then r :: keep else keep), i' :: st'')
  | _, _ => ([], st)
  end.

Definition detectSensitivePatterns (st : pattern_state) (input : str)
  : list str * pattern_state :=
  let '(keep, st') := filter_test SENSITIVE_PATTERNS st input in
  (map description keep, st').

(* ------------------------------------------------------------------ *)
(** ** Thrown values

    Anything can be thrown.  A handler of these modules either drops the
    value it catches or does what the one of [sanitizeLogData] does: it
    asks whether the value is an Error, reads its [message] if so, and
    converts it with [String] if not.  A thrown value is given by what
    these answer. *)

Inductive thrown :=
  (* an Error object: its [name] and its [message] *)
| JsError (err_name err_message : str)
  (* a value that is not an Error and that [String] converts to [text] *)
| Printable (text : str)
  (* a value that is not an Error and on which [String] throws in its
     turn: for an object without [toString] and [valueOf], such as
     [Object.create(null)], it throws a TypeError *)
| Unprintable (raised : thrown).

(* ------------------------------------------------------------------ *)
(** ** JavaScript values

    The values a caller can hand to the sanitizer.  An object is either
    written in place (an object nothing else refers to) or reached through
    a reference [VRef l] into a heap, which is how shared and cyclic
    structures are built.  A property is given by the value that reading
    it returns; an object with an accessor whose getter throws is a
    [VThrowing].  The fields of an Error have the types TypeScript gives
    them: [name] and [message] are strings, [stack] is a string when
    there is one.  Of the proxies the model has those whose traps all
    throw, a revoked proxy for one, which read like a [VThrowing]. *)

Definition loc := nat.

#[local] Set Warnings "-register-all".

Inductive value :=
| VUndefined
| VNull
| VBool (b : bool)
  (* a number: the code only ever copies it, so which number it is does
     not matter beyond its identity *)
| VNum (n : Z)
| VStr (s : str)
| VSymbol (descr : str)
| VBigInt (n : Z)
| VFunction (name : str)
  (* an Error: what [obj.name], [obj.message], [obj.stack] read, and the
     own properties as [Object.getOwnPropertyNames] lists them, each with
     its enumerable flag *)
| VError (name message : str) (stack : option str)
         (own : list (str * (bool * value)))
  (* a Date: its ISO rendering, or [None] for an invalid date *)
| VDate (iso : option str)
| VArray (items : list value)
  (* a plain object: its own enumerable string-keyed properties, in the
     order of [Object.entries] *)
| VObject (entries : list (str * value))
  (* a Map, a Set, any other class instance: the contents live in internal
     slots, beside the own enumerable properties *)
| VMap (contents : list (value * value)) (entries : list (str * value))
| VSet (elements : list value) (entries : list (str * value))
| VInstance (cls : str) (entries : list (str * value))
  (* an object that cannot be read: one of its own enumerable properties
     is an accessor whose getter throws [e], as in
     [{ get x() { throw e } }]; [Object.entries] and a spread read every
     property, so they throw [e] (on a proxy whose traps throw [e],
     [instanceof] does so before them) *)
| VThrowing (e : thrown)
| VRef (l : loc).

Definition heap := gmap loc value.

(** Following a reference.  A location holds an object; a dangling
    reference, or a location that holds a reference, reads as
    [undefined]. *)
Definition deref (h : heap) (v : value) : value :=
  match v with
  | VRef l =>
      match h !! l with
      | Some (VRef _) | None => VUndefined
      | Some o => o
      end
  | _ => v
  end.

(** [typeof v] *)
Definition typeof (h : heap) (v : value) : str :=
  match deref h v with
  | VUndefined => js "undefined"
  | VBool _ => js "boolean"
  | VNum _ => js "number"
  | VStr _ => js "string"
  | VSymbol _ => js "symbol"
  | VBigInt _ => js "bigint"
  | VFunction _ => js "function"
  | _ => js "object"
  end.

(** *** Property order of ordinary objects

    Own keys that are array indices come first, in ascending numeric
    order; the other string keys follow in the order of their creation. *)

Fixpoint digits_val (acc : N) (s : str) : option N :=
  match s with
  | [] => Some acc
  | c :: s' => if is_digit c then digits_val (acc * 10 + (c - 48))%N s' else None
  end.

(** A canonical numeric string below 2^32 - 1. *)
Definition array_index (k : str) : option N :=
  match k with
  | [] => None
  | c :: k' =>
      if char_eqb c 48%N then (match k' with [] => Some 0%N | _ => None end)
      else
        match digits_val 0 k with
        | Some n => if (n <? 4294967295)%N then Some n else None
        | None => None
        end
  end.

Definition has_key (k : str) (o : list (str * value)) : bool :=
  existsb (fun kv => str_eqb k (fst kv)) o.

Fixpoint update_prop (k : str) (v : value) (o : list (str * value)) :=
  match o with
  | [] => []
  | (k', v') :: o' =>
      if str_eqb k k' then (k', v) :: o' else (k', v') :: update_prop k v o'
  end.

(** Does a new key [k] go before the existing key [k']? *)
Definition key_before (k k' : str) : bool :=
  match array_index k, array_index k' with
  | Some i, Some j => (i <? j)%N
  | Some _, None => true
  | None, _ => false
  end.

Fixpoint insert_prop (k : str) (v : value) (o : list (str * value)) :=
  match o with
  | [] => [(k, v)]
  | (k', v') :: o' =>
      if key_before k k' then (k, v) :: o else (k', v') :: insert_prop k v o'
  end.

(** The own property [k] of [o] gets the value [v]: what an object
    literal or a spread does for every key, and what [o[k] = v] does for
    a key that is not an accessor of the prototype. *)
Definition set_prop (k : str) (v : value) (o : list (str * value)) :=
  if has_key k o then update_prop k v o else insert_prop k v o.

(** [o[k] = v] on an object that inherits from [Object.prototype].
    There [__proto__] is an accessor: assigning to it runs the setter,
    which at most changes what [o] inherits from ([v] an object or
    [null]) and gives [o] no own property.  The own properties are all
    the walk and the loggers read of such an object. *)
Definition assign_prop (k : str) (v : value) (o : list (str * value)) :=
  if str_eqb k (js "__proto__") then o else set_prop k v o.

(** [{ ...a, ...b }] and object literals: the properties are defined one
    after the other. *)
Definition assign_props (o src : list (str * value)) : list (str * value) :=
  fold_left (fun acc kv => set_prop (fst kv) (snd kv) acc) src o.

Definition object_literal (props : list (str * value)) : list (str * value) :=
  assign_props [] props.

Definition nat_to_str (n : nat) : str :=
  js (DecimalString.NilEmpty.string_of_uint (Nat.to_uint n)).

Fixpoint indexed {A} (f : A -> value) (i : nat) (l : list A) : list (str * value) :=
  match l with
  | [] => []
  | x :: l' => (nat_to_str i, f x) :: indexed f (S i) l'
  end.

(** The own enumerable properties of a value that can be read: those of
    an object, the indexed code units of a string, the elements of an
    array, nothing for the other primitives. *)
Definition own_enumerable (h : heap) (v : value) : list (str * value) :=
  match deref h v with
  | VObject es | VMap _ es | VSet _ es | VInstance _ es => es
  | VError _ _ _ own =>
      flat_map (fun p : str * (bool * value) =>
                  if fst (snd p) then [(fst p, snd (snd p))] else []) own
  | VStr s => indexed (fun c => VStr [c]) 0 s
  | VArray items => indexed (fun x => x) 0 items
  | _ => []
  end.

(* ------------------------------------------------------------------ *)
(** ** Exceptions *)

Inductive outcome (A : Type) :=
| Return (a : A)
| Throw (e : thrown).
Arguments Return {A} a.
Arguments Throw {A} e.

Definition bind {A B} (m : outcome A) (f : A -> outcome B) : outcome B :=
  match m with
  | Return a => f a
  | Throw e => Throw e
  end.

Notation "x <- m ;; k" := (bind m (fun x => k))
  (at level 100, m at next level, right associativity).

(** [try { body } catch (error) { handler }] *)
Definition try_catch {A} (body : outcome A) (handler : thrown -> outcome A)
  : outcome A :=
  match body with
  | Return a => Return a
  | Throw e => handler e
  end.

(** [array.map(f)]: the elements in order, the first exception ends it. *)
Fixpoint array_map {A B} (f : A -> outcome B) (l : list A) : outcome (list B) :=
  match l with
  | [] => Return []
  | x :: l' => y <- f x ;; ys <- array_map f l' ;; Return (y :: ys)
  end.

(** The RangeError of [toISOString] on an invalid date, with the message
    V8 gives it. *)
Definition INVALID_TIME_VALUE : thrown :=
  JsError (js "RangeError") (js "Invalid time value").

(** [date.toISOString()] *)
Definition toISOString (iso : option str) : outcome str :=
  match iso with
  | Some s => Return s
  | None => Throw INVALID_TIME_VALUE
  end.

(** [...v] in an object literal: every own enumerable property of [v] is
    read, so the getter of an unreadable object throws. *)
Definition spread (h : heap) (v : value) : outcome (list (str * value)) :=
  match deref h v with
  | VThrowing e => Throw e
  | _ => Return (own_enumerable h v)
  end.

(* ------------------------------------------------------------------ *)
(** ** sanitizer: sanitizeObject, sanitizeLogData, sanitizeLogArgs *)

Definition MAX_DEPTH_REACHED : str := js "[MAX_DEPTH_REACHED]".
Definition CIRCULAR_REFERENCE : str := js "[CIRCULAR_REFERENCE]".

Definition is_function (h : heap) (v : value) : bool :=
  match deref h v with VFunction _ => true | _ => false end.

Definition is_development (node_env : option str) : bool :=
  match node_env with Some e => str_eqb e (js "development") | None => false end.

Definition reserved_error_key (k : str) : bool :=
  str_eqb k (js "name") || str_eqb k (js "message") || str_eqb k (js "stack").

(** The loop over [Object.entries(obj)] of the plain-object branch:
    function-valued entries are skipped, an entry whose walk throws gets
    the circular-reference sentinel.  Both assignments are
    [sanitized[key] = ...] on the new object [{}]. *)
Definition sanitize_entries (h : heap) (walk : value -> outcome value)
  (es : list (str * value)) : list (str * value) :=
  fold_left (fun sanitized kv =>
               if is_function h (snd kv) then sanitized
               else
                 match walk (snd kv) with
                 | Return v => assign_prop (fst kv) v sanitized
                 | Throw _ => assign_prop (fst kv) (VStr CIRCULAR_REFERENCE) sanitized
                 end) es [].

(** The [reduce] of the Error branch: the own properties other than
    [name], [message] and [stack], copied into a new object by
    [acc[key] = obj[key]].  (An Error has an own property [__proto__]
    only through [Object.defineProperty]; the assignment does not copy
    it.) *)
Definition other_error_props (own : list (str * (bool * value))) : list (str * value) :=
  fold_left (fun acc p =>
               if reserved_error_key (fst p) then acc
               else assign_prop (fst p) (snd (snd p)) acc) own [].

Section Sanitizer.

(** [process.env.NODE_ENV] *)
Variable node_env : option str.
Variable h : heap.

(** [maxDepth] starts at 10 and only ever goes down by one, so it is a
    natural number; [d] below is [maxDepth - 1]. *)
Fixpoint sanitizeObject (obj : value) (maxDepth : nat) : outcome value :=
  match maxDepth with
  | O => Return (VStr MAX_DEPTH_REACHED)
  | S d =>
      match deref h obj with
      | VNull => Return VNull
      | VUndefined => Return VUndefined
      | VStr s => Return (VStr (sanitizeString s))
      | VNum n => Return (VNum n)
      | VBool b => Return (VBool b)
      | VError name message stack own =>
          let others := other_error_props own in
          let stack' :=
            if is_development node_env
            then VStr (sanitizeString (match stack with
                                       | Some (c :: t) => c :: t
                                       | _ => []
                                       end))
            else VUndefined in
          rest <- sanitizeObject (VObject others) d ;;
          Return (VObject (assign_props
                    (object_literal [ (js "name", VStr name);
                                      (js "message", VStr (sanitizeString message));
                                      (js "stack", stack') ])
                    (own_enumerable h rest)))
      | VDate iso => s <- toISOString iso ;; Return (VStr s)
      | VArray items =>
          items' <- array_map (fun item => sanitizeObject item d) items ;;
          Return (VArray items')
      | VObject es | VMap _ es | VSet _ es | VInstance _ es =>
          Return (VObject (sanitize_entries h (fun value => sanitizeObject value d) es))
        (* [Object.entries(obj)] calls the getter, outside the [try] of
           the loop *)
      | VThrowing e => Throw e
      | v => Return v
      end
  end.

Definition sanitization_error (original_type message : str) : value :=
  VObject (object_literal [ (js "_sanitization_error", VBool true);
                            (js "_original_type", VStr original_type);
                            (js "_error", VStr message) ]).

(** [error instanceof Error ? error.message : String(error)] *)
Definition error_text (error : thrown) : outcome str :=
  match error with
  | JsError _ message => Return message
  | Printable text => Return text
  | Unprintable raised => Throw raised
  end.

Definition sanitizeLogData (data : value) : outcome value :=
  try_catch (sanitizeObject data 10)
    (fun error =>
       text <- error_text error ;;
       Return (sanitization_error (typeof h data) text)).

Definition sanitizeLogArgs (args : list value) : outcome (list value) :=
  array_map sanitizeLogData args.

End Sanitizer.

(* ------------------------------------------------------------------ *)
(** ** The world the loggers run in *)

Inductive chalk_color := Cyan | Gray | Blue | Green | Yellow | Red.

(** What the modules read from outside: the environment variables, the
    presence of [window], the clock, and the two library functions the
    console logger formats with. *)
Record runtime := Runtime {
  env_NODE_ENV : option str;            (* env.NODE_ENV of '@/lib/env' *)
  process_env_NODE_ENV : option str;    (* process.env.NODE_ENV *)
  window_defined : bool;                (* typeof window !== 'undefined' *)
  clock : nat -> str;                   (* new Date().toISOString() at a tick *)
  chalk : chalk_color -> str -> str;
  JSON_stringify : heap -> value -> nat -> outcome value
}.

(** The levels of pino; the structured logger's own [LogLevel] enum has
    the same six members with the same numbers. *)
Inductive pino_level_name := PTrace | PDebug | PInfo | PWarn | PError | PFatal.

(** What leaves the process. *)
Inductive event :=
| ConsoleLog (args : list value)                       (* stdout *)
| ConsoleError (args : list value)                     (* stderr *)
| PinoWrite (level : pino_level_name)
            (bindings : list value) (record : value).  (* structured stream *)

Record world := World {
  w_heap : heap;
  w_next : loc;          (* the next free location *)
  w_ticks : nat;         (* clock reads so far *)
  w_out : list event     (* oldest first *)
}.

(** Computations over the world that may throw. *)
Definition js_comp (A : Type) := world -> outcome A * world.

Definition ret {A} (a : A) : js_comp A := fun w => (Return a, w).

Definition seq {A B} (m : js_comp A) (f : A -> js_comp B) : js_comp B :=
  fun w =>
    match m w with
    | (Return a, w') => f a w'
    | (Throw e, w') => (Throw e, w')
    end.

Notation "x <~ m ;; k" := (seq m (fun x => k))
  (at level 100, m at next level, right associativity).
Notation "m ;;; k" := (seq m (fun _ => k))
  (at level 100, right associativity).

Definition lift {A} (o : outcome A) : js_comp A := fun w => (o, w).
Definition get_heap : js_comp heap := fun w => (Return (w_heap w), w).

Definition alloc (v : value) : js_comp loc :=
  fun w => (Return (w_next w),
            World (<[w_next w := v]> (w_heap w)) (S (w_next w)) (w_ticks w) (w_out w)).

(** [o.k = v] on the object at [l]. *)
Definition heap_set_prop (l : loc) (k : str) (v : value) : js_comp unit :=
  fun w =>
    let o' := VObject (set_prop k v (own_enumerable (w_heap w) (VRef l))) in
    (Return tt, World (<[l := o']> (w_heap w)) (w_next w) (w_ticks w) (w_out w)).

Definition emit (e : event) : js_comp unit :=
  fun w => (Return tt, World (w_heap w) (w_next w) (w_ticks w) (w_out w ++ [e])).

Definition read_clock (rt : runtime) : js_comp str :=
  fun w => (Return (clock rt (w_ticks w)),
            World (w_heap w) (w_next w) (S (w_ticks w)) (w_out w)).

Definition env_is (v : option str) (name : string) : bool :=
  match v with Some e => str_eqb e (js name) | None => false end.

(** Truthiness of a value used as a condition. *)
Definition truthy (h : heap) (v : value) : bool :=
  match deref h v with
  | VUndefined | VNull => false
  | VBool b => b
  | VNum n => negb (Z.eqb n 0)
  | VBigInt n => negb (Z.eqb n 0)
  | VStr s => match s with [] => false | _ => true end
  | _ => true
  end.

(* ------------------------------------------------------------------ *)
(** ** pino, as far as the loggers use it

    A pino logger has a level and the bindings of its chain of children;
    a call at some level writes one record when that level's number is at
    least the logger's ([silent] is above every level). *)

Module Pino.

Inductive level_option := Silent | Level (l : pino_level_name).

Record logger := Logger { level : level_option; bindings : list value }.

Definition level_value (l : pino_level_name) : Z :=
  match l with
  | PTrace => 10 | PDebug => 20 | PInfo => 30
  | PWarn => 40 | PError => 50 | PFatal => 60
  end.

Definition enabled (lg : logger) (l : pino_level_name) : bool :=
  match level lg with
  | Silent => false
  | Level min => (level_value min <=? level_value l)%Z
  end.

(** [pino(options)] *)
Definition create (lvl : level_option) : logger := Logger lvl [].

(** [logger.child(bindings)] *)
Definition child (lg : logger) (b : value) : logger :=
  Logger (level lg) (bindings lg ++ [b]).

(** [logger.trace(obj)], [logger.info(obj)], ... *)
Definition write (lg : logger) (l : pino_level_name) (record : value) : js_comp unit :=
  if enabled lg l then emit (PinoWrite l (bindings lg) record) else ret tt.

End Pino.

(* ------------------------------------------------------------------ *)
(** ** structured/logger.ts *)

Module Structured.

Section WithRuntime.
Variable rt : runtime.

(** The [level] member of [getLoggerConfig()]; the other members
    (serializers, base fields, timestamp, transport) shape the records,
    not whether they are written. *)
Definition getLoggerConfig : Pino.level_option :=
  let isDevelopment := env_is (env_NODE_ENV rt) "development" in
  let isTest := env_is (env_NODE_ENV rt) "test" in
  if isTest then Pino.Silent
  else if isDevelopment then Pino.Level PDebug else Pino.Level PInfo.

(** An instance: [defaultContext] is a reference to the context object. *)
Record StructuredLogger := Build {
  pino : Pino.logger;
  module : str;
  defaultContext : loc
}.

(** [new StructuredLogger(module, defaultContext = {})], with the
    argument given by the own enumerable properties that the spread in
    [{ module, ...defaultContext }] reads.  The shutdown handlers the
    constructor registers only flush; they write no record of their
    own. *)
Definition new (module : str) (defaultContext : list (str * value))
  : js_comp StructuredLogger :=
  l <~ alloc (VObject (assign_props (object_literal [(js "module", VStr module)])
                         defaultContext)) ;;
  ret (Build (Pino.create getLoggerConfig) module l).

Definition createStructuredLogger (module : str) (defaultContext : option (list (str * value)))
  : js_comp StructuredLogger :=
  new module (match defaultContext with Some c => c | None => [] end).

(** [child(context)] *)
Definition child (self : StructuredLogger) (context : value) : js_comp StructuredLogger :=
  h <~ get_heap ;;
  own <~ lift (spread h context) ;;
  childLogger <~ new (module self)
     (assign_props (object_literal (own_enumerable h (VRef (defaultContext self))))
                   own) ;;
  h' <~ get_heap ;;
  b <~ lift (sanitizeLogData (process_env_NODE_ENV rt) h' context) ;;
  ret (Build (Pino.child (pino self) b) (module childLogger) (defaultContext childLogger)).

(** [formatLogData(message, context, ...args)].  [sanitizedContext] is a
    reference: to a new object holding the sanitized merge when a context
    is given, to the instance's own default context otherwise. *)
Definition formatLogData (self : StructuredLogger) (message : str)
  (context : value) (args : list value) : js_comp value :=
  h <~ get_heap ;;
  sanitizedContext <~
    (if truthy h context then
       own <~ lift (spread h context) ;;
       merged <~ lift (sanitizeLogData (process_env_NODE_ENV rt) h
                   (VObject (assign_props
                      (object_literal (own_enumerable h (VRef (defaultContext self))))
                      own))) ;;
       alloc merged
     else ret (defaultContext self)) ;;
  h1 <~ get_heap ;;
  sanitizedArgs <~
    (match args with
     | _ :: _ => lift (sanitizeLogArgs (process_env_NODE_ENV rt) h1 args)
     | [] => ret []
     end) ;;
  (match sanitizedArgs with
   | _ :: _ => heap_set_prop sanitizedContext (js "additionalData") (VArray sanitizedArgs)
   | [] => ret tt
   end) ;;;
  h' <~ get_heap ;;
  ret (VObject (assign_props (object_literal [(js "msg", VStr message)])
                  (own_enumerable h' (VRef sanitizedContext)))).

Definition log_at (l : pino_level_name) (self : StructuredLogger) (message : str)
  (context : value) (args : list value) : js_comp unit :=
  logData <~ formatLogData self message context args ;;
  Pino.write (pino self) l logData.

Definition trace := log_at PTrace.
Definition debug := log_at PDebug.
Definition info := log_at PInfo.
Definition warn := log_at PWarn.
Definition error := log_at PError.
Definition fatal := log_at PFatal.

(** [logWithLevel(level, ...)]: the [switch] over the numeric enum, with
    its [default] branch. *)
Definition logWithLevel (level : Z) (self : StructuredLogger) (message : str)
  (context : value) (args : list value) : js_comp unit :=
  logData <~ formatLogData self message context args ;;
  if (level =? 10)%Z then Pino.write (pino self) PTrace logData
  else if (level =? 20)%Z then Pino.write (pino self) PDebug logData
  else if (level =? 30)%Z then Pino.write (pino self) PInfo logData
  else if (level =? 40)%Z then Pino.write (pino self) PWarn logData
  else if (level =? 50)%Z then Pino.write (pino self) PError logData
  else if (level =? 60)%Z then Pino.write (pino self) PFatal logData
  else Pino.write (pino self) PInfo logData.

(** [query.length > 200 ? `${query.substring(0, 200)}...` : query] *)
Definition shown_query (query : str) : str :=
  if Nat.ltb 200 (length query) then firstn 200 query ++ js "..." else query.

(** [duration ? { duration } : undefined] *)
Definition performance_of (h : heap) (duration : value) : value :=
  if truthy h duration then VObject [(js "duration", duration)] else VUndefined.

(** [logQuery(query, duration, context)] *)
Definition logQuery (self : StructuredLogger) (query : str) (duration context : value)
  : js_comp unit :=
  h <~ get_heap ;;
  own <~ lift (spread h context) ;;
  debug self (js "Database Query")
    (VObject (assign_props (object_literal own)
                [ (js "query", VStr (shown_query query));
                  (js "performance", performance_of h duration) ]))
    [].

(** [logExternalCall(url, method, statusCode, duration, context)] *)
Definition logExternalCall (self : StructuredLogger) (url method : str)
  (statusCode duration context : value) : js_comp unit :=
  h <~ get_heap ;;
  own <~ lift (spread h context) ;;
  info self (js "External API Call")
    (VObject (assign_props (object_literal own)
                [ (js "url", VStr url);
                  (js "method", VStr method);
                  (js "statusCode", statusCode);
                  (js "performance", performance_of h duration) ]))
    [].

(** [module || fallback], for an optional string. *)
Definition module_or (module : option str) (fallback : string) : str :=
  match module with
  | Some (c :: m) => c :: m
  | _ => js fallback
  end.

(** [createRequestLogger(requestId, module)] *)
Definition createRequestLogger (requestId : str) (module : option str)
  : js_comp StructuredLogger :=
  createStructuredLogger (module_or module "request")
    (Some [(js "requestId", VStr requestId)]).

(** [createUserLogger(userId, module)] *)
Definition createUserLogger (userId : str) (module : option str)
  : js_comp StructuredLogger :=
  createStructuredLogger (module_or module "user")
    (Some [(js "userId", VStr userId)]).

(** [createWorkflowLogger(workflowId, module)] *)
Definition createWorkflowLogger (workflowId : str) (module : option str)
  : js_comp StructuredLogger :=
  createStructuredLogger (module_or module "workflow")
    (Some [(js "workflowId", VStr workflowId)]).

End WithRuntime.

End Structured.

(* ------------------------------------------------------------------ *)
(** ** console/logger.ts *)

Module Console.

Inductive LogLevel := DEBUG | INFO | WARN | ERROR.

Definition level_name (l : LogLevel) : str :=
  match l with
  | DEBUG => js "DEBUG" | INFO => js "INFO"
  | WARN => js "WARN" | ERROR => js "ERROR"
  end.

Record log_config := LogConfig {
  enabled : bool;
  minLevel : LogLevel;
  colorize : bool;
  useStructured : bool
}.

Definition LOG_CONFIG : list (str * log_config) :=
  [ (js "development", LogConfig true DEBUG true false);
    (js "production", LogConfig true INFO false true);
    (js "test", LogConfig false ERROR false false) ].

(** The names [LOG_CONFIG] inherits from [Object.prototype]: for one of
    them [LOG_CONFIG[k]] is the inherited member, a truthy value on which
    [enabled], [minLevel], [colorize] and [useStructured] all read
    [undefined]. *)
Definition OBJECT_PROTOTYPE_KEYS : list str :=
  map js [ "constructor"; "__defineGetter__"; "__defineSetter__";
           "hasOwnProperty"; "__lookupGetter__"; "__lookupSetter__";
           "isPrototypeOf"; "propertyIsEnumerable"; "toString"; "valueOf";
           "__proto__"; "toLocaleString" ]%string.

(** What the code reads on such a member: nothing is enabled, so
    [minLevel] is never looked at. *)
Definition inherited_member : log_config := LogConfig false DEBUG false false.

(** [LOG_CONFIG[k]], for the own keys of the table. *)
Fixpoint lookup_config (k : str) (t : list (str * log_config)) : option log_config :=
  match t with
  | [] => None
  | (k', c) :: t' => if str_eqb k k' then Some c else lookup_config k t'
  end.

Section WithRuntime.
Variable rt : runtime.

(** [const ENV = env.NODE_ENV || 'development'] *)
Definition ENV : str :=
  match env_NODE_ENV rt with
  | Some (c :: e) => c :: e
  | _ => js "development"
  end.

(** [const config = LOG_CONFIG[ENV] || LOG_CONFIG.development] *)
Definition config : log_config :=
  match lookup_config ENV LOG_CONFIG with
  | Some c => c
  | None =>
      if existsb (str_eqb ENV) OBJECT_PROTOTYPE_KEYS then inherited_member
      else LogConfig true DEBUG true false
  end.

Definition indent : nat := if str_eqb ENV (js "development") then 2 else 0.

Definition NON_SERIALIZABLE : str := js "[Circular or Non-Serializable Object]".

(** [formatObject(obj)]: the [try] block, and the [catch] that answers
    with the fixed text. *)
Definition formatObject (h : heap) (obj : value) : value :=
  match
    match deref h obj with
    | VError name message stack own =>
        JSON_stringify rt h
          (VObject (assign_props
             (object_literal
                [ (js "message", VStr message);
                  (js "stack", if str_eqb ENV (js "development")
                               then match stack with Some s => VStr s | None => VUndefined end
                               else VUndefined) ])
             (own_enumerable h obj)))
          indent
    | _ => JSON_stringify rt h obj indent
    end
  with
  | Return v => v
  | Throw _ => VStr NON_SERIALIZABLE
  end.

(** The Logger façade: [structuredLogger] is [null] or the backend. *)
Record Logger := Build {
  module : str;
  structuredLogger : option Structured.StructuredLogger
}.

Definition isServerSide : bool := negb (window_defined rt).

(** [new Logger(module)] *)
Definition new (module : str) : js_comp Logger :=
  if isServerSide && useStructured config then
    sl <~ Structured.createStructuredLogger rt module None ;;
    ret (Build module (Some sl))
  else ret (Build module None).

Definition createLogger (module : str) : js_comp Logger := new module.

Definition shouldLogInEnvironment : bool :=
  if str_eqb ENV (js "production") then isServerSide else enabled config.

Definition level_index (l : LogLevel) : nat :=
  match l with DEBUG => 0 | INFO => 1 | WARN => 2 | ERROR => 3 end.

Definition shouldLog (level : LogLevel) : bool :=
  if negb shouldLogInEnvironment then false
  else Nat.leb (level_index (minLevel config)) (level_index level).

(** [formatArgs(args)] *)
Definition formatArgs (h : heap) (args : list value) : list value :=
  map (fun arg =>
         match deref h arg with
         | VNull | VUndefined => arg
         | _ => if str_eqb (typeof h arg) (js "object") then formatObject h arg else arg
         end) args.

Definition bracket (s : str) : str := js "[" ++ s ++ js "]".

(** [log(level, message, ...args)] *)
Definition log (self : Logger) (level : LogLevel) (message : str) (args : list value)
  : js_comp unit :=
  if negb (shouldLog level) then ret tt
  else
    timestamp <~ read_clock rt ;;
    h <~ get_heap ;;
    let formattedArgs := formatArgs h args in
    let prefix :=
      if colorize config then
        let levelColor :=
          match level with
          | DEBUG => Blue | INFO => Green | WARN => Yellow | ERROR => Red
          end in
        chalk rt Gray (bracket timestamp) ++ js " " ++
        chalk rt levelColor (bracket (level_name level)) ++ js " " ++
        chalk rt Cyan (bracket (module self))
      else
        bracket timestamp ++ js " " ++ bracket (level_name level) ++ js " " ++
        bracket (module self) in
    match level with
    | ERROR => emit (ConsoleError (VStr prefix :: VStr message :: formattedArgs))
    | _ => emit (ConsoleLog (VStr prefix :: VStr message :: formattedArgs))
    end.

(** The four public methods: the structured backend when there is one,
    with [{}] as context, the console otherwise. *)
Definition debug (self : Logger) (message : str) (args : list value) : js_comp unit :=
  match structuredLogger self with
  | Some sl => Structured.debug rt sl message (VObject []) args
  | None => log self DEBUG message args
  end.

Definition info (self : Logger) (message : str) (args : list value) : js_comp unit :=
  match structuredLogger self with
  | Some sl => Structured.info rt sl message (VObject []) args
  | None => log self INFO message args
  end.

Definition warn (self : Logger) (message : str) (args : list value) : js_comp unit :=
  match structuredLogger self with
  | Some sl => Structured.warn rt sl message (VObject []) args
  | None => log self WARN message args
  end.

Definition error (self : Logger) (message : str) (args : list value) : js_comp unit :=
  match structuredLogger self with
  | Some sl => Structured.error rt sl message (VObject []) args
  | None => log self ERROR message args
  end.

End WithRuntime.

End Console.

(* ------------------------------------------------------------------ *)
(** ** Vocabulary of the statements *)

(** A call on the façade, and a sequence of calls made one after the
    other (a caller may catch what a call throws and go on). *)
Inductive call := Call (level : Console.LogLevel) (message : str) (args : list value).

Definition do_call (rt : runtime) (l : Console.Logger) (c : call) : js_comp unit :=
  match c with
  | Call Console.DEBUG m a => Console.debug rt l m a
  | Call Console.INFO m a => Console.info rt l m a
  | Call Console.WARN m a => Console.warn rt l m a
  | Call Console.ERROR m a => Console.error rt l m a
  end.

Fixpoint run_calls (rt : runtime) (l : Console.Logger) (cs : list call) (w : world) : world :=
  match cs with
  | [] => w
  | c :: cs' => run_calls rt l cs' (snd (do_call rt l c w))
  end.

(** A call on a StructuredLogger: one of the six level methods, or
    [logWithLevel] with any number as level. *)
Inductive scall :=
| SCall (level : pino_level_name) (message : str) (context : value) (args : list value)
| SCallLevel (level : Z) (message : str) (context : value) (args : list value).

Definition do_scall (rt : runtime) (l : Structured.StructuredLogger) (c : scall)
  : js_comp unit :=
  match c with
  | SCall lv m ctx a => Structured.log_at rt lv l m ctx a
  | SCallLevel lv m ctx a => Structured.logWithLevel rt lv l m ctx a
  end.

Fixpoint run_scalls (rt : runtime) (l : Structured.StructuredLogger) (cs : list scall)
  (w : world) : world :=
  match cs with
  | [] => w
  | c :: cs' => run_scalls rt l cs' (snd (do_scall rt l c w))
  end.

(** The stream an event goes to. *)
Inductive backend := ConsoleBackend | StructuredBackend.

Definition backend_of_event (e : event) : backend :=
  match e with
  | ConsoleLog _ | ConsoleError _ => ConsoleBackend
  | PinoWrite _ _ _ => StructuredBackend
  end.

Definition backend_of (l : Console.Logger) : backend :=
  match Console.structuredLogger l with
  | Some _ => StructuredBackend
  | None => ConsoleBackend
  end.

(** The default context of a StructuredLogger, as the heap has it. *)
Definition default_context_of (l : Structured.StructuredLogger) (w : world)
  : list (str * value) :=
  own_enumerable (w_heap w) (VRef (Structured.defaultContext l)).

(** Does a string occur in some string of a value (keys apart)? *)
Fixpoint mentions (p : str) (v : value) : bool :=
  match v with
  | VStr s => includes s p
  | VArray items => existsb (mentions p) items
  | VObject es => existsb (fun kv => mentions p (snd kv)) es
  | _ => false
  end.

(** [n] objects, each the [self] of the one around it, about [v]. *)
Fixpoint nest_self (n : nat) (v : value) : value :=
  match n with
  | O => v
  | S n' => VObject [(js "self", nest_self n' v)]
  end.

(** [n] arrays, each the only element of the one around it, about [v]. *)
Fixpoint nest_array (n : nat) (v : value) : value :=
  match n with
  | O => v
  | S n' => VArray [nest_array n' v]
  end.

(** An object whose [self] property is the object itself. *)
Definition self_cycle : heap := <[0%nat := VObject [(js "self", VRef 0)]]> ∅.

(** *** Bearer tokens *)

(** A bearer token starts here: the letters of [Bearer] in any case, one
    white space and maybe more, then a token character. *)
Fixpoint spaces_then_token (s : str) : bool :=
  match s with
  | [] => false
  | c :: s' => if is_space c then spaces_then_token s' else is_token c
  end.

Definition space_then_token (s : str) : bool :=
  match s with
  | c :: s' => is_space c && spaces_then_token s'
  | [] => false
  end.

Fixpoint letters_then (p s : str) : bool :=
  match p with
  | [] => space_then_token s
  | x :: p' =>
      match s with
      | c :: s' => char_eqb_i x c && letters_then p' s'
      | [] => false
      end
  end.

Definition bearer_at (s : str) : bool := letters_then (js "Bearer") s.

Fixpoint has_bearer (s : str) : bool :=
  bearer_at s || match s with [] => false | _ :: s' => has_bearer s' end.

(** The scanner for a bearer token, by state: the letters still to read,
    or the white space before the token. *)
Inductive bstate := BLetters (p : str) | BSpaces.

Definition run (st : bstate) (s : str) : bool :=
  match st with
  | BLetters p => letters_then p s
  | BSpaces => spaces_then_token s
  end.

Fixpoint tails (p : str) : list str :=
  p :: match p with [] => [] | _ :: p' => tails p' end.

Definition valid (st : bstate) : Prop :=
  match st with
  | BLetters p => In p (tails (js "Bearer"))
  | BSpaces => True
  end.

(** *** Masking

    The markers the rules after the Bearer rule put in place of what they
    mask. *)

Definition marker (M : str) : Prop :=
  M = REDACTED \/ M = dquoted REDACTED \/ M = js "[REDACTED_JWT]".

(** [masked s out]: [out] is [s] with some chunks replaced by markers. *)
Inductive masked : str -> str -> Prop :=
| mk_nil : masked [] []
| mk_copy c s out : masked s out -> masked (c :: s) (c :: out)
| mk_mark x M s out : marker M -> masked s out -> masked (x ++ s) (M ++ out).

(** What the Bearer rule replaces, and where it finds nothing. *)
Definition bearer_ok (m t : str) : Prop :=
  (exists b m', m = b :: m' /\ char_eqb_i 66%N b = true) /\ t = BEARER_PLACEHOLDER.

Definition bearer_miss (s : str) : Prop := bearer_at s = false.

(** What a rule after the Bearer rule does to a chunk, as far as the mask
    is concerned: the replacement has the mask in it, or is the chunk
    itself, or the chunk is [eyJ] and token characters. *)
Definition keeps_mask (m t : str) : Prop :=
  includes t REDACTED = true \/ t = m \/
  exists x, m = js "eyJ" ++ x /\ forallb is_token x = true.

(** [out] has the mask if [s] has it; and where [s] starts with the end
    of the mask, [out] starts with it too or has the whole mask. *)
Definition carries_mask (s out : str) : Prop :=
  (includes s REDACTED = true -> includes out REDACTED = true) /\
  (forall r, In r (tails REDACTED) -> starts_with r s = true ->
             starts_with r out = true \/ includes out REDACTED = true).

(** *** Fixed points of the walk *)

(** Every string of a value is left as it is by the redactor. *)
Fixpoint strings_fixed (v : value) : bool :=
  match v with
  | VStr s => str_eqb (sanitizeString s) s
  | VArray items => forallb strings_fixed items
  | VObject es => forallb (fun kv => strings_fixed (snd kv)) es
  | _ => true
  end.

(** The walk, with this depth to go, meets no Error object. *)
Fixpoint no_error_met (h : heap) (v : value) (maxDepth : nat) : bool :=
  match maxDepth with
  | O => true
  | S d =>
      match deref h v with
      | VError _ _ _ _ => false
      | VArray items => forallb (fun item => no_error_met h item d) items
      | VObject es | VMap _ es | VSet _ es | VInstance _ es =>
          forallb (fun kv => is_function h (snd kv) || no_error_met h (snd kv) d) es
      | _ => true
      end
  end.

(** The walk, with this depth to go, meets no Error object that has a
    single level left, apart from what lies under another Error. *)
Fixpoint errors_above_last_level (h : heap) (v : value) (maxDepth : nat) : bool :=
  match maxDepth with
  | O => true
  | S d =>
      match deref h v with
      | VError _ _ _ _ => match d with O => false | S _ => true end
      | VArray items => forallb (fun item => errors_above_last_level h item d) items
      | VObject es | VMap _ es | VSet _ es | VInstance _ es =>
          forallb (fun kv => is_function h (snd kv) ||
                             errors_above_last_level h (snd kv) d) es
      | _ => true
      end
  end.

Fixpoint first_some {A B} (f : A -> option B) (l : list A) : option B :=
  match l with
  | [] => None
  | x :: l' => match f x with Some b => Some b | None => first_some f l' end
  end.

(** What the input makes the walk, with this depth to go, throw: the
    first invalid Date or unreadable object that is reached through
    arrays only. *)
Fixpoint escapes (h : heap) (v : value) (maxDepth : nat) : option thrown :=
  match maxDepth with
  | O => None
  | S d =>
      match deref h v with
      | VDate None => Some INVALID_TIME_VALUE
      | VThrowing e => Some e
      | VArray items => first_some (fun item => escapes h item d) items
      | _ => None
      end
  end.

(** An object nothing can be read from. *)
Definition unreadable (h : heap) (v : value) : bool :=
  match deref h v with VThrowing _ => true | _ => false end.

(** The own keys are in the property order of an ordinary object, and
    distinct: no later key is an earlier one or goes before it. *)
Fixpoint wf_keys (ks : list str) : Prop :=
  match ks with
  | [] => True
  | k :: ks' => Forall (fun k' => k' <> k /\ key_before k' k = false) ks' /\ wf_keys ks'
  end.

Definition keys (o : list (str * value)) : list str := map fst o.


(** *** What a computation may write *)

(** [emits_only P m]: whatever the world, [m] only appends events that
    satisfy [P] to the output. *)
Definition emits_only {A} (P : event -> Prop) (m : js_comp A) : Prop :=
  forall w, exists evs, w_out (snd (m w)) = w_out w ++ evs /\ Forall P evs.

Definition silent {A} (m : js_comp A) : Prop := emits_only (fun _ => False) m.

(** *** Reading a result *)

(** [o[k]] on the own properties of an object: [undefined] when the key
    is missing. *)
Definition get_prop (k : str) (o : list (str * value)) : value :=
  match find (fun kv => str_eqb k (fst kv)) o with
  | Some kv => snd kv
  | None => VUndefined
  end.

(** The entries the loop of the plain-object branch keeps: not those
    whose value is a function, and not an own property [__proto__], which
    the assignment does not create. *)
Definition kept (h : heap) (kv : str * value) : bool :=
  negb (is_function h (snd kv)) && negb (str_eqb (fst kv) (js "__proto__")).

(** What an entry of a plain object becomes: the value of the walk, or
    the sentinel of the per-entry handler. *)
Definition entry_result (walk : value -> outcome value) (v : value) : value :=
  match walk v with
  | Return v' => v'
  | Throw _ => VStr CIRCULAR_REFERENCE
  end.

(** Data that nests at most [d] levels deep: primitives, functions,
    arrays and plain objects; no Date, Error, Map, Set, class instance or
    reference. *)
Fixpoint plain (d : nat) (v : value) : Prop :=
  match v with
  | VUndefined | VNull | VBool _ | VNum _ | VStr _
  | VSymbol _ | VBigInt _ | VFunction _ => True
  | VArray items =>
      match d with
      | O => False
      | S d' => Forall (plain d') items
      end
  | VObject es =>
      match d with
      | O => False
      | S d' => Forall (fun kv => plain d' (snd kv)) es
      end
  | _ => False
  end.

(** The merge of the default context with the context of a call, as
    [formatLogData] sanitizes it: [sanitizeLogData({ ...defaultContext,
    ...context })] on an object walks its entries one level down. *)
Definition sanitized_merge (node_env : option str) (h : heap)
  (defaultContext : list (str * value)) (context : value) : list (str * value) :=
  sanitize_entries h (fun value => sanitizeObject node_env h value 9)
    (assign_props (object_literal defaultContext) (own_enumerable h context)).

(** [sanitizedContext.additionalData = sanitizedArgs], done when there
    are arguments. *)
Definition with_additional (sanitizedArgs : list value) (o : list (str * value))
  : list (str * value) :=
  match sanitizedArgs with
  | [] => o
  | _ :: _ => set_prop (js "additionalData") (VArray sanitizedArgs) o
  end.

(** [{ msg: message, ...sanitizedContext }] *)
Definition record_of (message : str) (sanitizedContext : list (str * value)) : value :=
  VObject (assign_props (object_literal [(js "msg", VStr message)]) sanitizedContext).

(** The three ready-made constructors, and the key each one puts its
    identifier under. *)
Inductive ready_made := ForRequest | ForUser | ForWorkflow.

Definition ready_made_logger (rt : runtime) (k : ready_made)
  : str -> option str -> js_comp Structured.StructuredLogger :=
  match k with
  | ForRequest => Structured.createRequestLogger rt
  | ForUser => Structured.createUserLogger rt
  | ForWorkflow => Structured.createWorkflowLogger rt
  end.

Definition ready_made_key (k : ready_made) : str :=
  match k with
  | ForRequest => js "requestId"
  | ForUser => js "userId"
  | ForWorkflow => js "workflowId"
  end.

(** No string of a value has a bearer token in it (keys apart). *)
Fixpoint bearer_free (v : value) : bool :=
  match v with
  | VStr s => negb (has_bearer s)
  | VArray items => forallb bearer_free items
  | VObject es => forallb (fun kv => bearer_free (snd kv)) es
  | _ => true
  end.

(** The walk, with this depth to go, meets no Date whose ISO text has a
    bearer token in it (the text [toISOString] gives never has one). *)
Fixpoint dates_bearer_free (h : heap) (v : value) (maxDepth : nat) : bool :=
  match maxDepth with
  | O => true
  | S d =>
      match deref h v with
      | VDate (Some iso) => negb (has_bearer iso)
      | VArray items => forallb (fun item => dates_bearer_free h item d) items
      | VObject es | VMap _ es | VSet _ es | VInstance _ es =>
          forallb (fun kv => is_function h (snd kv) || dates_bearer_free h (snd kv) d) es
      | _ => true
      end
  end.

(** What the input makes the walk throw, if anything, has no bearer
    token in the text the handler reads from it. *)
Definition escape_bearer_free (h : heap) (v : value) (maxDepth : nat) : bool :=
  match escapes h v maxDepth with
  | Some (JsError _ text) | Some (Printable text) => negb (has_bearer text)
  | _ => true
  end.

(** The opening of the two masks, [[REDACTED]] and [[REDACTED_JWT]]. *)
Definition MASK_OPEN : str := js "[REDACTED".

(** The console call of a level: [console.error] for ERROR,
    [console.log] for the others. *)
Definition console_event (level : Console.LogLevel) (args : list value) : event :=
  match level with
  | Console.ERROR => ConsoleError args
  | _ => ConsoleLog args
  end.

(** The pino level a method of the façade writes at. *)
Definition pino_level_of (level : Console.LogLevel) : pino_level_name :=
  match level with
  | Console.DEBUG => PDebug | Console.INFO => PInfo
  | Console.WARN => PWarn | Console.ERROR => PError
  end.

(** *** Sample inputs *)

Definition sample_log_data : value :=
  VObject [ (js "auth", VStr (js "Bearer abc123"));
            (js "when", VDate (Some (js "2024-01-01T00:00:00.000Z")));
            (js "tags", VArray [VStr (js "a"); VNum 1; VNull]);
            (js "bad", VDate None);
            (js "seen", VSet [VNum 1] []) ].

(** [Object.create(null)] as a thrown value: it is no Error, and
    [String] throws a TypeError on it. *)
Definition null_prototype_object : thrown :=
  Unprintable (JsError (js "TypeError") (js "Cannot convert object to primitive value")).

(** [{ get secret() { throw Object.create(null) } }] *)
Definition throwing_getter : value := VThrowing null_prototype_object.

Definition production_server : runtime :=
  Runtime (Some (js "production")) (Some (js "production")) false
    (fun _ => js "2024-01-01T00:00:00.000Z") (fun _ s => s)
    (fun _ _ _ => Return VUndefined).

Definition test_server : runtime :=
  Runtime (Some (js "test")) (Some (js "test")) false
    (fun _ => js "2024-01-01T00:00:00.000Z") (fun _ s => s)
    (fun _ _ _ => Return VUndefined).


(* ================================================================== *)
(** * Part II — properties                                             *)
(* ================================================================== *)

(* ------------------------------------------------------------------ *)
(** ** Strings *)

Lemma str_eqb_eq (a b : str) : str_eqb a b = true <-> a = b.
Proof.
  revert b. induction a as [|x a IH]; intros [|y b]; cbn [str_eqb];
    try (split; [discriminate | discriminate]); try (split; reflexivity).
  rewrite andb_true_iff, IH. unfold char_eqb. rewrite N.eqb_eq.
  split; [intros [-> ->]; reflexivity | intros H; inversion H; auto].
Qed.

Lemma str_eqb_refl (a : str) : str_eqb a a = true.
Proof. now apply str_eqb_eq. Qed.

(* ------------------------------------------------------------------ *)
(** ** The matcher *)

Module ReFacts.
Import Re.

Lemma last_char_app pv m1 m2 : last_char (last_char pv m1) m2 = last_char pv (m1 ++ m2).
Proof.
  unfold last_char. rewrite rev_app_distr.
  destruct (rev m2) as [|c t]; cbn [app]; reflexivity.
Qed.

Lemma last_char_cons pv c m : last_char pv (c :: m) = last_char (Some c) m.
Proof. exact (eq_sym (last_char_app pv [c] m)). Qed.

Lemma consumed_app m s : consumed (m ++ s) s = m.
Proof.
  unfold consumed. rewrite length_app.
  replace (length m + length s - length s)%nat with (length m) by lia.
  rewrite firstn_app, firstn_all. replace (length m - length m)%nat with 0%nat by lia.
  cbn [firstn]. apply app_nil_r.
Qed.

(** The greedy repetition returns what its continuation returns, after a
    run of the class of at least the minimal length. *)
Lemma rep_greedy_sound {A} p (k : option char -> str -> option A) s :
  forall min pv res,
  rep_greedy p min pv s k = Some res ->
  exists m s', s = m ++ s' /\ forallb p m = true /\ (min <= length m)%nat /\
               k (last_char pv m) s' = Some res.
Proof.
  induction s as [|c s IH]; intros min pv res; cbn [rep_greedy].
  - destruct min; [|discriminate]. intros H. exists [], []. repeat split; auto.
  - assert (Hstop : match min with O => k pv (c :: s) | S _ => None end = Some res ->
             exists m s', c :: s = m ++ s' /\ forallb p m = true /\
                          (min <= length m)%nat /\ k (last_char pv m) s' = Some res).
    { destruct min; [|discriminate]. intros H. exists [], (c :: s). repeat split; auto. }
    destruct (p c) eqn:Hc; [|exact Hstop].
    destruct (rep_greedy p (Nat.pred min) (Some c) s k) as [x|] eqn:Hrec; [|exact Hstop].
    intros H. injection H as ->.
    destruct (IH _ _ _ Hrec) as [m [s' [-> [Hm [Hmin Hk]]]]].
    exists (c :: m), s'. repeat split.
    + cbn [forallb]. now rewrite Hc, Hm.
    + cbn [length]. lia.
    + now rewrite last_char_cons.
Qed.

(** The matcher returns what its continuation returns, at a position
    further in the same input, after a text the pattern can match. *)
Lemma rmatch_sound r : forall st k res,
  rmatch r st k = Some res ->
  exists m st',
    rest st = m ++ rest st' /\ sem r m (caps st) (caps st') /\
    prev st' = last_char (prev st) m /\ k st' = Some res.
Proof.
  induction r as [|p|r1 IH1 r2 IH2|r1 IH1 r2 IH2|p min|p| |n r IH];
    intros st k res; cbn [rmatch sem].
  - intros H. exists [], st. repeat split; auto.
  - destruct st as [pv [|c s] cs]; cbn [rest caps prev]; [discriminate|].
    destruct (p c) eqn:Hc; [|discriminate].
    intros H. exists [c], (MState (Some c) s cs). cbn [rest caps prev].
    repeat split; eauto.
  - intros H. destruct (IH1 _ _ _ H) as [m1 [st1 [E1 [S1 [P1 H1]]]]].
    destruct (IH2 _ _ _ H1) as [m2 [st2 [E2 [S2 [P2 H2]]]]].
    exists (m1 ++ m2), st2. repeat split.
    + rewrite E1, E2. apply app_assoc.
    + exists m1, m2, (caps st1). auto.
    + rewrite P2, P1. apply last_char_app.
    + exact H2.
  - destruct (rmatch r1 st k) as [x|] eqn:H1.
    + intros H. injection H as ->.
      destruct (IH1 _ _ _ H1) as [m [st' [E [S [P Hk]]]]].
      exists m, st'. repeat split; auto.
    + intros H. destruct (IH2 _ _ _ H) as [m [st' [E [S [P Hk]]]]].
      exists m, st'. repeat split; auto.
  - intros H. apply rep_greedy_sound in H.
    destruct H as [m [s' [E [Hm [Hmin Hk]]]]].
    exists m, (MState (last_char (prev st) m) s' (caps st)). cbn [rest caps prev].
    repeat split; auto.
  - destruct st as [pv [|c s] cs]; cbn [rest caps prev].
    + intros H. exists [], (MState pv [] cs). cbn [rest caps prev]. repeat split; auto.
    + assert (Hskip : k (MState pv (c :: s) cs) = Some res ->
        exists m st', c :: s = m ++ rest st' /\
          ((m = [] \/ exists c0, m = [c0] /\ p c0 = true) /\ caps st' = cs) /\
          prev st' = last_char pv m /\ k st' = Some res).
      { intros H. exists [], (MState pv (c :: s) cs). cbn [rest caps prev].
        repeat split; auto. }
      destruct (p c) eqn:Hc; [|exact Hskip].
      destruct (k (MState (Some c) s cs)) as [x|] eqn:Hk; [|exact Hskip].
      intros H. injection H as ->.
      exists [c], (MState (Some c) s cs). cbn [rest caps prev].
      repeat split; eauto.
  - destruct (xorb _ _); [|discriminate].
    intros H. exists [], st. repeat split; auto.
  - intros H. destruct (IH _ _ _ H) as [m [st' [E [S [P Hk]]]]].
    cbn [rest caps prev] in Hk.
    eexists m, (MState (prev st') (rest st') ((n, consumed (rest st) (rest st')) :: caps st')).
    cbn [rest caps prev]. repeat split; auto.
    exists (caps st'). split; [exact S|].
    rewrite E, consumed_app. reflexivity.
Qed.

(** A successful match attempt splits the input into the matched text
    and the text after it. *)
Lemma match_here_sound r pv s h :
  match_here r pv s = Some h ->
  s = matched h ++ after h /\ sem r (matched h) [] (groups h).
Proof.
  unfold match_here.
  destruct (rmatch r (MState pv s []) Some) as [st'|] eqn:H; [|discriminate].
  intros E. injection E as <-. cbn [matched after groups].
  destruct (rmatch_sound _ _ _ _ H) as [m [st1 [E1 [S1 [_ Hk]]]]].
  injection Hk as ->. cbn [rest caps] in *.
  rewrite E1, consumed_app. auto.
Qed.

(** *** The shape of a global replacement *)

Section Scan.
Variable r : regex.
Variable f : replacer.
Variable ok : str -> str -> Prop.
Variable miss : str -> Prop.
Hypothesis Hok : forall pv s h,
  match_here r pv s = Some h -> ok (matched h) (f (matched h) (groups h)).
Hypothesis Hmiss : forall pv s, match_here r pv s = None -> miss s.

Lemma replace_scan_rewrites s : forall pv n,
  rewrites ok miss (skipn n s) (replace_scan r f pv s n).
Proof using Hok Hmiss.
  induction s as [|c s IH]; intros pv n.
  - rewrite skipn_nil. cbn [replace_scan].
    destruct n; [|constructor].
    destruct (match_here r pv []) as [h|] eqn:Hm; [|constructor].
    pose proof (Hok _ _ _ Hm) as Ho.
    apply (rw_chunk ok miss _ _ [] []) in Ho; [|constructor].
    destruct (match_here_sound _ _ _ _ Hm) as [E _].
    symmetry in E. apply app_eq_nil in E. destruct E as [E _].
    rewrite E in *. rewrite !app_nil_r in Ho. exact Ho.
  - cbn [replace_scan]. destruct n as [|n]; [|apply IH].
    cbn [skipn].
    destruct (match_here r pv (c :: s)) as [h|] eqn:Hm.
    + pose proof (Hok _ _ _ Hm) as Ho.
      destruct (match_here_sound _ _ _ _ Hm) as [E _].
      destruct (matched h) as [|c' m'] eqn:Em; cbn [length].
      * apply rw_empty; [exact Ho | apply (IH _ 0%nat)].
      * cbn [app] in E. injection E as -> Es.
        rewrite Es at 1.
        apply (rw_chunk ok miss (c' :: m') _ (after h)); [exact Ho|].
        specialize (IH (Some c') (length m')).
        rewrite Es in IH at 1. rewrite skipn_app, skipn_all in IH.
        replace (length m' - length m')%nat with 0%nat in IH by lia.
        exact IH.
    + apply rw_copy; [eapply Hmiss; eauto | apply (IH _ 0%nat)].
Qed.

Lemma replace_all_rewrites s : rewrites ok miss s (replace_all r f s).
Proof using Hok Hmiss. exact (replace_scan_rewrites s None 0). Qed.

Lemma replace_first_rewrites s : forall pv,
  rewrites ok (fun _ => True) s (replace_first_from r f pv s).
Proof using Hok.
  induction s as [|c s IH]; intros pv; cbn [replace_first_from].
  - destruct (match_here r pv []) as [h|] eqn:Hm; [|constructor].
    pose proof (Hok _ _ _ Hm) as Ho.
    destruct (match_here_sound _ _ _ _ Hm) as [E _].
    symmetry in E. apply app_eq_nil in E. destruct E as [E1 E2].
    rewrite E2.
    apply (rw_chunk ok _ [] _ [] []); [|constructor].
    rewrite E1 in Ho at 1. exact Ho.
  - destruct (match_here r pv (c :: s)) as [h|] eqn:Hm.
    + pose proof (Hok _ _ _ Hm) as Ho.
      destruct (match_here_sound _ _ _ _ Hm) as [E _].
      rewrite E at 1. apply rw_chunk; [exact Ho|].
      clear. induction (after h); constructor; auto.
    + apply rw_copy; [exact I | apply IH].
Qed.

End Scan.
End ReFacts.

(* ------------------------------------------------------------------ *)
(** ** The regular expression objects are stateful *)

(** C5. [containsSensitiveData] and [detectSensitivePatterns] are not
    stateless: the patterns carry the [g] flag, so [test] leaves its
    [lastIndex] behind.  On the string ["Bearer abc123"], starting from
    freshly loaded patterns, the first [containsSensitiveData] answers
    true and the second false; the first [detectSensitivePatterns] lists
    the Bearer rule and the second lists nothing. *)
Theorem sensitive_queries_depend_on_lastIndex :
  let s := js "Bearer abc123" in
  let '(b1, st1) := containsSensitiveData fresh_patterns s in
  let '(b2, _) := containsSensitiveData st1 s in
  let '(d1, st1') := detectSensitivePatterns fresh_patterns s in
  let '(d2, _) := detectSensitivePatterns st1' s in
  b1 = true /\ b2 = false /\ st1 = [13; 0; 0; 0; 0; 0]%nat /\
  d1 = [js "Bearer tokens"] /\ d2 = [].
Proof. vm_compute. repeat split; reflexivity. Qed.

(* ------------------------------------------------------------------ *)
(** ** Redaction of bearer tokens *)

Module RedactionFacts.
Import Re ReFacts.

Ltac each_state st H :=
  destruct st as [p|]; cbn [valid] in H;
  [ cbn in H;
    repeat (destruct H as [H|H]; [subst p|]); [..|contradiction] | ].

Lemma valid_step x p : valid (BLetters (x :: p)) -> valid (BLetters p).
Proof.
  cbn. intros H.
  repeat (destruct H as [H|H];
          [first [discriminate H | injection H as <- <-; cbn; tauto]|]).
  contradiction.
Qed.

Ltac bool_to_prop H :=
  repeat first
    [ rewrite orb_true_iff in H | rewrite andb_true_iff in H
    | rewrite N.leb_le in H | rewrite N.eqb_eq in H
    | rewrite negb_true_iff in H | rewrite orb_false_iff in H
    | rewrite andb_false_iff in H | rewrite N.leb_gt in H
    | rewrite N.eqb_neq in H ].

Lemma is_space_not_token c : is_space c = true -> is_token c = false.
Proof.
  intros H. destruct (is_token c) eqn:E; [exfalso|reflexivity].
  unfold is_space, is_token, is_alnum, is_upper, is_lower, is_digit, in_range,
    char_eqb in *.
  bool_to_prop H. bool_to_prop E. lia.
Qed.

Lemma char_eqb_i_letter x c :
  is_upper x = true -> char_eqb_i x c = true -> c = x \/ c = (x + 32)%N.
Proof.
  unfold char_eqb_i, to_upper, char_eqb, is_upper, is_lower, in_range.
  intros Hx.
  destruct (N.leb 97 x && N.leb x 122) eqn:E1;
    destruct (N.leb 97 c && N.leb c 122) eqn:E2; intros Hc;
    bool_to_prop Hx; bool_to_prop E1; bool_to_prop E2; bool_to_prop Hc; lia.
Qed.

Lemma char_eqb_i_lower x c :
  is_lower x = true -> char_eqb_i x c = true -> c = x \/ c = (x - 32)%N.
Proof.
  unfold char_eqb_i, to_upper, char_eqb, is_upper, is_lower, in_range.
  intros Hx. rewrite Hx.
  destruct (N.leb 97 c && N.leb c 122) eqn:E2; intros Hc;
    bool_to_prop Hx; bool_to_prop E2; bool_to_prop Hc; lia.
Qed.

Lemma letter_is_token x c :
  In x (js "Bearer") -> char_eqb_i x c = true -> is_token c = true /\ is_space c = false.
Proof.
  intros Hx Hc.
  assert (Ht : is_token c = true).
  { cbn in Hx. repeat (destruct Hx as [Hx|Hx]; [subst x|]); [..|contradiction].
    - apply char_eqb_i_letter in Hc; [|reflexivity]. destruct Hc as [->| ->]; reflexivity.
    - apply char_eqb_i_lower in Hc; [|reflexivity]. destruct Hc as [->| ->]; reflexivity.
    - apply char_eqb_i_lower in Hc; [|reflexivity]. destruct Hc as [->| ->]; reflexivity.
    - apply char_eqb_i_lower in Hc; [|reflexivity]. destruct Hc as [->| ->]; reflexivity.
    - apply char_eqb_i_lower in Hc; [|reflexivity]. destruct Hc as [->| ->]; reflexivity.
    - apply char_eqb_i_lower in Hc; [|reflexivity]. destruct Hc as [->| ->]; reflexivity. }
  split; [exact Ht|].
  destruct (is_space c) eqn:Hs; [|reflexivity].
  apply is_space_not_token in Hs. congruence.
Qed.

(** *** Reading one code unit *)

Lemma run_cons_sim st c s out :
  valid st ->
  (forall st', valid st' -> run st' out = true -> run st' s = true) ->
  run st (c :: out) = true -> run st (c :: s) = true.
Proof.
  intros Hv IH. destruct st as [[|x p]|]; cbn [run letters_then space_then_token spaces_then_token].
  - rewrite !andb_true_iff. intros [Hc H]. split; [exact Hc|].
    exact (IH BSpaces I H).
  - rewrite !andb_true_iff. intros [Hc H]. split; [exact Hc|].
    exact (IH (BLetters p) (valid_step _ _ Hv) H).
  - destruct (is_space c); [exact (IH BSpaces I) | auto].
Qed.

Lemma has_bearer_app_r x s : has_bearer s = true -> has_bearer (x ++ s) = true.
Proof.
  intros H. induction x as [|c x IH]; cbn [app has_bearer]; [exact H|].
  rewrite IH. apply orb_true_r.
Qed.

Lemma valid_start : valid (BLetters (js "Bearer")).
Proof. cbn. tauto. Qed.

(** *** Masking *)

Lemma masked_refl s : masked s s.
Proof. induction s; constructor; auto. Qed.

Lemma masked_app a a' b b' : masked a a' -> masked b b' -> masked (a ++ b) (a' ++ b').
Proof.
  intros Ha Hb. induction Ha; cbn [app].
  - exact Hb.
  - constructor. exact IHHa.
  - rewrite <- !app_assoc. constructor; assumption.
Qed.

Lemma masked_mark x M : marker M -> masked x M.
Proof.
  intros HM. pose proof (mk_mark x M [] [] HM mk_nil) as H.
  now rewrite !app_nil_r in H.
Qed.

Lemma marker_kills M st y : marker M -> valid st -> run st (M ++ y) = false.
Proof.
  intros [->|[->| ->]] Hv; each_state st Hv; vm_compute; reflexivity.
Qed.

Lemma marker_has_bearer M y : marker M -> has_bearer (M ++ y) = has_bearer y.
Proof. intros [->|[->| ->]]; vm_compute; reflexivity. Qed.

Lemma masked_sim s out :
  masked s out -> forall st, valid st -> run st out = true -> run st s = true.
Proof.
  induction 1 as [|c s out H IH|x M s out HM H IH]; intros st Hv Hr.
  - exact Hr.
  - eapply run_cons_sim; eauto.
  - rewrite marker_kills in Hr by assumption. discriminate.
Qed.

Lemma masked_has_bearer s out :
  masked s out -> has_bearer out = true -> has_bearer s = true.
Proof.
  induction 1 as [|c s out H IH|x M s out HM H IH]; intros Hb.
  - exact Hb.
  - cbn [has_bearer] in *. apply orb_true_iff in Hb. apply orb_true_iff.
    destruct Hb as [Hb|Hb]; [left|right; auto].
    apply (masked_sim _ _ (mk_copy c s out H) _ valid_start Hb).
  - rewrite marker_has_bearer in Hb by assumption.
    apply has_bearer_app_r. auto.
Qed.

Lemma rewrites_masked s out :
  rewrites masked (fun _ => True) s out -> masked s out.
Proof.
  induction 1 as [|c s out _ H IH|c s out t Ht H IH|m t s out Hmt H IH].
  - constructor.
  - constructor. exact IH.
  - apply (masked_app [] t (c :: s) (c :: out)); [exact Ht|]. constructor. exact IH.
  - apply masked_app; assumption.
Qed.

(** *** What the literals match *)

Lemma sem_lit p : forall m cs cs', sem (Re.lit p) m cs cs' -> m = p /\ cs' = cs.
Proof.
  induction p as [|x p IH]; intros m cs cs'; cbn [Re.lit sem].
  - auto.
  - intros [m1 [m2 [cs1 [-> [[c [-> [Hc ->]]] H2]]]]].
    destruct (IH _ _ _ H2) as [-> ->].
    unfold char_eqb in Hc. apply N.eqb_eq in Hc. subst c. auto.
Qed.

Lemma sem_lit_i p : forall m cs cs',
  sem (Re.lit_i p) m cs cs' ->
  Forall2 (fun x c => char_eqb_i x c = true) p m /\ cs' = cs.
Proof.
  induction p as [|x p IH]; intros m cs cs'; cbn [Re.lit_i sem].
  - intros [-> ->]. split; [constructor | reflexivity].
  - intros [m1 [m2 [cs1 [-> [[c [-> [Hc ->]]] H2]]]]].
    destruct (IH _ _ _ H2) as [HF ->].
    split; [constructor; assumption | reflexivity].
Qed.

(** *** The rules after the first only mask *)

Lemma expand_plain_sk m cs : expand (js "sk-[REDACTED]") m cs = js "sk-" ++ REDACTED.
Proof. vm_compute. reflexivity. Qed.

Lemma expand_plain_jwt m cs :
  expand (js "eyJ[REDACTED_JWT]") m cs = js "eyJ" ++ js "[REDACTED_JWT]".
Proof. vm_compute. reflexivity. Qed.

Lemma expand_redacted m cs : expand REDACTED m cs = REDACTED.
Proof. vm_compute. reflexivity. Qed.

Lemma expand_quoted m cs : expand (dquoted REDACTED) m cs = dquoted REDACTED.
Proof. vm_compute. reflexivity. Qed.

Lemma expand_postgres m g1 g2 :
  expand (js "$1[REDACTED]$2") m [(2%nat, g2); (1%nat, g1)] = g1 ++ REDACTED ++ g2.
Proof.
  transitivity (g1 ++ REDACTED ++ g2 ++ []); [vm_compute; reflexivity|].
  now rewrite app_nil_r.
Qed.

Lemma sk_chunk pv s h :
  Re.match_here sk_re pv s = Some h ->
  masked (Re.matched h) (replacer_of (ReplString (js "sk-[REDACTED]"))
                           (Re.matched h) (Re.groups h)).
Proof.
  intros Hm. destruct (match_here_sound _ _ _ _ Hm) as [_ S].
  cbn [replacer_of]. rewrite expand_plain_sk.
  unfold sk_re in S. cbn [sem] in S.
  destruct S as [m0 [m1 [cs1 [-> [[-> _] [m2 [m3 [cs2 [-> [S2 _]]]]]]]]]].
  apply sem_lit in S2. destruct S2 as [-> _]. cbn [app].
  apply (masked_app (js "sk-") (js "sk-") m3 REDACTED); [apply masked_refl|].
  apply masked_mark. left. reflexivity.
Qed.

Lemma jwt_chunk pv s h :
  Re.match_here jwt_re pv s = Some h ->
  masked (Re.matched h) (replacer_of (ReplString (js "eyJ[REDACTED_JWT]"))
                           (Re.matched h) (Re.groups h)).
Proof.
  intros Hm. destruct (match_here_sound _ _ _ _ Hm) as [_ S].
  cbn [replacer_of]. rewrite expand_plain_jwt.
  unfold jwt_re in S. cbn [sem] in S.
  destruct S as [m0 [m1 [cs1 [-> [[-> _] [m2 [m3 [cs2 [-> [S2 _]]]]]]]]]].
  apply sem_lit in S2. destruct S2 as [-> _]. cbn [app].
  apply (masked_app (js "eyJ") (js "eyJ") m3 (js "[REDACTED_JWT]")); [apply masked_refl|].
  apply masked_mark. right. right. reflexivity.
Qed.

Lemma replace_all_marker r M s :
  marker M -> masked s (Re.replace_all r (replacer_of (ReplString M)) s).
Proof.
  intros HM. apply rewrites_masked.
  apply replace_all_rewrites; [|auto].
  intros pv s' h _. cbn [replacer_of].
  replace (expand M (Re.matched h) (Re.groups h)) with M.
  - now apply masked_mark.
  - destruct HM as [->|[->| ->]]; vm_compute; reflexivity.
Qed.

Lemma replace_first_marker r M s :
  marker M -> masked s (Re.replace_first r (replacer_of (ReplString M)) s).
Proof.
  intros HM. apply rewrites_masked.
  apply replace_first_rewrites.
  intros pv s' h _. cbn [replacer_of].
  replace (expand M (Re.matched h) (Re.groups h)) with M.
  - now apply masked_mark.
  - destruct HM as [->|[->| ->]]; vm_compute; reflexivity.
Qed.

Ltac sem_destruct :=
  repeat match goal with
         | H : exists _, _ |- _ => destruct H as [? H]
         | H : _ /\ _ |- _ => destruct H as [? ?]
         end.

Lemma postgres_chunk pv s h :
  Re.match_here postgres_re pv s = Some h ->
  masked (Re.matched h) (replacer_of (ReplString (js "$1[REDACTED]$2"))
                           (Re.matched h) (Re.groups h)).
Proof.
  intros Hm. destruct (match_here_sound _ _ _ _ Hm) as [_ S].
  cbn [replacer_of].
  unfold postgres_re in S. cbn [sem] in S.
  sem_destruct.
  match goal with
  | H : sem (Re.lit_i _) _ _ _ |- _ => apply sem_lit_i in H; destruct H as [_ ?]
  end.
  subst.
  match goal with
  | H : Re.matched h = _, G : Re.groups h = _ |- _ => rewrite G, H
  end.
  rewrite expand_postgres.
  apply masked_app; [apply masked_refl|].
  apply masked_app; [|apply masked_refl].
  apply masked_mark. left. reflexivity.
Qed.

(** Every rule after the Bearer rule turns its input into a masked
    version of it. *)
Lemma later_rules_mask s r :
  In r (tl SENSITIVE_PATTERNS) -> masked s (apply_rule s r).
Proof.
  cbn [SENSITIVE_PATTERNS tl In].
  intros [<-|[<-|[<-|[<-|[<-|[]]]]]];
    unfold apply_rule, SK_RULE, APIKEY_RULE, PASSWORD_RULE, JWT_RULE, POSTGRES_RULE;
    cbn [pattern repl];
    apply rewrites_masked.
  - apply replace_all_rewrites; [apply sk_chunk | auto].
  - apply replace_all_rewrites; [|auto]. intros pv s' h _. cbn [replacer_of].
    apply replace_all_marker. left. reflexivity.
  - apply replace_all_rewrites; [|auto]. intros pv s' h _. cbn [replacer_of].
    apply replace_first_marker. right. left. reflexivity.
  - apply replace_all_rewrites; [apply jwt_chunk | auto].
  - apply replace_all_rewrites; [apply postgres_chunk | auto].
Qed.

(** *** The Bearer rule finds every bearer token *)

Lemma rep_greedy_complete {A} p (k : option char -> str -> option A) m s' :
  forall min pv,
  forallb p m = true -> (min <= length m)%nat ->
  k (Re.last_char pv m) s' <> None ->
  Re.rep_greedy p min pv (m ++ s') k <> None.
Proof.
  induction m as [|c m IH]; intros min pv Hm Hmin Hk.
  - cbn [length] in Hmin. assert (min = 0%nat) by lia. subst min.
    cbn [app]. destruct s' as [|c s']; cbn [Re.rep_greedy]; [exact Hk|].
    destruct (p c); [|exact Hk].
    destruct (Re.rep_greedy p (Nat.pred 0) (Some c) s' k); [discriminate | exact Hk].
  - cbn [forallb] in Hm. apply andb_true_iff in Hm. destruct Hm as [Hc Hm].
    cbn [app Re.rep_greedy]. rewrite Hc.
    assert (Hin : Re.rep_greedy p (Nat.pred min) (Some c) (m ++ s') k <> None).
    { apply (IH (Nat.pred min) (Some c)); [assumption | cbn [length] in Hmin; lia |].
      now rewrite <- (last_char_cons pv). }
    destruct (Re.rep_greedy p (Nat.pred min) (Some c) (m ++ s') k);
      [discriminate | contradiction].
Qed.

Lemma rmatch_lit_i_complete p : forall m s' st k,
  Re.rest st = m ++ s' ->
  Forall2 (fun x c => char_eqb_i x c = true) p m ->
  Re.rmatch (Re.lit_i p) st k
    = k (Re.MState (Re.last_char (Re.prev st) m) s' (Re.caps st)).
Proof.
  induction p as [|x p IH]; intros m s' st k E HF; inversion HF; subst;
    cbn [Re.lit_i Re.rmatch].
  - destruct st as [pv s cs]. cbn [Re.rest Re.prev Re.caps app] in *. now subst.
  - destruct st as [pv s cs]. cbn [Re.rest Re.prev Re.caps app] in *. subst s.
    match goal with H : char_eqb_i x _ = true |- _ => rewrite H end.
    erewrite IH; [|reflexivity|eassumption].
    cbn [Re.rest Re.prev Re.caps]. now rewrite last_char_cons.
Qed.

Lemma letters_then_split p : forall s,
  letters_then p s = true ->
  exists m s', s = m ++ s' /\ Forall2 (fun x c => char_eqb_i x c = true) p m /\
               space_then_token s' = true.
Proof.
  induction p as [|x p IH]; intros s; cbn [letters_then].
  - intros H. exists [], s. repeat split; [constructor | exact H].
  - destruct s as [|c s]; [discriminate|].
    rewrite andb_true_iff. intros [Hc H].
    destruct (IH _ H) as [m [s' [-> [HF Hs]]]].
    exists (c :: m), s'. repeat split; [constructor; assumption | exact Hs].
Qed.

Lemma spaces_then_token_split s :
  spaces_then_token s = true ->
  exists ws t s', s = ws ++ t :: s' /\ forallb is_space ws = true /\ is_token t = true.
Proof.
  induction s as [|c s IH]; cbn [spaces_then_token]; [discriminate|].
  destruct (is_space c) eqn:Hc.
  - intros H. destruct (IH H) as [ws [t [s' [-> [Hws Ht]]]]].
    exists (c :: ws), t, s'. repeat split; [|exact Ht].
    cbn [forallb]. now rewrite Hc, Hws.
  - intros Ht. exists [], c, s. repeat split; exact Ht.
Qed.

Lemma bearer_re_complete pv s :
  Re.match_here bearer_re pv s = None -> bearer_at s = false.
Proof.
  intros Hm. destruct (bearer_at s) eqn:Hb; [exfalso|reflexivity].
  apply letters_then_split in Hb. destruct Hb as [m [s' [-> [HF Hs]]]].
  destruct s' as [|c s']; [discriminate|]. cbn [space_then_token] in Hs.
  apply andb_true_iff in Hs. destruct Hs as [Hc Hs].
  apply spaces_then_token_split in Hs. destruct Hs as [ws [t [s'' [-> [Hws Ht]]]]].
  unfold Re.match_here, bearer_re in Hm. cbn [Re.rmatch] in Hm.
  rewrite (rmatch_lit_i_complete _ m (c :: ws ++ t :: s'')) in Hm
    by (cbn [Re.rest]; auto).
  cbn [Re.rmatch Re.rest Re.prev Re.caps] in Hm.
  match type of Hm with
  | match ?x with _ => _ end = None => destruct x eqn:Hx; [discriminate|]
  end.
  revert Hx.
  apply (rep_greedy_complete is_space _ (c :: ws) (t :: s'')).
  - cbn [forallb]. now rewrite Hc, Hws.
  - cbn [length]. lia.
  - apply (rep_greedy_complete is_token _ [t] s'').
    + cbn [forallb]. now rewrite Ht.
    + cbn [length]. lia.
    + discriminate.
Qed.

(** What the Bearer rule replaces starts with the letter B, in either
    case. *)
Lemma bearer_re_chunk pv s h :
  Re.match_here bearer_re pv s = Some h ->
  exists b m', Re.matched h = b :: m' /\ char_eqb_i 66%N b = true.
Proof.
  intros Hm. destruct (match_here_sound _ _ _ _ Hm) as [_ S].
  unfold bearer_re in S. cbn [sem] in S.
  destruct S as [m1 [m2 [cs1 [-> [S1 _]]]]].
  apply sem_lit_i in S1. destruct S1 as [HF _].
  inversion HF as [|x c p m' Hc HF']; subst.
  exists c, (m' ++ m2). split; [reflexivity | exact Hc].
Qed.

Lemma bearer_pass_rewrites s :
  rewrites bearer_ok bearer_miss s
    (Re.replace_all bearer_re (replacer_of (ReplString BEARER_PLACEHOLDER)) s).
Proof.
  apply replace_all_rewrites.
  - intros pv s' h Hm. split; [eapply bearer_re_chunk; eauto|].
    cbn [replacer_of]. vm_compute. reflexivity.
  - intros pv s' Hm. eapply bearer_re_complete; eauto.
Qed.

Lemma placeholder_run st y :
  valid st -> run st (BEARER_PLACEHOLDER ++ y) = true -> st = BSpaces.
Proof.
  intros Hv. each_state st Hv; try reflexivity; vm_compute; discriminate.
Qed.

Lemma placeholder_has_bearer y :
  has_bearer (BEARER_PLACEHOLDER ++ y) = has_bearer y.
Proof. vm_compute. reflexivity. Qed.

Lemma bearer_pass_sim s out :
  rewrites bearer_ok bearer_miss s out ->
  forall st, valid st -> run st out = true -> run st s = true.
Proof.
  induction 1 as [|c s out _ H IH|c s out t [[b [m' [E _]]] _] H IH
                 |m t s out [[b [m' [-> Hb]]] ->] H IH]; intros st Hv Hr.
  - exact Hr.
  - eapply run_cons_sim; eauto.
  - discriminate E.
  - apply placeholder_run in Hr; [|assumption]. subst st.
    cbn [app run spaces_then_token].
    destruct (letter_is_token 66%N b) as [Ht Hs]; [cbn; tauto | exact Hb |].
    now rewrite Hs, Ht.
Qed.

Lemma bearer_pass_clean s out :
  rewrites bearer_ok bearer_miss s out -> has_bearer out = false.
Proof.
  induction 1 as [|c s out Hmiss H IH|c s out t [[b [m' [E _]]] _] H IH
                 |m t s out [_ ->] H IH].
  - reflexivity.
  - cbn [has_bearer]. rewrite IH, orb_false_r.
    destruct (bearer_at (c :: out)) eqn:Hb; [|reflexivity].
    pose proof (bearer_pass_sim _ _ (rw_copy _ _ c s out Hmiss H) _ valid_start Hb) as Hs.
    unfold bearer_miss in Hmiss. cbn [run] in Hs. unfold bearer_at in Hmiss. congruence.
  - discriminate E.
  - now rewrite placeholder_has_bearer.
Qed.

Lemma starts_with_app p y : starts_with p (p ++ y) = true.
Proof.
  induction p as [|c p IH]; cbn [starts_with app]; [reflexivity|].
  unfold char_eqb. now rewrite N.eqb_refl, IH.
Qed.

Lemma includes_app_r x s p : includes s p = true -> includes (x ++ s) p = true.
Proof.
  intros H. induction x as [|c x IH]; cbn [app]; [exact H|].
  cbn [includes]. rewrite IH. apply orb_true_r.
Qed.

Lemma includes_cons c s p : includes s p = true -> includes (c :: s) p = true.
Proof. exact (includes_app_r [c] s p). Qed.

Lemma includes_prefix p y : includes (p ++ y) p = true.
Proof.
  destruct (p ++ y) eqn:E; cbn [includes]; rewrite <- E, starts_with_app; reflexivity.
Qed.

Lemma bearer_pass_placeholder s out :
  rewrites bearer_ok bearer_miss s out ->
  has_bearer s = true -> includes out BEARER_PLACEHOLDER = true.
Proof.
  induction 1 as [|c s out Hmiss H IH|c s out t [[b [m' [E _]]] _] H IH
                 |m t s out [_ ->] H IH]; intros Hb.
  - discriminate Hb.
  - cbn [has_bearer] in Hb. unfold bearer_miss in Hmiss. rewrite Hmiss in Hb.
    cbn [orb] in Hb. apply includes_cons. auto.
  - discriminate E.
  - apply includes_prefix.
Qed.

(** The Bearer rule leaves no bearer token, and the rules after it
    bring none back. *)
Lemma sanitizeString_clean s : has_bearer (sanitizeString s) = false.
Proof.
  pose proof (bearer_pass_rewrites s) as Hrw.
  assert (K : forall a r, In r (tl SENSITIVE_PATTERNS) ->
                has_bearer a = false -> has_bearer (apply_rule a r) = false).
  { intros a r Hr Ha. destruct (has_bearer (apply_rule a r)) eqn:E; [|reflexivity].
    apply (masked_has_bearer _ _ (later_rules_mask a r Hr)) in E. congruence. }
  unfold sanitizeString, SENSITIVE_PATTERNS. cbn [fold_left].
  cbn [SENSITIVE_PATTERNS tl In] in K.
  apply K; [tauto|]. apply K; [tauto|]. apply K; [tauto|].
  apply K; [tauto|]. apply K; [tauto|].
  exact (bearer_pass_clean _ _ Hrw).
Qed.

Lemma bearer_pass_has_placeholder s :
  has_bearer s = true -> includes (apply_rule s BEARER_RULE) BEARER_PLACEHOLDER = true.
Proof.
  intros Hb. exact (bearer_pass_placeholder _ _ (bearer_pass_rewrites s) Hb).
Qed.

(** *** The mask stays *)

Lemma starts_with_app_l p a b :
  starts_with p a = true -> starts_with p (a ++ b) = true.
Proof.
  revert a. induction p as [|x p IH]; intros a; [reflexivity|].
  destruct a as [|c a]; cbn [starts_with app]; [discriminate|].
  rewrite !andb_true_iff. intros [Hc H]. split; [exact Hc | now apply IH].
Qed.

Lemma includes_app_l a b p : includes a p = true -> includes (a ++ b) p = true.
Proof.
  induction a as [|c a IH].
  - cbn [includes]. rewrite orb_false_r. destruct p; [|discriminate].
    intros _. destruct b; reflexivity.
  - cbn [includes app]. rewrite !orb_true_iff. intros [H|H].
    + left. exact (starts_with_app_l p (c :: a) b H).
    + right. now apply IH.
Qed.

Lemma starts_with_includes p s : starts_with p s = true -> includes s p = true.
Proof. intros H. destruct s; cbn [includes]; rewrite H; reflexivity. Qed.

Lemma includes_of_suffix a p : forall s,
  includes s (a ++ p) = true -> includes s p = true.
Proof.
  assert (K : forall s, starts_with (a ++ p) s = true -> includes s p = true).
  { induction a as [|x a IH]; intros s; cbn [app].
    - apply starts_with_includes.
    - destruct s as [|c s]; cbn [starts_with]; [discriminate|].
      rewrite andb_true_iff. intros [_ H]. apply includes_cons. now apply IH. }
  induction s as [|c s IH]; intros H; cbn [includes] in H;
    apply orb_true_iff in H; destruct H as [H|H].
  - now apply K.
  - discriminate.
  - now apply K.
  - apply includes_cons. now apply IH.
Qed.

Lemma tails_tl x r p : In (x :: r) (tails p) -> In r (tails p).
Proof.
  induction p as [|y p IH]; cbn [tails In].
  - intros [H|[]]. discriminate.
  - intros [H|H].
    + injection H as -> ->. right. destruct r; cbn [tails In]; auto.
    + right. destruct p as [|z p]; [destruct H as [H|[]]; discriminate|].
      apply IH. exact H.
Qed.

Lemma tails_self p : In p (tails p).
Proof. destruct p; cbn [tails In]; auto. Qed.

Lemma carries_refl s : carries_mask s s.
Proof. split; auto. Qed.

Lemma carries_cons c s out : carries_mask s out -> carries_mask (c :: s) (c :: out).
Proof.
  intros [H1 H2].
  assert (K : forall r, In r (tails REDACTED) -> starts_with r (c :: s) = true ->
                starts_with r (c :: out) = true \/ includes (c :: out) REDACTED = true).
  { intros [|x r] Hr; [left; reflexivity|].
    cbn [starts_with]. rewrite andb_true_iff. intros [Hc Hs].
    destruct (H2 r (tails_tl _ _ _ Hr) Hs) as [H|H].
    - left. now rewrite Hc, H.
    - right. now apply includes_cons. }
  split; [|exact K].
  intros H. cbn [includes] in H. apply orb_true_iff in H. destruct H as [H|H].
  - destruct (K REDACTED (tails_self _) H) as [H'|H']; [|exact H'].
    now apply starts_with_includes.
  - apply includes_cons. auto.
Qed.

Lemma carries_app m s out : carries_mask s out -> carries_mask (m ++ s) (m ++ out).
Proof. intros H. induction m; cbn [app]; [exact H | now apply carries_cons]. Qed.

Lemma carries_included s out :
  includes out REDACTED = true -> carries_mask s out.
Proof. intros H. split; auto. Qed.

Lemma token_not_bracket c : is_token c = true -> char_eqb 91%N c = false.
Proof.
  intros H. destruct (char_eqb 91%N c) eqn:E; [exfalso|reflexivity].
  unfold is_token, is_alnum, is_upper, is_lower, is_digit, in_range, char_eqb in *.
  bool_to_prop H. bool_to_prop E. lia.
Qed.

Lemma includes_after_tokens x s :
  forallb is_token x = true ->
  includes (x ++ s) REDACTED = true -> includes s REDACTED = true.
Proof.
  induction x as [|c x IH]; cbn [app forallb]; [auto|].
  rewrite andb_true_iff. intros [Hc Hx].
  cbn [includes]. unfold REDACTED at 1. cbn [js starts_with].
  change (starts_with (js "[REDACTED]") (c :: x ++ s))
    with (char_eqb 91%N c && starts_with (js "REDACTED]") (x ++ s)).
  rewrite (token_not_bracket c Hc). cbn [andb orb]. now apply IH.
Qed.

Lemma carries_jwt x t s out :
  forallb is_token x = true ->
  carries_mask s out -> carries_mask ((js "eyJ" ++ x) ++ s) (t ++ out).
Proof.
  intros Hx [H1 H2]. split.
  - intros H. apply includes_app_r. apply H1.
    apply (includes_after_tokens (js "eyJ" ++ x)); [|exact H].
    rewrite forallb_app, Hx. reflexivity.
  - intros r Hr Hs. left.
    cbn in Hr.
    repeat (destruct Hr as [Hr|Hr]; [subst r; try discriminate Hs|]);
      [reflexivity | contradiction].
Qed.

Lemma rewrites_carry miss s out :
  rewrites keeps_mask miss s out -> carries_mask s out.
Proof.
  induction 1 as [|c s out _ H IH|c s out t Ht H IH|m t s out Hmt H IH].
  - apply carries_refl.
  - now apply carries_cons.
  - destruct Ht as [Ht|[->|[x [E _]]]].
    + apply carries_included. now apply includes_app_l.
    + now apply carries_cons.
    + discriminate E.
  - destruct Hmt as [Ht|[->|[x [-> Hx]]]].
    + apply carries_included. now apply includes_app_l.
    + now apply carries_app.
    + now apply carries_jwt.
Qed.

(** A replacement by a text with the mask in it: the mask is in the
    result, or nothing was replaced. *)
Lemma rewrites_const M miss m t :
  includes M REDACTED = true ->
  rewrites (fun _ t' => t' = M) miss m t -> keeps_mask m t.
Proof.
  intros HM Hrw.
  assert (K : includes t REDACTED = true \/ t = m).
  { induction Hrw as [|c s out _ H IH|c s out t -> H IH|m t s out -> H IH].
    - right. reflexivity.
    - destruct IH as [IH| ->]; [left; now apply includes_cons | right; reflexivity].
    - left. now apply includes_app_l.
    - left. now apply includes_app_l. }
  destruct K as [K|K]; [left; exact K | right; left; exact K].
Qed.

Lemma sk_keeps pv s h :
  match_here sk_re pv s = Some h ->
  keeps_mask (matched h) (replacer_of (ReplString (js "sk-[REDACTED]"))
                            (matched h) (groups h)).
Proof.
  intros _. left. cbn [replacer_of]. rewrite expand_plain_sk.
  vm_compute. reflexivity.
Qed.

Lemma b64url_is_token c : is_b64url c = true -> is_token c = true.
Proof.
  unfold is_b64url, is_token.
  destruct (is_alnum c), (char_eqb c 46%N), (char_eqb c 95%N), (char_eqb c 45%N);
    cbn; auto.
Qed.

Lemma dot_is_token c : char_eqb 46%N c = true -> is_token c = true.
Proof.
  unfold char_eqb. intros H. apply N.eqb_eq in H. subst c. reflexivity.
Qed.

Lemma forallb_b64url_token m : forallb is_b64url m = true -> forallb is_token m = true.
Proof.
  induction m as [|c m IH]; cbn [forallb]; [auto|].
  rewrite !andb_true_iff. intros [Hc Hm]. split; [now apply b64url_is_token | auto].
Qed.

Lemma jwt_keeps pv s h :
  match_here jwt_re pv s = Some h ->
  keeps_mask (matched h) (replacer_of (ReplString (js "eyJ[REDACTED_JWT]"))
                            (matched h) (groups h)).
Proof.
  intros Hm. destruct (match_here_sound _ _ _ _ Hm) as [_ S].
  unfold jwt_re in S. cbn [sem] in S.
  sem_destruct.
  match goal with
  | H : sem (Re.lit _) _ _ _ |- _ => apply sem_lit in H; destruct H as [? _]
  end.
  subst.
  match goal with H : matched h = _ |- _ => rewrite H end.
  right. right. cbn [app].
  eexists. split; [reflexivity|].
  repeat match goal with
         | H : forallb is_b64url _ = true |- _ => apply forallb_b64url_token in H
         | H : char_eqb 46%N _ = true |- _ => apply dot_is_token in H
         end.
  repeat first [ rewrite forallb_app | progress cbn [forallb app] ].
  repeat match goal with
         | H : forallb is_token _ = true |- _ => rewrite H
         | H : is_token _ = true |- _ => rewrite H
         end.
  reflexivity.
Qed.

Lemma postgres_keeps pv s h :
  match_here postgres_re pv s = Some h ->
  keeps_mask (matched h) (replacer_of (ReplString (js "$1[REDACTED]$2"))
                            (matched h) (groups h)).
Proof.
  intros Hm. destruct (match_here_sound _ _ _ _ Hm) as [_ S].
  cbn [replacer_of].
  unfold postgres_re in S. cbn [sem] in S.
  sem_destruct.
  match goal with
  | H : sem (Re.lit_i _) _ _ _ |- _ => apply sem_lit_i in H; destruct H as [_ ?]
  end.
  subst.
  match goal with
  | G : groups h = _ |- _ => rewrite G
  end.
  rewrite expand_postgres.
  left. apply includes_app_r. apply includes_prefix.
Qed.

(** Every rule after the Bearer rule keeps the mask where it is. *)
Lemma later_rules_keep s r :
  In r (tl SENSITIVE_PATTERNS) ->
  includes s REDACTED = true -> includes (apply_rule s r) REDACTED = true.
Proof.
  intros Hr. apply (rewrites_carry (fun _ => True)).
  revert Hr. cbn [SENSITIVE_PATTERNS tl In].
  intros [<-|[<-|[<-|[<-|[<-|[]]]]]];
    unfold apply_rule, SK_RULE, APIKEY_RULE, PASSWORD_RULE, JWT_RULE, POSTGRES_RULE;
    cbn [pattern repl].
  - apply replace_all_rewrites; [apply sk_keeps | auto].
  - apply replace_all_rewrites; [|auto]. intros pv s' h _. cbn [replacer_of].
    apply (rewrites_const REDACTED (fun _ => True)); [reflexivity|].
    apply replace_all_rewrites; [|auto]. intros. apply expand_redacted.
  - apply replace_all_rewrites; [|auto]. intros pv s' h _. cbn [replacer_of].
    apply (rewrites_const (dquoted REDACTED) (fun _ => True)); [reflexivity|].
    apply replace_first_rewrites. intros. apply expand_quoted.
  - apply replace_all_rewrites; [apply jwt_keeps | auto].
  - apply replace_all_rewrites; [apply postgres_keeps | auto].
Qed.

Lemma sanitizeString_has_mask s :
  has_bearer s = true -> includes (sanitizeString s) REDACTED = true.
Proof.
  intros Hb.
  pose proof (bearer_pass_has_placeholder s Hb) as H0.
  apply (includes_of_suffix (js "Bearer ") REDACTED) in H0.
  unfold sanitizeString, SENSITIVE_PATTERNS. cbn [fold_left].
  pose proof later_rules_keep as K. cbn [SENSITIVE_PATTERNS tl In] in K.
  apply K; [tauto|]. apply K; [tauto|]. apply K; [tauto|].
  apply K; [tauto|]. apply K; [tauto|].
  exact H0.
Qed.

End RedactionFacts.

(** C9, as stated, fails: the placeholder need not be in the output.  In
    [key=] followed by [Bearer abc] between double quotes, the Bearer rule
    puts the placeholder in, and the password rule then masks the whole
    quoted text, placeholder included. *)
Lemma placeholder_masked_by_password_rule :
  let s := js "key=" ++ dquoted (js "Bearer abc") in
  includes s (js "Bearer abc") = true /\
  sanitizeString s = js "key=" ++ dquoted REDACTED /\
  includes (sanitizeString s) (js "Bearer [REDACTED]") = false.
Proof. vm_compute. repeat split; reflexivity. Qed.

(** C9, amended.  For a string with a bearer token in it ([Bearer] in
    any case, white space, a token character): the pass of the Bearer
    rule puts the placeholder into the string, and the output of the
    redactor has no bearer token left and has the mask [[REDACTED]] in
    it. *)
Theorem bearer_tokens_are_masked (s : str) :
  has_bearer s = true ->
  includes (apply_rule s BEARER_RULE) (js "Bearer [REDACTED]") = true /\
  has_bearer (sanitizeString s) = false /\
  includes (sanitizeString s) (js "[REDACTED]") = true.
Proof.
  intros Hb. split; [|split].
  - now apply RedactionFacts.bearer_pass_has_placeholder.
  - apply RedactionFacts.sanitizeString_clean.
  - now apply RedactionFacts.sanitizeString_has_mask.
Qed.

Lemma bearer_tokens_are_masked_witness :
  let s := js "Authorization: Bearer abc123" in
  has_bearer s = true /\
  includes (apply_rule s BEARER_RULE) (js "Bearer [REDACTED]") = true /\
  has_bearer (sanitizeString s) = false /\
  includes (sanitizeString s) (js "[REDACTED]") = true.
Proof.
  split; [reflexivity|].
  apply (bearer_tokens_are_masked (js "Authorization: Bearer abc123")).
  reflexivity.
Defined.

(* ------------------------------------------------------------------ *)
(** ** The deep sanitizer on particular shapes *)

(** C2. On the object [o] with [o.self === o] the walk ends, but it
    never meets an exception: it unfolds the cycle ten times and ends on
    the depth sentinel.  The circular-reference sentinel is nowhere in
    the result. *)
Theorem self_cycle_unfolds_to_max_depth :
  sanitizeLogData None self_cycle (VRef 0)
    = Return (nest_self 10 (VStr MAX_DEPTH_REACHED)) /\
  mentions CIRCULAR_REFERENCE (nest_self 10 (VStr MAX_DEPTH_REACHED)) = false.
Proof. split; vm_compute; reflexivity. Qed.

(** What the per-entry handler does catch: an invalid date. *)
Example invalid_date_entry_is_called_circular :
  sanitizeLogData None ∅ (VObject [(js "when", VDate None)])
    = Return (VObject [(js "when", VStr CIRCULAR_REFERENCE)]).
Proof. vm_compute. reflexivity. Qed.

(** [sanitizeLogData], by what the walk does. *)
Lemma sanitizeLogData_unfold (node_env : option str) (h : heap) (data : value) :
  sanitizeLogData node_env h data =
    match sanitizeObject node_env h data 10 with
    | Return v => Return v
    | Throw e =>
        match error_text e with
        | Return text => Return (sanitization_error (typeof h data) text)
        | Throw raised => Throw raised
        end
    end.
Proof.
  unfold sanitizeLogData, try_catch, bind.
  destruct (sanitizeObject node_env h data 10) as [v|e]; [reflexivity|].
  destruct (error_text e); reflexivity.
Qed.

Lemma sanitizeLogData_of_Return node_env h data v :
  sanitizeObject node_env h data 10 = Return v ->
  sanitizeLogData node_env h data = Return v.
Proof. intros H. now rewrite sanitizeLogData_unfold, H. Qed.

Lemma sanitization_error_literal t m :
  sanitization_error t m
  = VObject [ (js "_sanitization_error", VBool true);
              (js "_original_type", VStr t);
              (js "_error", VStr m) ].
Proof. vm_compute. reflexivity. Qed.

(** The handler is not dead code: an invalid date inside an array. *)
Example walk_throws_on_invalid_date :
  sanitizeObject None ∅ (VArray [VDate None]) 10
    = Throw (JsError (js "RangeError") (js "Invalid time value")) /\
  sanitizeLogData None ∅ (VArray [VDate None])
    = Return (VObject [ (js "_sanitization_error", VBool true);
                        (js "_original_type", VStr (js "object"));
                        (js "_error", VStr (js "Invalid time value")) ]).
Proof. split; vm_compute; reflexivity. Qed.

(** [map] throws what the first element that throws throws. *)
Lemma array_map_first {A B} (f : A -> outcome B) (g : A -> option thrown) (l : list A) :
  Forall (fun x => match g x with
                   | Some e => f x = Throw e
                   | None => exists y, f x = Return y
                   end) l ->
  match first_some g l with
  | Some e => array_map f l = Throw e
  | None => exists ys, array_map f l = Return ys
  end.
Proof.
  induction l as [|x l IH]; intros H; cbn [first_some array_map].
  - eauto.
  - inversion H as [|? ? Hx Hl]; subst. specialize (IH Hl).
    destruct (g x) as [e|].
    + now rewrite Hx.
    + destruct Hx as [y ->]. cbn [bind].
      destruct (first_some g l) as [e|].
      * now rewrite IH.
      * destruct IH as [ys ->]. cbn [bind]. eauto.
Qed.

(** What the walk throws is read off the input: only an invalid Date or
    an unreadable object that is reached through arrays makes it throw;
    a cycle never does. *)
Lemma walk_escapes node_env h d : forall v,
  match escapes h v d with
  | Some e => sanitizeObject node_env h v d = Throw e
  | None => exists o, sanitizeObject node_env h v d = Return o
  end.
Proof.
  induction d as [|d IH]; intros v.
  - cbn. eauto.
  - cbn [sanitizeObject escapes].
    destruct (deref h v) eqn:E; eauto.
    + specialize (IH (VObject (other_error_props own))).
      replace (escapes h (VObject (other_error_props own)) d) with (@None thrown) in IH
        by (destruct d; reflexivity).
      destruct IH as [rest ->]. cbn [bind]. eauto.
    + destruct iso; cbn [toISOString bind]; eauto.
    + pose proof (array_map_first (fun item => sanitizeObject node_env h item d)
                    (fun item => escapes h item d) items) as Hm.
      destruct (first_some (fun item => escapes h item d) items) as [e|].
      * rewrite Hm; [reflexivity|]. apply List.Forall_forall. intros x _. apply IH.
      * destruct Hm as [ys ->]; [|cbn [bind]; eauto].
        apply List.Forall_forall. intros x _. apply IH.
Qed.

Lemma walk_throws_iff node_env h d v e :
  sanitizeObject node_env h v d = Throw e <-> escapes h v d = Some e.
Proof.
  pose proof (walk_escapes node_env h d v) as H.
  destruct (escapes h v d) as [e'|].
  - rewrite H. split; congruence.
  - destruct H as [o ->]. split; discriminate.
Qed.

(** On the self-referential object the walk comes to nothing that
    throws, so the per-entry handler never runs. *)
Example self_cycle_does_not_throw :
  escapes self_cycle (VRef 0) 10 = None.
Proof. reflexivity. Qed.

(** C4.  [sanitizeLogData] can throw.  Take an object with a getter that
    throws [Object.create(null)]: [Object.entries] calls the getter, the
    handler at the top gets the thrown object, finds that it is no
    Error, and converts it with [String], which throws a TypeError out
    of the handler; [sanitizeLogArgs] throws with it.  When the getter
    throws an Error, the handler answers with the diagnostic record. *)
Theorem sanitizeLogData_throws_from_its_handler :
  sanitizeObject None ∅ throwing_getter 10 = Throw null_prototype_object /\
  sanitizeLogData None ∅ throwing_getter
    = Throw (JsError (js "TypeError") (js "Cannot convert object to primitive value")) /\
  sanitizeLogArgs None ∅ [VStr (js "ok"); throwing_getter]
    = Throw (JsError (js "TypeError") (js "Cannot convert object to primitive value")) /\
  sanitizeLogData None ∅ (VThrowing (JsError (js "Error") (js "boom")))
    = Return (VObject [ (js "_sanitization_error", VBool true);
                        (js "_original_type", VStr (js "object"));
                        (js "_error", VStr (js "boom")) ]).
Proof. repeat split; vm_compute; reflexivity. Qed.

(** One step of the walk on the objects of the plain-object branch. *)
Lemma sanitizeObject_entries node_env h obj es d :
  match deref h obj with
  | VObject es' | VMap _ es' | VSet _ es' | VInstance _ es' => es' = es
  | _ => False
  end ->
  sanitizeObject node_env h obj (S d)
    = Return (VObject (sanitize_entries h
                (fun value => sanitizeObject node_env h value d) es)).
Proof.
  intros H. cbn [sanitizeObject].
  destruct (deref h obj); try contradiction; subst; reflexivity.
Qed.

(** C10. A Map, a Set or another class instance is walked as the plain
    object of its own enumerable properties: the result is that of the
    plain object with the same properties, whatever the contents, and it
    is the empty object when there are no such properties. *)
Theorem containers_become_plain_objects (node_env : option str) (h : heap)
  (contents : list (value * value)) (elements : list value) (cls : str)
  (entries : list (str * value)) :
  sanitizeLogData node_env h (VMap contents entries)
    = sanitizeLogData node_env h (VObject entries) /\
  sanitizeLogData node_env h (VSet elements entries)
    = sanitizeLogData node_env h (VObject entries) /\
  sanitizeLogData node_env h (VInstance cls entries)
    = sanitizeLogData node_env h (VObject entries) /\
  sanitizeLogData node_env h (VObject entries)
    = Return (VObject (sanitize_entries h
                (fun value => sanitizeObject node_env h value 9) entries)) /\
  sanitizeLogData node_env h (VMap contents []) = Return (VObject []) /\
  sanitizeLogData node_env h (VSet elements []) = Return (VObject []).
Proof.
  unfold sanitizeLogData.
  rewrite !(sanitizeObject_entries node_env h _ entries) by reflexivity.
  rewrite !(sanitizeObject_entries node_env h _ []) by reflexivity.
  repeat split.
Qed.

(* ------------------------------------------------------------------ *)
(** ** The walk on its own results *)

(** *** Property order *)

Lemma key_before_asym k k' : key_before k k' = true -> key_before k' k = false.
Proof.
  unfold key_before.
  destruct (array_index k) as [i|], (array_index k') as [j|]; try discriminate; auto.
  rewrite !N.ltb_lt, N.ltb_ge. lia.
Qed.

Lemma key_before_trans k k0 k' :
  key_before k k0 = true -> key_before k' k0 = false -> key_before k' k = false.
Proof.
  unfold key_before.
  destruct (array_index k) as [i|], (array_index k0) as [j|],
    (array_index k') as [i'|]; try discriminate; auto.
  rewrite N.ltb_lt, !N.ltb_ge. lia.
Qed.

Lemma has_key_false k o : has_key k o = false <-> Forall (fun k' => k' <> k) (keys o).
Proof.
  unfold has_key, keys. induction o as [|[k0 v0] o IH]; cbn [existsb map fst].
  - split; [constructor | reflexivity].
  - rewrite orb_false_iff, IH. split.
    + intros [H1 H2]. constructor; [|assumption].
      intros ->. rewrite str_eqb_refl in H1. discriminate.
    + intros H. inversion H; subst. split; [|assumption].
      destruct (str_eqb k k0) eqn:E; [|reflexivity].
      apply str_eqb_eq in E. congruence.
Qed.

Lemma keys_update_prop k v o : keys (update_prop k v o) = keys o.
Proof.
  unfold keys. induction o as [|[k0 v0] o IH]; cbn [update_prop map fst]; [reflexivity|].
  destruct (str_eqb k k0); cbn [map fst]; [reflexivity | now rewrite IH].
Qed.

Lemma Forall_keys_insert_prop (P : str -> Prop) k v o :
  P k -> Forall P (keys o) -> Forall P (keys (insert_prop k v o)).
Proof.
  unfold keys. intros Hk. induction o as [|[k0 v0] o IH]; cbn [insert_prop map fst]; intros H.
  - constructor; [assumption | constructor].
  - destruct (key_before k k0); cbn [map fst].
    + constructor; assumption.
    + inversion H; subst. constructor; auto.
Qed.

Lemma wf_insert_prop k v o :
  Forall (fun k' => k' <> k) (keys o) -> wf_keys (keys o) -> wf_keys (keys (insert_prop k v o)).
Proof.
  unfold keys. induction o as [|[k0 v0] o IH]; cbn [insert_prop map fst wf_keys]; intros Hne Hwf.
  - split; constructor.
  - destruct Hwf as [H0 Hwf]. inversion Hne as [|? ? Hk0 Hne']; subst.
    destruct (key_before k k0) eqn:Hb; cbn [map fst wf_keys].
    + split; [|split; assumption].
      constructor.
      * split; [assumption | now apply key_before_asym].
      * rewrite Forall_forall in *. intros k' Hin. split.
        -- now apply Hne'.
        -- destruct (H0 k' Hin) as [_ Hb']. eapply key_before_trans; eauto.
    + split; [|now apply IH].
      apply (Forall_keys_insert_prop (fun k' => k' <> k0 /\ key_before k' k0 = false)); auto.
Qed.

Lemma wf_set_prop k v o : wf_keys (keys o) -> wf_keys (keys (set_prop k v o)).
Proof.
  intros Hwf. unfold set_prop. destruct (has_key k o) eqn:Hk.
  - now rewrite keys_update_prop.
  - apply wf_insert_prop; [now apply has_key_false | assumption].
Qed.

Lemma insert_prop_last k v o :
  Forall (fun k0 => key_before k k0 = false) (keys o) -> insert_prop k v o = o ++ [(k, v)].
Proof.
  unfold keys. induction o as [|[k0 v0] o IH]; cbn [insert_prop map fst app]; intros H.
  - reflexivity.
  - inversion H; subst. rewrite H2. now rewrite IH.
Qed.

Lemma wf_keys_app_inv l1 k l2 :
  wf_keys (l1 ++ k :: l2) ->
  Forall (fun k0 => k <> k0 /\ key_before k k0 = false) l1.
Proof.
  induction l1 as [|k1 l1 IH]; cbn [app wf_keys]; intros H.
  - constructor.
  - destruct H as [H1 H2]. constructor; [|auto].
    apply Forall_app in H1. destruct H1 as [_ H1]. inversion H1; subst.
    destruct H3 as [Hne Hb]. split; [congruence | assumption].
Qed.

Lemma rebuild_wf es acc :
  wf_keys (keys (acc ++ es)) ->
  fold_left (fun a kv => set_prop (fst kv) (snd kv) a) es acc = acc ++ es.
Proof.
  revert acc. induction es as [|[k v] es IH]; intros acc Hwf; cbn [fold_left fst snd].
  - now rewrite app_nil_r.
  - unfold keys in Hwf. rewrite map_app in Hwf. cbn [map fst] in Hwf.
    pose proof (wf_keys_app_inv _ _ _ Hwf) as Hk.
    assert (Hset : set_prop k v acc = acc ++ [(k, v)]).
    { unfold set_prop.
      replace (has_key k acc) with false.
      - apply insert_prop_last. eapply Forall_impl; [exact Hk|]. now intros ? [_ ?].
      - symmetry. apply has_key_false. eapply Forall_impl; [exact Hk|].
        intros a [Hne _]. congruence. }
    rewrite Hset, IH.
    + now rewrite <- app_assoc.
    + unfold keys. rewrite <- app_assoc. cbn [app]. rewrite map_app. exact Hwf.
Qed.

(** *** The shape of what the walk returns *)

Lemma deref_not_ref h v l : deref h v <> VRef l.
Proof.
  destruct v; cbn [deref]; try discriminate.
  destruct (h !! l0) as [[]|]; discriminate.
Qed.

Lemma array_map_Return {A B} (f : A -> outcome B) l l' :
  array_map f l = Return l' -> Forall2 (fun x y => f x = Return y) l l'.
Proof.
  revert l'. induction l as [|x l IH]; intros l'; cbn [array_map]; unfold bind.
  - intros H. injection H as <-. constructor.
  - destruct (f x) as [y|e] eqn:Hx; [|discriminate].
    destruct (array_map f l) as [ys|e]; [|discriminate].
    intros H. injection H as <-. constructor; auto.
Qed.


Lemma Forall_update_prop (P : str * value -> Prop) k v o :
  (forall k0, P (k0, v)) -> Forall P o -> Forall P (update_prop k v o).
Proof.
  intros Hv. induction o as [|[k0 v0] o IH]; cbn [update_prop]; intros H.
  - constructor.
  - inversion H; subst. destruct (str_eqb k k0); constructor; auto.
Qed.

Lemma Forall_insert_prop (P : str * value -> Prop) k v o :
  P (k, v) -> Forall P o -> Forall P (insert_prop k v o).
Proof.
  intros Hv. induction o as [|[k0 v0] o IH]; cbn [insert_prop]; intros H.
  - constructor; [assumption|constructor].
  - destruct (key_before k k0).
    + constructor; assumption.
    + inversion H; subst. constructor; auto.
Qed.

Lemma Forall_set_prop (P : value -> Prop) k v o :
  P v -> Forall (fun kv => P (snd kv)) o -> Forall (fun kv => P (snd kv)) (set_prop k v o).
Proof.
  intros Hv Ho. unfold set_prop. destruct (has_key k o).
  - apply Forall_update_prop; auto.
  - apply Forall_insert_prop; auto.
Qed.


Lemma wf_assign_prop k v o : wf_keys (keys o) -> wf_keys (keys (assign_prop k v o)).
Proof.
  intros Hwf. unfold assign_prop.
  destruct (str_eqb k (js "__proto__")); [assumption | now apply wf_set_prop].
Qed.

Lemma Forall_entries_update_prop (Q : str * value -> Prop) k v o :
  Q (k, v) -> Forall Q o -> Forall Q (update_prop k v o).
Proof.
  intros Hv. induction o as [|[k0 v0] o IH]; cbn [update_prop]; intros H.
  - constructor.
  - inversion H; subst. destruct (str_eqb k k0) eqn:E.
    + apply str_eqb_eq in E. subst k0. constructor; assumption.
    + constructor; auto.
Qed.

Lemma Forall_entries_set_prop (Q : str * value -> Prop) k v o :
  Q (k, v) -> Forall Q o -> Forall Q (set_prop k v o).
Proof.
  intros Hv Ho. unfold set_prop. destruct (has_key k o).
  - apply Forall_entries_update_prop; auto.
  - apply Forall_insert_prop; auto.
Qed.

Lemma Forall_entries_assign_prop (Q : str * value -> Prop) k v o :
  (k <> js "__proto__" -> Q (k, v)) -> Forall Q o -> Forall Q (assign_prop k v o).
Proof.
  intros Hv Ho. unfold assign_prop.
  destruct (str_eqb k (js "__proto__")) eqn:E; [assumption|].
  apply Forall_entries_set_prop; [|assumption].
  apply Hv. intros ->. discriminate.
Qed.


(** What the loop builds has the keys of an ordinary object, none of
    them [__proto__], and the values the walk or the handler gave. *)
Lemma sanitize_entries_inv_keys h walk es (P : value -> Prop) :
  Forall (fun kv => is_function h (snd kv) = false ->
                    match walk (snd kv) with
                    | Return v => P v
                    | Throw _ => P (VStr CIRCULAR_REFERENCE)
                    end) es ->
  wf_keys (keys (sanitize_entries h walk es)) /\
  Forall (fun kv => fst kv <> js "__proto__" /\ P (snd kv)) (sanitize_entries h walk es).
Proof.
  unfold sanitize_entries.
  assert (Hacc : wf_keys (keys []) /\
                 Forall (fun kv : str * value => fst kv <> js "__proto__" /\ P (snd kv)) [])
    by (split; constructor).
  revert Hacc. generalize (@nil (str * value)) as acc.
  induction es as [|[k v] es IH]; intros acc [Hwf Hall] Hes; cbn [fold_left fst snd].
  - split; assumption.
  - inversion Hes as [|? ? Hkv Hes']; subst. cbn [snd] in Hkv.
    apply IH; [|assumption].
    destruct (is_function h v); [split; assumption|].
    specialize (Hkv eq_refl).
    destruct (walk v) as [v'|e];
      (split; [now apply wf_assign_prop
              | apply Forall_entries_assign_prop; [intros Hk; split; assumption | assumption]]).
Qed.

Lemma sanitize_entries_inv h walk es (P : value -> Prop) :
  Forall (fun kv => is_function h (snd kv) = false ->
                    match walk (snd kv) with
                    | Return v => P v
                    | Throw _ => P (VStr CIRCULAR_REFERENCE)
                    end) es ->
  wf_keys (keys (sanitize_entries h walk es)) /\
  Forall (fun kv => P (snd kv)) (sanitize_entries h walk es).
Proof.
  intros H. destruct (sanitize_entries_inv_keys h walk es P H) as [Hwf Hall].
  split; [assumption|]. eapply Forall_impl; [exact Hall|]. now intros kv [_ ?].
Qed.

Lemma wf_assign_props src : forall o,
  wf_keys (keys o) -> wf_keys (keys (assign_props o src)).
Proof.
  unfold assign_props.
  induction src as [|[k v] src IH]; intros o Hwf; cbn [fold_left fst snd].
  - assumption.
  - apply IH. now apply wf_set_prop.
Qed.

Section Idempotence.
Variable node_env : option str.











End Idempotence.


Lemma Return_inj {A} (a b : A) : Return a = Return b -> a = b.
Proof. intros H. injection H as H. exact H. Qed.


(** The strings decide for an Error too: its [name] is copied by the
    first pass and redacted by the second, so a name the redactor
    changes is a string of the result that is not stable. *)
Example error_name_redacted_on_second_pass :
  let v := VError (js "Bearer abc123") (js "boom") None [] in
  exists once twice,
    sanitizeLogData None ∅ v = Return once /\
    sanitizeLogData None ∅ once = Return twice /\
    strings_fixed once = false /\
    once = VObject [ (js "name", VStr (js "Bearer abc123"));
                     (js "message", VStr (js "boom"));
                     (js "stack", VUndefined) ] /\
    twice = VObject [ (js "name", VStr (js "Bearer [REDACTED]"));
                      (js "message", VStr (js "boom"));
                      (js "stack", VUndefined) ].
Proof.
  eexists _, _. split; [vm_compute; reflexivity|].
  split; [vm_compute; reflexivity|].
  split; vm_compute; [reflexivity|]. split; reflexivity.
Qed.

(** The depth decides as well, in one place.  An Error met with a single
    level left (here under nine arrays) spreads the depth sentinel into
    its record, one property for each character; the second pass finds a
    plain object there and puts the sentinel in place of every
    property.  Every string of the first result is stable. *)
Example error_at_last_level_is_rewritten :
  let v := nest_array 9 (VError (js "TypeError") (js "boom") None []) in
  exists once twice r r',
    sanitizeLogData None ∅ v = Return once /\
    strings_fixed once = true /\
    sanitizeLogData None ∅ once = Return twice /\
    once = nest_array 9 (VObject r) /\
    twice = nest_array 9 (VObject r') /\
    get_prop (js "name") r = VStr (js "TypeError") /\
    get_prop (js "0") r = VStr (js "[") /\
    get_prop (js "name") r' = VStr MAX_DEPTH_REACHED /\
    get_prop (js "0") r' = VStr MAX_DEPTH_REACHED /\
    errors_above_last_level ∅ v 10 = false.
Proof.
  eexists _, _, _, _. split; [vm_compute; reflexivity|].
  split; [vm_compute; reflexivity|].
  split; [vm_compute; reflexivity|].
  split; [vm_compute; reflexivity|].
  split; [vm_compute; reflexivity|].
  repeat split; vm_compute; reflexivity.
Qed.



(* ------------------------------------------------------------------ *)
(** ** What a computation may write *)

Lemma silent_out {A} (m : js_comp A) w : silent m -> w_out (snd (m w)) = w_out w.
Proof.
  intros H. destruct (H w) as [evs [Hout Hall]].
  destruct evs as [|e evs].
  - now rewrite app_nil_r in Hout.
  - inversion Hall; contradiction.
Qed.

Lemma emits_only_weaken {A} (P Q : event -> Prop) (m : js_comp A) :
  (forall e, P e -> Q e) -> emits_only P m -> emits_only Q m.
Proof.
  intros HPQ H w. destruct (H w) as [evs [Hout Hall]].
  exists evs. split; [exact Hout|]. eapply Forall_impl; eauto.
Qed.

Lemma silent_emits_only {A} (P : event -> Prop) (m : js_comp A) :
  silent m -> emits_only P m.
Proof. apply emits_only_weaken. contradiction. Qed.

Lemma emits_only_ret {A} P (a : A) : emits_only P (ret a).
Proof. intros w. exists []. split; [symmetry; apply app_nil_r | constructor]. Qed.

Lemma emits_only_lift {A} P (o : outcome A) : emits_only P (lift o).
Proof. intros w. exists []. split; [symmetry; apply app_nil_r | constructor]. Qed.

Lemma emits_only_get_heap P : emits_only P get_heap.
Proof. intros w. exists []. split; [symmetry; apply app_nil_r | constructor]. Qed.

Lemma emits_only_alloc P v : emits_only P (alloc v).
Proof. intros w. exists []. split; [symmetry; apply app_nil_r | constructor]. Qed.

Lemma emits_only_heap_set_prop P l k v : emits_only P (heap_set_prop l k v).
Proof. intros w. exists []. split; [symmetry; apply app_nil_r | constructor]. Qed.

Lemma emits_only_read_clock P rt : emits_only P (read_clock rt).
Proof. intros w. exists []. split; [symmetry; apply app_nil_r | constructor]. Qed.

Lemma emits_only_emit (P : event -> Prop) e : P e -> emits_only P (emit e).
Proof. intros He w. exists [e]. split; [reflexivity | repeat constructor; exact He]. Qed.

Lemma emits_only_seq {A B} P (m : js_comp A) (f : A -> js_comp B) :
  emits_only P m -> (forall a, emits_only P (f a)) -> emits_only P (seq m f).
Proof.
  intros Hm Hf w. unfold seq.
  destruct (Hm w) as [evs1 [Hout1 Hall1]].
  destruct (m w) as [[a|e] w1]; cbn [snd] in *.
  - destruct (Hf a w1) as [evs2 [Hout2 Hall2]].
    exists (evs1 ++ evs2). split.
    + rewrite Hout2, Hout1. symmetry. apply app_assoc.
    + apply Forall_app. split; assumption.
  - exists evs1. split; assumption.
Qed.

Create HintDb emits.

#[local] Hint Resolve emits_only_ret emits_only_lift emits_only_get_heap
  emits_only_alloc emits_only_heap_set_prop emits_only_read_clock : emits.

Ltac emits :=
  repeat first
    [ apply emits_only_seq; [| intros ?]
    | progress eauto 2 with emits
    | match goal with
      | |- emits_only _ (if ?b then _ else _) => destruct b
      | |- emits_only _ (match ?x with _ => _ end) => destruct x
      end ].

(* ------------------------------------------------------------------ *)
(** ** The structured logger *)

Section StructuredFacts.
Variable rt : runtime.

(** Formatting a record writes nothing. *)
Lemma formatLogData_silent l message context args :
  silent (Structured.formatLogData rt l message context args).
Proof. unfold silent, Structured.formatLogData. emits. Qed.

Lemma pino_write_emits lg lv record :
  emits_only (fun e => backend_of_event e = StructuredBackend) (Pino.write lg lv record).
Proof.
  unfold Pino.write. destruct (Pino.enabled lg lv).
  - apply emits_only_emit. reflexivity.
  - apply emits_only_ret.
Qed.

Lemma pino_write_silent lg lv record :
  Pino.level lg = Pino.Silent -> silent (Pino.write lg lv record).
Proof.
  intros H. unfold Pino.write, Pino.enabled. rewrite H. apply emits_only_ret.
Qed.

(** Every call on a StructuredLogger writes to the structured stream
    only. *)
Lemma log_at_emits lv l m ctx a :
  emits_only (fun e => backend_of_event e = StructuredBackend)
    (Structured.log_at rt lv l m ctx a).
Proof.
  unfold Structured.log_at.
  apply emits_only_seq;
    [apply silent_emits_only, formatLogData_silent | intros logData].
  apply pino_write_emits.
Qed.

Lemma scall_emits l c :
  emits_only (fun e => backend_of_event e = StructuredBackend) (do_scall rt l c).
Proof.
  destruct c as [lv m ctx a | lv m ctx a]; cbn [do_scall].
  - apply log_at_emits.
  - unfold Structured.logWithLevel.
    apply emits_only_seq;
      [apply silent_emits_only, formatLogData_silent | intros logData].
    repeat match goal with
           | |- emits_only _ (if ?b then _ else _) => destruct b
           end; apply pino_write_emits.
Qed.

(** With pino at [silent], no call writes anything. *)
Lemma scall_silent l c :
  Pino.level (Structured.pino l) = Pino.Silent -> silent (do_scall rt l c).
Proof.
  intros Hs.
  destruct c as [lv m ctx a | lv m ctx a]; cbn [do_scall];
    unfold Structured.log_at, Structured.logWithLevel;
    (apply emits_only_seq; [apply formatLogData_silent | intros logData]).
  - now apply pino_write_silent.
  - repeat match goal with
           | |- emits_only _ (if ?b then _ else _) => destruct b
           end; now apply pino_write_silent.
Qed.

Lemma new_silent module ctx : silent (Structured.new rt module ctx).
Proof. unfold silent, Structured.new. emits. Qed.

Lemma child_silent l ctx : silent (Structured.child rt l ctx).
Proof. unfold silent, Structured.child. emits; apply new_silent. Qed.

(** Instances get their pino level from [getLoggerConfig], children
    from their parent. *)
Lemma new_level module ctx w l w1 :
  Structured.new rt module ctx w = (Return l, w1) ->
  Pino.level (Structured.pino l) = Structured.getLoggerConfig rt.
Proof.
  unfold Structured.new, seq, alloc, ret. intros H. inversion H. reflexivity.
Qed.

Lemma child_level parent ctx w l w1 :
  Structured.child rt parent ctx w = (Return l, w1) ->
  Pino.level (Structured.pino l) = Pino.level (Structured.pino parent).
Proof.
  unfold Structured.child, seq, get_heap, lift. cbv beta iota.
  destruct (spread (w_heap w) ctx) as [own|e]; [|discriminate].
  match goal with
  | |- context [Structured.new ?r ?m ?c ?w0] =>
      destruct (Structured.new r m c w0) as [[c0|e] w2]
  end; [|discriminate].
  unfold lift. cbv beta iota.
  match goal with
  | |- context [sanitizeLogData ?ne ?hp ?v] =>
      destruct (sanitizeLogData ne hp v) as [b|err]
  end; [|discriminate].
  unfold ret. intros H. injection H as H1 H2. subst l. reflexivity.
Qed.

End StructuredFacts.

Lemma pino_write_heap lg lv record w :
  w_heap (snd (Pino.write lg lv record w)) = w_heap w.
Proof. unfold Pino.write. destruct (Pino.enabled lg lv); reflexivity. Qed.

(** C6. The default context is mutated in place.  Without a call
    context, [formatLogData] works on the instance's own default context
    object, and the extra arguments are stored into it: after one
    [info(message, undefined, 'x')] on a new logger for module ['M'], its
    default context has gained [additionalData]. *)
Theorem default_context_mutated_in_place (rt : runtime) :
  let w0 := World ∅ 0 0 [] in
  exists l w1,
    Structured.new rt (js "M") [] w0 = (Return l, w1) /\
    default_context_of l w1 = [(js "module", VStr (js "M"))] /\
    default_context_of l
      (snd (Structured.info rt l (js "first") VUndefined [VStr (js "x")] w1))
      = [(js "module", VStr (js "M"));
         (js "additionalData", VArray [VStr (js "x")])].
Proof.
  intros w0. eexists _, _. split; [reflexivity|]. split.
  - vm_compute; reflexivity.
  - unfold default_context_of, Structured.info, Structured.log_at, seq.
    match goal with
    | |- context [Structured.formatLogData ?a ?b ?c ?d ?e ?f] =>
        destruct (Structured.formatLogData a b c d e f) as [[v|err] w2] eqn:Hfmt
    end.
    + rewrite pino_write_heap.
      vm_compute in Hfmt.
      injection Hfmt as _ Hw. subst w2. vm_compute; reflexivity.
    + vm_compute in Hfmt. discriminate.
Qed.

(** With a call context the merge is a new object, and the default
    context stays as it was. *)
Example default_context_kept_with_call_context (rt : runtime) :
  let w0 := World ∅ 0 0 [] in
  exists l w1,
    Structured.new rt (js "M") [] w0 = (Return l, w1) /\
    default_context_of l
      (snd (Structured.info rt l (js "first") (VObject []) [VStr (js "x")] w1))
      = [(js "module", VStr (js "M"))].
Proof.
  intros w0. eexists _, _. split; [reflexivity|].
  unfold default_context_of, Structured.info, Structured.log_at, seq.
  match goal with
  | |- context [Structured.formatLogData ?a ?b ?c ?d ?e ?f] =>
      destruct (Structured.formatLogData a b c d e f) as [[v|err] w2] eqn:Hfmt
  end.
  - rewrite pino_write_heap.
    vm_compute in Hfmt.
    injection Hfmt as _ Hw. subst w2. vm_compute; reflexivity.
  - vm_compute in Hfmt. discriminate.
Qed.

(* ------------------------------------------------------------------ *)
(** ** The façade *)

Section FacadeFacts.
Variable rt : runtime.

Lemma log_emits l level message args :
  emits_only (fun e => backend_of_event e = ConsoleBackend)
    (Console.log rt l level message args).
Proof.
  unfold Console.log.
  destruct (negb (Console.shouldLog rt level)); [apply emits_only_ret|].
  apply emits_only_seq; [apply emits_only_read_clock | intros timestamp].
  apply emits_only_seq; [apply emits_only_get_heap | intros h].
  destruct level; apply emits_only_emit; reflexivity.
Qed.

(** Every call goes to the backend the instance holds. *)
Lemma call_emits l c :
  emits_only (fun e => backend_of_event e = backend_of l) (do_call rt l c).
Proof.
  unfold backend_of.
  destruct c as [lv m a].
  destruct (Console.structuredLogger l) as [sl|] eqn:Hsl.
  - destruct lv; cbn [do_call];
      unfold Console.debug, Console.info, Console.warn, Console.error;
      rewrite Hsl;
      unfold Structured.debug, Structured.info, Structured.warn, Structured.error;
      apply log_at_emits.
  - destruct lv; cbn [do_call];
      unfold Console.debug, Console.info, Console.warn, Console.error;
      rewrite Hsl; apply log_emits.
Qed.

Lemma run_calls_emits l calls w :
  exists evs, w_out (run_calls rt l calls w) = w_out w ++ evs /\
              Forall (fun e => backend_of_event e = backend_of l) evs.
Proof.
  revert w. induction calls as [|c calls IH]; intros w; cbn [run_calls].
  - exists []. split; [symmetry; apply app_nil_r | constructor].
  - destruct (call_emits l c w) as [evs1 [H1 A1]].
    destruct (IH (snd (do_call rt l c w))) as [evs2 [H2 A2]].
    exists (evs1 ++ evs2). split.
    + rewrite H2, H1. symmetry. apply app_assoc.
    + apply Forall_app. split; assumption.
Qed.

Lemma useStructured_iff_production :
  Console.useStructured (Console.config rt) = true <->
  Console.ENV rt = js "production".
Proof.
  unfold Console.config, Console.LOG_CONFIG. cbn [Console.lookup_config].
  destruct (str_eqb (Console.ENV rt) (js "development")) eqn:Hd;
    [|destruct (str_eqb (Console.ENV rt) (js "production")) eqn:Hp;
      [|destruct (str_eqb (Console.ENV rt) (js "test")) eqn:Ht;
        [|destruct (existsb (str_eqb (Console.ENV rt)) Console.OBJECT_PROTOTYPE_KEYS)]]];
    cbn [Console.useStructured Console.inherited_member]; split; intros H;
    try discriminate;
    try reflexivity.
  - rewrite H in Hd. vm_compute in Hd. discriminate.
  - now apply str_eqb_eq.
  - rewrite H in Hp. vm_compute in Hp. discriminate.
  - rewrite H in Hp. vm_compute in Hp. discriminate.
  - rewrite H in Hp. vm_compute in Hp. discriminate.
Qed.

Lemma new_backend module w l w1 :
  Console.new rt module w = (Return l, w1) ->
  Console.structuredLogger l <> None <->
  Console.isServerSide rt = true /\ Console.useStructured (Console.config rt) = true.
Proof.
  unfold Console.new. rewrite <- andb_true_iff.
  destruct (Console.isServerSide rt && Console.useStructured (Console.config rt)).
  - unfold seq, Structured.createStructuredLogger, Structured.new, alloc, ret.
    cbv beta iota. intros H. injection H as H _. subst l.
    cbn [Console.structuredLogger]. split; [reflexivity | discriminate].
  - unfold ret. intros H. injection H as H _. subst l.
    cbn [Console.structuredLogger]. split; [congruence | discriminate].
Qed.

End FacadeFacts.

(** C7. A Logger gets the structured backend exactly when it is built on
    the server side under a configuration with [useStructured], which is
    the production one; and whatever calls follow, each of them writes to
    the backend chosen at construction only. *)
Theorem backend_chosen_at_construction (rt : runtime) (module : str)
  (w : world) (l : Console.Logger) (w1 : world) :
  Console.new rt module w = (Return l, w1) ->
  (backend_of l = StructuredBackend <->
     window_defined rt = false /\
     Console.useStructured (Console.config rt) = true) /\
  (Console.useStructured (Console.config rt) = true <->
     Console.ENV rt = js "production") /\
  (forall calls w2, exists evs,
      w_out (run_calls rt l calls w2) = w_out w2 ++ evs /\
      Forall (fun e => backend_of_event e = backend_of l) evs).
Proof.
  intros Hnew. split; [|split].
  - pose proof (new_backend rt module w l w1 Hnew) as Hb.
    unfold Console.isServerSide in Hb. rewrite negb_true_iff in Hb.
    rewrite <- Hb. unfold backend_of.
    destruct (Console.structuredLogger l); split; congruence.
  - apply useStructured_iff_production.
  - intros calls w2. apply run_calls_emits.
Qed.

Lemma backend_chosen_at_construction_witness :
  exists l w1,
    Console.new production_server (js "M") (World ∅ 0 0 []) = (Return l, w1) /\
    (backend_of l = StructuredBackend <->
       window_defined production_server = false /\
       Console.useStructured (Console.config production_server) = true).
Proof.
  eexists _, _. split; [reflexivity|].
  eapply (backend_chosen_at_construction production_server (js "M")
            (World ∅ 0 0 [])).
  reflexivity.
Defined.

(* ------------------------------------------------------------------ *)
(** ** The test environment *)

Section TestEnvironment.
Variable rt : runtime.
Hypothesis Htest : env_NODE_ENV rt = Some (js "test").

Lemma test_ENV : Console.ENV rt = js "test".
Proof using Htest. unfold Console.ENV. rewrite Htest. reflexivity. Qed.

Lemma test_config : Console.config rt = Console.LogConfig false Console.ERROR false false.
Proof using Htest. unfold Console.config. rewrite test_ENV. reflexivity. Qed.

Lemma test_shouldLog level : Console.shouldLog rt level = false.
Proof using Htest.
  unfold Console.shouldLog, Console.shouldLogInEnvironment.
  rewrite test_ENV, test_config. reflexivity.
Qed.

Lemma test_pino_level : Structured.getLoggerConfig rt = Pino.Silent.
Proof using Htest. unfold Structured.getLoggerConfig, env_is. rewrite Htest. reflexivity. Qed.

Lemma test_new module w :
  Console.new rt module w = (Return (Console.Build module None), w).
Proof using Htest.
  unfold Console.new. rewrite test_config. cbn [Console.useStructured].
  rewrite andb_false_r. reflexivity.
Qed.

Lemma test_call module c w : do_call rt (Console.Build module None) c w = (Return tt, w).
Proof using Htest.
  destruct c as [[] m a]; cbn [do_call];
    unfold Console.debug, Console.info, Console.warn, Console.error;
    cbn [Console.structuredLogger]; unfold Console.log;
    rewrite test_shouldLog; reflexivity.
Qed.

Lemma test_run_calls module calls w : run_calls rt (Console.Build module None) calls w = w.
Proof using Htest.
  revert w. induction calls as [|c calls IH]; intros w; cbn [run_calls].
  - reflexivity.
  - rewrite test_call. cbn [snd]. apply IH.
Qed.

Lemma silent_run_scalls l scalls w :
  Pino.level (Structured.pino l) = Pino.Silent ->
  w_out (run_scalls rt l scalls w) = w_out w.
Proof.
  intros Hs. revert w. induction scalls as [|c scalls IH]; intros w; cbn [run_scalls].
  - reflexivity.
  - rewrite IH. apply silent_out. now apply scall_silent.
Qed.

End TestEnvironment.

(** C8. Under [NODE_ENV = test] nothing is written.  A Logger has no
    structured backend and every call on it leaves the world as it was;
    a StructuredLogger, built directly or as a child, sits on a pino at
    level [silent], and no call of any level writes a record. *)
Theorem test_environment_writes_nothing (rt : runtime) :
  env_NODE_ENV rt = Some (js "test") ->
  (forall module w l w1 calls,
      Console.new rt module w = (Return l, w1) ->
      Console.structuredLogger l = None /\ run_calls rt l calls w1 = w) /\
  (forall module ctx w l w1 scalls,
      Structured.new rt module ctx w = (Return l, w1) ->
      w_out (run_scalls rt l scalls w1) = w_out w) /\
  (forall parent ctx w l w1 scalls,
      Pino.level (Structured.pino parent) = Pino.Silent ->
      Structured.child rt parent ctx w = (Return l, w1) ->
      w_out (run_scalls rt l scalls w1) = w_out w).
Proof.
  intros Htest. split; [|split].
  - intros module w l w1 calls Hnew.
    rewrite (test_new rt Htest) in Hnew. injection Hnew as Hl Hw. subst l w1.
    split; [reflexivity|]. now apply test_run_calls.
  - intros module ctx w l w1 scalls Hnew.
    rewrite silent_run_scalls.
    + pose proof (silent_out _ w (new_silent rt module ctx)) as Hs.
      rewrite Hnew in Hs. exact Hs.
    + rewrite (new_level rt _ _ _ _ _ Hnew). now apply test_pino_level.
  - intros parent ctx w l w1 scalls Hp Hchild.
    rewrite silent_run_scalls.
    + pose proof (silent_out _ w (child_silent rt parent ctx)) as Hs.
      rewrite Hchild in Hs. exact Hs.
    + rewrite (child_level rt _ _ _ _ _ Hchild). exact Hp.
Qed.

Lemma test_environment_writes_nothing_witness :
  env_NODE_ENV test_server = Some (js "test") /\
  w_out (run_calls test_server (Console.Build (js "M") None)
           [Call Console.ERROR (js "boom") [VStr (js "Bearer abc123")]]
           (World ∅ 0 0 [])) = [].
Proof.
  split; [reflexivity|].
  destruct (test_environment_writes_nothing test_server eq_refl) as [H _].
  destruct (H (js "M") (World ∅ 0 0 []) (Console.Build (js "M") None)
              (World ∅ 0 0 [])
              [Call Console.ERROR (js "boom") [VStr (js "Bearer abc123")]]
              eq_refl) as [_ Hrun].
  rewrite Hrun. reflexivity.
Defined.

(* ------------------------------------------------------------------ *)
(** ** The console path and the sanitizer *)

(** C1. The console backend does not sanitize.  In development a
    bearer token passed as an extra argument to [info] reaches
    [console.log] as it is, while [sanitizeLogData] would have masked
    it. *)
Theorem console_backend_skips_sanitizer
  (penv : option str) (win : bool) (clk : nat -> str)
  (ch : chalk_color -> str -> str)
  (sj : heap -> value -> nat -> outcome value) :
  let rt := Runtime (Some (js "development")) penv win clk ch sj in
  let w0 := World ∅ 0 0 [] in
  let secret := VStr (js "Bearer abc123") in
  let l := Console.Build (js "M") None in
  Console.createLogger rt (js "M") w0 = (Return l, w0) /\
  w_out (snd (Console.info rt l (js "hello") [secret] w0))
    = [ConsoleLog
         [VStr (ch Gray (js "[" ++ clk 0%nat ++ js "]") ++ js " " ++
                ch Green (js "[INFO]") ++ js " " ++ ch Cyan (js "[M]"));
          VStr (js "hello"); secret]] /\
  sanitizeLogData penv ∅ secret = Return (VStr (js "Bearer [REDACTED]")).
Proof.
  intros rt w0 secret l. split; [|split].
  - unfold Console.createLogger, Console.new.
    replace (Console.useStructured (Console.config rt)) with false by reflexivity.
    rewrite andb_false_r. reflexivity.
  - vm_compute. reflexivity.
  - vm_compute. reflexivity.
Qed.

(** The structured path, on the same call in production on the server,
    does mask the token. *)
Example structured_backend_sanitizes :
  let rt := production_server in
  let w0 := World ∅ 0 0 [] in
  exists l w1,
    Console.createLogger rt (js "M") w0 = (Return l, w1) /\
    w_out (snd (Console.info rt l (js "hello") [VStr (js "Bearer abc123")] w1))
      = [PinoWrite PInfo []
           (VObject [ (js "msg", VStr (js "hello"));
                      (js "module", VStr (js "M"));
                      (js "additionalData",
                       VArray [VStr (js "Bearer [REDACTED]")]) ])].
Proof.
  eexists _, _. split; [vm_compute; reflexivity|]. vm_compute. reflexivity.
Qed.

(** A StructuredLogger used directly, without a call context, writes its
    default context as it was given: only a call context brings the
    sanitizer in. *)
Example default_context_written_unsanitized :
  let rt := production_server in
  let w0 := World ∅ 0 0 [] in
  exists l w1,
    Structured.new rt (js "M") [(js "auth", VStr (js "Bearer abc123"))] w0
      = (Return l, w1) /\
    w_out (snd (Structured.info rt l (js "hello") VUndefined [] w1))
      = [PinoWrite PInfo []
           (VObject [ (js "msg", VStr (js "hello"));
                      (js "module", VStr (js "M"));
                      (js "auth", VStr (js "Bearer abc123")) ])].
Proof.
  eexists _, _. split; [vm_compute; reflexivity|]. vm_compute. reflexivity.
Qed.

(* ================================================================== *)
(** * Part III — further properties of the code                       *)
(* ================================================================== *)

(* ------------------------------------------------------------------ *)
(** ** Reading and writing own properties *)

Lemma str_eqb_neq a b : a <> b -> str_eqb a b = false.
Proof.
  intros H. destruct (str_eqb a b) eqn:E; [|reflexivity].
  apply str_eqb_eq in E. contradiction.
Qed.

Lemma get_prop_cons k k0 v0 o :
  get_prop k ((k0, v0) :: o) = if str_eqb k k0 then v0 else get_prop k o.
Proof. unfold get_prop. cbn [find fst]. destruct (str_eqb k k0); reflexivity. Qed.

Lemma get_prop_absent k o : has_key k o = false -> get_prop k o = VUndefined.
Proof.
  unfold has_key. induction o as [|[k0 v0] o IH]; cbn [existsb fst]; [reflexivity|].
  rewrite orb_false_iff. intros [H1 H2]. rewrite get_prop_cons, H1. auto.
Qed.

Lemma get_update_prop_eq k v o : has_key k o = true -> get_prop k (update_prop k v o) = v.
Proof.
  unfold has_key. induction o as [|[k0 v0] o IH]; cbn [existsb fst update_prop]; [discriminate|].
  destruct (str_eqb k k0) eqn:E; cbn [orb]; intros H.
  - rewrite get_prop_cons. apply str_eqb_eq in E. subst. now rewrite str_eqb_refl.
  - rewrite get_prop_cons, E. auto.
Qed.

Lemma get_update_prop_ne k k' v o : k <> k' -> get_prop k (update_prop k' v o) = get_prop k o.
Proof.
  intros Hne. induction o as [|[k0 v0] o IH]; cbn [update_prop]; [reflexivity|].
  destruct (str_eqb k' k0) eqn:E.
  - apply str_eqb_eq in E. subst k0. rewrite !get_prop_cons.
    now rewrite (str_eqb_neq _ _ Hne).
  - rewrite !get_prop_cons, IH. reflexivity.
Qed.

Lemma get_insert_prop_eq k v o : has_key k o = false -> get_prop k (insert_prop k v o) = v.
Proof.
  unfold has_key. induction o as [|[k0 v0] o IH]; cbn [existsb fst insert_prop]; intros H.
  - now rewrite get_prop_cons, str_eqb_refl.
  - apply orb_false_iff in H. destruct H as [H1 H2].
    destruct (key_before k k0).
    + now rewrite get_prop_cons, str_eqb_refl.
    + rewrite get_prop_cons, H1. auto.
Qed.

Lemma get_insert_prop_ne k k' v o : k <> k' -> get_prop k (insert_prop k' v o) = get_prop k o.
Proof.
  intros Hne. induction o as [|[k0 v0] o IH]; cbn [insert_prop].
  - rewrite get_prop_cons. now rewrite (str_eqb_neq _ _ Hne).
  - destruct (key_before k' k0).
    + rewrite get_prop_cons. now rewrite (str_eqb_neq _ _ Hne).
    + rewrite !get_prop_cons, IH. reflexivity.
Qed.

(** What is written is what is read. *)
Lemma get_set_prop_eq k v o : get_prop k (set_prop k v o) = v.
Proof.
  unfold set_prop. destruct (has_key k o) eqn:E.
  - now apply get_update_prop_eq.
  - now apply get_insert_prop_eq.
Qed.

(** Writing one key leaves the others as they are. *)
Lemma get_set_prop_ne k k' v o : k <> k' -> get_prop k (set_prop k' v o) = get_prop k o.
Proof.
  intros Hne. unfold set_prop. destruct (has_key k' o).
  - now apply get_update_prop_ne.
  - now apply get_insert_prop_ne.
Qed.

Lemma Forall_keys_set_prop (P : str -> Prop) k v o :
  P k -> Forall P (keys o) -> Forall P (keys (set_prop k v o)).
Proof.
  intros Hk Ho. unfold set_prop. destruct (has_key k o).
  - now rewrite keys_update_prop.
  - now apply Forall_keys_insert_prop.
Qed.


Lemma get_assign_props_absent k src : forall o,
  has_key k src = false -> get_prop k (assign_props o src) = get_prop k o.
Proof.
  unfold assign_props, has_key.
  induction src as [|[k0 v0] src IH]; intros o; cbn [fold_left existsb fst snd]; [reflexivity|].
  rewrite orb_false_iff. intros [H1 H2]. rewrite IH by assumption.
  apply get_set_prop_ne. intros ->. rewrite str_eqb_refl in H1. discriminate.
Qed.

Lemma Forall_keys_assign_props (P : str -> Prop) src : forall o,
  Forall P (keys src) -> Forall P (keys o) -> Forall P (keys (assign_props o src)).
Proof.
  unfold assign_props.
  induction src as [|[k0 v0] src IH]; intros o Hs Ho; cbn [fold_left fst snd]; [exact Ho|].
  unfold keys in Hs. cbn [map fst] in Hs. inversion Hs; subst.
  apply IH; [assumption|]. now apply Forall_keys_set_prop.
Qed.

Lemma Forall_assign_props (P : value -> Prop) src : forall o,
  Forall (fun kv => P (snd kv)) src -> Forall (fun kv => P (snd kv)) o ->
  Forall (fun kv => P (snd kv)) (assign_props o src).
Proof.
  unfold assign_props.
  induction src as [|[k0 v0] src IH]; intros o Hs Ho; cbn [fold_left fst snd]; [exact Ho|].
  inversion Hs; subst. apply IH; [assumption|]. now apply Forall_set_prop.
Qed.

(** *** Distinct keys *)

Lemma wf_keys_NoDup ks : wf_keys ks -> List.NoDup ks.
Proof.
  induction ks as [|k ks IH]; cbn [wf_keys]; intros H; [constructor|].
  destruct H as [H1 H2]. constructor; [|auto].
  intros Hin. rewrite Forall_forall in H1.
  apply list_elem_of_In in Hin. destruct (H1 _ Hin) as [Hne _]. congruence.
Qed.

Lemma wf_keys_filter (g : str * value -> bool) es :
  wf_keys (keys es) -> wf_keys (keys (List.filter g es)).
Proof.
  unfold keys. induction es as [|[k v] es IH]; cbn [map fst wf_keys]; [auto|].
  intros [H1 H2]. cbn [List.filter].
  assert (Hsub : Forall (fun k' => k' <> k /\ key_before k' k = false)
                   (map fst (List.filter g es))).
  { rewrite Forall_forall in *. intros k' Hin. apply H1.
    apply list_elem_of_In in Hin. apply list_elem_of_In.
    apply in_map_iff in Hin. destruct Hin as [[k0 v0] [<- Hin]].
    apply in_map_iff. exists (k0, v0). split; [reflexivity|].
    apply filter_In in Hin. tauto. }
  destruct (g (k, v)); cbn [map fst wf_keys]; auto.
Qed.

Lemma get_prop_In k v es :
  wf_keys (keys es) -> In (k, v) es -> get_prop k es = v.
Proof.
  unfold keys. induction es as [|[k0 v0] es IH]; cbn [map fst wf_keys In]; [tauto|].
  intros [H1 H2] [E|Hin].
  - injection E as -> ->. now rewrite get_prop_cons, str_eqb_refl.
  - rewrite get_prop_cons.
    assert (Hne : k <> k0).
    { rewrite Forall_forall in H1.
      assert (Hk : In k (map fst es)) by (apply in_map_iff; exists (k, v); auto).
      apply list_elem_of_In in Hk. now destruct (H1 _ Hk). }
    rewrite (str_eqb_neq _ _ Hne). auto.
Qed.

Lemma In_get_prop k es : has_key k es = true -> In (k, get_prop k es) es.
Proof.
  unfold has_key. induction es as [|[k0 v0] es IH]; cbn [existsb fst]; [discriminate|].
  rewrite get_prop_cons. destruct (str_eqb k k0) eqn:E; cbn [orb].
  - intros _. apply str_eqb_eq in E. subst. now left.
  - intros H. right. auto.
Qed.

(* ------------------------------------------------------------------ *)
(** ** The deep sanitizer, case by case *)

Lemma array_map_throw_elem {A B} (f : A -> outcome B) l e :
  array_map f l = Throw e -> exists x, In x l /\ f x = Throw e.
Proof.
  induction l as [|x l IH]; cbn [array_map]; unfold bind; [discriminate|].
  destruct (f x) as [y|e'] eqn:Hx.
  - destruct (array_map f l) as [ys|e'']; [discriminate|].
    intros H. injection H as ->. destruct (IH eq_refl) as [x' [Hin Hx']].
    exists x'. split; [now right | exact Hx'].
  - intros H. injection H as ->. exists x. split; [now left | exact Hx].
Qed.

Section WalkFacts.
Variable node_env : option str.
Variable h : heap.

Lemma walk_object_returns es d :
  exists o, sanitizeObject node_env h (VObject es) d = Return o /\
            match d with
            | O => o = VStr MAX_DEPTH_REACHED
            | S d' => o = VObject (sanitize_entries h
                            (fun value => sanitizeObject node_env h value d') es)
            end.
Proof. destruct d; eexists; split; reflexivity. Qed.

Lemma escapes_typeof d v e :
  escapes h v d = Some e -> typeof h v = js "object".
Proof.
  destruct d; cbn [escapes]; [discriminate|].
  unfold typeof. destruct (deref h v); try discriminate; reflexivity.
Qed.

End WalkFacts.


(** *** Plain objects *)

Lemma keys_map_entries (f : value -> value) es :
  keys (map (fun kv : str * value => (fst kv, f (snd kv))) es) = keys es.
Proof.
  unfold keys. rewrite map_map. cbn [fst]. reflexivity.
Qed.

Lemma sanitize_entries_fold h walk es : forall acc,
  fold_left (fun sanitized kv =>
               if is_function h (snd kv) then sanitized
               else
                 match walk (snd kv) with
                 | Return v => assign_prop (fst kv) v sanitized
                 | Throw _ => assign_prop (fst kv) (VStr CIRCULAR_REFERENCE) sanitized
                 end) es acc
  = fold_left (fun a kv => set_prop (fst kv) (snd kv) a)
      (map (fun kv => (fst kv, entry_result walk (snd kv)))
           (List.filter (kept h) es)) acc.
Proof.
  induction es as [|[k v] es IH]; intros acc; cbn [fold_left List.filter fst snd];
    [reflexivity|].
  unfold kept at 1. cbn [fst snd].
  destruct (is_function h v); cbn [negb andb map fold_left fst snd].
  - apply IH.
  - unfold assign_prop.
    destruct (str_eqb k (js "__proto__")); cbn [negb map fold_left fst snd].
    + destruct (walk v); apply IH.
    + unfold entry_result at 2. destruct (walk v); apply IH.
Qed.

Lemma sanitize_entries_map h walk es :
  wf_keys (keys es) ->
  sanitize_entries h walk es
  = map (fun kv => (fst kv, entry_result walk (snd kv)))
        (List.filter (kept h) es).
Proof.
  intros Hwf. unfold sanitize_entries. rewrite sanitize_entries_fold.
  apply (rebuild_wf _ []). cbn [app].
  rewrite (keys_map_entries (entry_result walk)).
  now apply wf_keys_filter.
Qed.

(** X2. A plain object whose own keys are distinct and in property order
    comes out with its keys in the same order, less the entries whose
    value is a function and less an own key [__proto__], which the
    assignment in the loop does not create; each value is that of the
    walk one level down, or the circular-reference sentinel when that
    walk throws. *)
Theorem plain_object_keeps_keys_and_order
  (node_env : option str) (h : heap) (obj : value) (es : list (str * value)) (d : nat) :
  deref h obj = VObject es ->
  wf_keys (keys es) ->
  sanitizeObject node_env h obj (S d)
  = Return (VObject
      (map (fun kv => (fst kv,
                       entry_result (fun value => sanitizeObject node_env h value d) (snd kv)))
           (List.filter (kept h) es))).
Proof.
  intros E Hwf.
  rewrite (sanitizeObject_entries node_env h obj es d) by now rewrite E.
  now rewrite sanitize_entries_map.
Qed.

Lemma plain_object_keeps_keys_and_order_witness :
  sanitizeObject None ∅
    (VObject [ (js "2", VNum 2); (js "10", VFunction (js "f"));
               (js "user", VStr (js "ann")); (js "__proto__", VNum 1);
               (js "when", VDate None) ]) 10
  = Return (VObject [ (js "2", VNum 2); (js "user", VStr (js "ann"));
                      (js "when", VStr CIRCULAR_REFERENCE) ]).
Proof.
  rewrite (plain_object_keeps_keys_and_order None ∅ _
             [ (js "2", VNum 2); (js "10", VFunction (js "f"));
               (js "user", VStr (js "ann")); (js "__proto__", VNum 1);
               (js "when", VDate None) ] 9).
  - vm_compute. reflexivity.
  - reflexivity.
  - cbn [keys map fst wf_keys].
    repeat split; repeat constructor; try discriminate; vm_compute; reflexivity.
Defined.

(** *** The result is plain data of bounded depth *)

Lemma plain_mono d v : plain d v -> plain (S d) v.
Proof.
  revert v. induction d as [|d IH]; intros v.
  - destruct v; cbn [plain]; tauto.
  - destruct v; cbn [plain]; try tauto.
    + intros H. eapply Forall_impl; [exact H|]. intros x Hx. now apply IH.
    + intros H. eapply Forall_impl; [exact H|]. intros x Hx. now apply IH.
Qed.

Lemma plain_deref h d v : plain d v -> deref h v = v.
Proof. destruct d, v; cbn [plain]; try contradiction; reflexivity. Qed.

Lemma Forall_indexed {A} (P : value -> Prop) (f : A -> value) (l : list A) : forall i,
  Forall (fun x => P (f x)) l -> Forall (fun kv => P (snd kv)) (indexed f i l).
Proof.
  induction l as [|x l IH]; intros i H; cbn [indexed]; [constructor|].
  inversion H; subst. constructor; auto.
Qed.

Lemma plain_own_enumerable h d v :
  plain d v -> Forall (fun kv => plain d (snd kv)) (own_enumerable h v).
Proof.
  intros Hp. unfold own_enumerable. rewrite (plain_deref h d v Hp).
  destruct d as [|d], v; cbn [plain] in Hp; try contradiction; try constructor.
  - apply Forall_indexed. apply Forall_forall. intros c _. exact I.
  - apply Forall_indexed. apply Forall_forall. intros c _. exact I.
  - apply Forall_indexed. eapply Forall_impl; [exact Hp|].
    intros x Hx. now apply plain_mono.
  - eapply Forall_impl; [exact Hp|]. intros x Hx. now apply plain_mono.
Qed.

Lemma plain_prim d v :
  match v with
  | VUndefined | VNull | VBool _ | VNum _ | VStr _
  | VSymbol _ | VBigInt _ | VFunction _ => True
  | _ => False
  end -> plain d v.
Proof. destruct d, v; cbn [plain]; tauto. Qed.

Lemma Forall2_Forall_r {A B} (R : A -> B -> Prop) (P : B -> Prop) l l' :
  Forall2 R l l' -> (forall x y, R x y -> P y) -> Forall P l'.
Proof.
  intros H HP. induction H as [|x y l l' Hxy _ IHl].
  - apply List.Forall_nil.
  - apply List.Forall_cons; [exact (HP x y Hxy) | exact IHl].
Qed.

Lemma walk_plain node_env h d : forall v o,
  sanitizeObject node_env h v d = Return o -> plain d o.
Proof.
  induction d as [|d IH]; intros v o Hw.
  - cbn in Hw. injection Hw as <-. exact I.
  - cbn [sanitizeObject] in Hw.
    assert (Hentries : forall es,
      plain (S d) (VObject (sanitize_entries h
                     (fun value => sanitizeObject node_env h value d) es))).
    { intros es. cbn [plain].
      apply (sanitize_entries_inv h _ es (plain d)).
      apply Forall_forall. intros kv _ _.
      destruct (sanitizeObject node_env h (snd kv) d) as [v'|e] eqn:Hkv.
      - eapply IH; eauto.
      - now apply plain_prim. }
    destruct (deref h v) eqn:E;
      try (injection Hw as <-; now apply plain_prim); try discriminate.
    + destruct (walk_object_returns node_env h (other_error_props own) d) as [r [Hr _]].
      rewrite Hr in Hw. cbn [bind] in Hw. injection Hw as <-.
      cbn [plain]. apply Forall_assign_props.
      * apply plain_own_enumerable. eapply IH; eauto.
      * unfold object_literal. apply Forall_assign_props; [|constructor].
        repeat constructor; cbn [snd]; try (now apply plain_prim).
        destruct (is_development node_env); now apply plain_prim.
    + destruct iso; cbn in Hw; [injection Hw as <-; now apply plain_prim | discriminate].
    + unfold bind in Hw.
      destruct (array_map (fun item => sanitizeObject node_env h item d) items)
        as [items'|e] eqn:Ha; [|discriminate].
      injection Hw as <-. cbn [plain].
      apply array_map_Return in Ha.
      eapply Forall2_Forall_r; [exact Ha|]. intros x y Hxy. exact (IH x y Hxy).
    + injection Hw as <-. apply Hentries.
    + injection Hw as <-. apply Hentries.
    + injection Hw as <-. apply Hentries.
    + injection Hw as <-. apply Hentries.
    + exfalso. eapply deref_not_ref; eauto.
Qed.

(** X3. Whatever the input, cyclic or not, what [sanitizeLogData]
    returns is plain data that nests at most ten levels deep: primitives,
    functions, arrays and plain objects, with no Date, Error, Map, Set,
    class instance, unreadable object or reference to the caller's
    objects left in it. *)
Theorem sanitized_data_is_plain_and_bounded
  (node_env : option str) (h : heap) (data o : value) :
  sanitizeLogData node_env h data = Return o -> plain 10 o.
Proof.
  rewrite sanitizeLogData_unfold.
  destruct (sanitizeObject node_env h data 10) as [v|e] eqn:Hw.
  - intros H. apply Return_inj in H. subst v. eapply walk_plain; eauto.
  - destruct (error_text e) as [text|]; [|discriminate].
    intros H. apply Return_inj in H. subst o.
    rewrite sanitization_error_literal. cbn [plain]. repeat constructor.
Qed.

Lemma sanitized_data_is_plain_and_bounded_witness :
  exists o, sanitizeLogData None self_cycle (VArray [VRef 0; VThrowing (Printable (js "no"))])
              = Return o /\ plain 10 o.
Proof.
  eexists. split; [vm_compute; reflexivity|].
  apply (sanitized_data_is_plain_and_bounded None self_cycle
           (VArray [VRef 0; VThrowing (Printable (js "no"))])).
  vm_compute. reflexivity.
Defined.

(** *** Error objects *)







(* ------------------------------------------------------------------ *)
(** ** Keys through a merge and through the walk *)

Lemma has_key_cons k k0 v0 o : has_key k ((k0, v0) :: o) = str_eqb k k0 || has_key k o.
Proof. reflexivity. Qed.

Lemma has_key_update_prop k k' v o : has_key k (update_prop k' v o) = has_key k o.
Proof.
  induction o as [|[k0 v0] o IH]; cbn [update_prop]; [reflexivity|].
  destruct (str_eqb k' k0); rewrite !has_key_cons; [reflexivity | now rewrite IH].
Qed.

Lemma has_key_insert_prop k k' v o :
  has_key k (insert_prop k' v o) = str_eqb k k' || has_key k o.
Proof.
  induction o as [|[k0 v0] o IH]; cbn [insert_prop]; [reflexivity|].
  destruct (key_before k' k0); rewrite !has_key_cons; [reflexivity|].
  rewrite IH. destruct (str_eqb k k0), (str_eqb k k'); reflexivity.
Qed.

Lemma has_key_set_prop k k' v o :
  has_key k (set_prop k' v o) = str_eqb k k' || has_key k o.
Proof.
  unfold set_prop. destruct (has_key k' o) eqn:E.
  - rewrite has_key_update_prop.
    destruct (str_eqb k k') eqn:Ek; [|reflexivity].
    apply str_eqb_eq in Ek. subst. now rewrite E.
  - apply has_key_insert_prop.
Qed.

Lemma has_key_assign_props k src : forall o,
  has_key k (assign_props o src) = has_key k o || has_key k src.
Proof.
  unfold assign_props.
  induction src as [|[k0 v0] src IH]; intros o; cbn [fold_left fst snd].
  - cbn. now rewrite orb_false_r.
  - rewrite IH, has_key_set_prop, has_key_cons.
    destruct (str_eqb k k0), (has_key k o), (has_key k src); reflexivity.
Qed.

(** In [{ ...a, ...b }] the keys of [b] win. *)
Lemma get_assign_props_present k src : forall o,
  wf_keys (keys src) -> has_key k src = true ->
  get_prop k (assign_props o src) = get_prop k src.
Proof.
  induction src as [|[k0 v0] src IH]; intros o Hwf Hk; [discriminate|].
  change (assign_props o ((k0, v0) :: src)) with (assign_props (set_prop k0 v0 o) src).
  cbn [keys map fst wf_keys] in Hwf. destruct Hwf as [H1 Hwf].
  rewrite has_key_cons in Hk. rewrite get_prop_cons.
  destruct (str_eqb k k0) eqn:E.
  - apply str_eqb_eq in E. subst k0.
    rewrite get_assign_props_absent.
    + apply get_set_prop_eq.
    + apply has_key_false. eapply Forall_impl; [exact H1|]. now intros a [Ha _].
  - cbn [orb] in Hk. now apply IH.
Qed.

Lemma wf_object_literal props : wf_keys (keys (object_literal props)).
Proof. unfold object_literal. apply wf_assign_props. exact I. Qed.

Lemma sanitize_entries_wf h walk es : wf_keys (keys (sanitize_entries h walk es)).
Proof.
  apply (sanitize_entries_inv h walk es (fun _ => True)).
  apply Forall_forall. intros kv _ _. destruct (walk (snd kv)); exact I.
Qed.

(** What the walk of a plain object holds under a key of the object. *)
Lemma get_sanitize_entries h walk es k v :
  wf_keys (keys es) -> In (k, v) es -> is_function h v = false ->
  k <> js "__proto__" ->
  get_prop k (sanitize_entries h walk es) = entry_result walk v.
Proof.
  intros Hwf Hin Hf Hk.
  pose proof (sanitize_entries_wf h walk es) as Hwf'.
  rewrite sanitize_entries_map in * by assumption.
  apply get_prop_In; [exact Hwf'|].
  apply in_map_iff. exists (k, v). split; [reflexivity|].
  apply filter_In. split; [exact Hin|]. unfold kept. cbn [fst snd].
  now rewrite Hf, (str_eqb_neq _ _ Hk).
Qed.

(** The walk of a plain object never has an own key [__proto__]. *)
Lemma sanitize_entries_no_proto h walk es :
  has_key (js "__proto__") (sanitize_entries h walk es) = false.
Proof.
  apply has_key_false.
  destruct (sanitize_entries_inv_keys h walk es (fun _ => True)) as [_ H].
  - apply List.Forall_forall. intros kv _ _. destruct (walk (snd kv)); exact I.
  - unfold keys. apply List.Forall_forall. intros k Hin.
    apply in_map_iff in Hin. destruct Hin as [kv [<- Hin]].
    rewrite List.Forall_forall in H. now apply H.
Qed.

Lemma has_key_sanitize_entries h walk es k :
  wf_keys (keys es) ->
  has_key k (sanitize_entries h walk es) = true ->
  has_key k es = true.
Proof.
  intros Hwf. rewrite sanitize_entries_map by assumption.
  unfold has_key. rewrite !existsb_exists.
  intros [[k' v'] [Hin Hk]]. apply in_map_iff in Hin.
  destruct Hin as [[k0 v0] [E Hin]]. injection E as <- <-.
  apply filter_In in Hin. destruct Hin as [Hin _].
  exists (k0, v0). split; assumption.
Qed.

(* ------------------------------------------------------------------ *)
(** ** The two queries and the redactor *)

Module QueryFacts.
Import Re ReFacts RedactionFacts.

(** Where the search finds nothing, the replacement copies. *)
Lemma search_None_replace r f : forall s pv,
  search r pv s = None -> replace_scan r f pv s 0 = s.
Proof.
  induction s as [|c s IH]; intros pv; cbn [search replace_scan].
  - destruct (match_here r pv []); [discriminate | reflexivity].
  - destruct (match_here r pv (c :: s)); [discriminate|].
    destruct (search r (Some c) s) as [[i n]|] eqn:E; [discriminate|].
    intros _. now rewrite IH.
Qed.

(** Where the search finds a match, the replacement of the first match
    is in the result. *)
Lemma search_Some_replace r f p : forall s pv,
  (forall pv' s' h, match_here r pv' s' = Some h ->
                    includes (f (matched h) (groups h)) p = true) ->
  search r pv s <> None -> includes (replace_scan r f pv s 0) p = true.
Proof.
  intros s pv Hf. revert pv.
  induction s as [|c s IH]; intros pv; cbn [search replace_scan].
  - destruct (match_here r pv []) as [h|] eqn:Hm; [|congruence].
    intros _. eapply Hf; eauto.
  - destruct (match_here r pv (c :: s)) as [h|] eqn:Hm.
    + intros _. pose proof (Hf _ _ _ Hm) as Hh.
      destruct (matched h) as [|x m]; cbn [length]; apply includes_app_l; exact Hh.
    + destruct (search r (Some c) s) as [[i n]|] eqn:E; [|congruence].
      intros _. apply includes_cons. apply IH. congruence.
Qed.

(** [test] on a fresh pattern is the search from the start. *)
Lemma test_global_fresh r s :
  fst (test_global r 0 s) = match search r None s with Some _ => true | None => false end.
Proof.
  unfold test_global. cbn [Nat.ltb Nat.leb]. rewrite skipn_O.
  destruct (search r None s) as [[i n]|]; reflexivity.
Qed.

Lemma test_global_false r i s i' : test_global r i s = (false, i') -> i' = 0%nat.
Proof.
  unfold test_global. destruct (Nat.ltb (length s) i).
  - intros H. now injection H as <-.
  - destruct (search r _ (skipn i s)) as [[j n]|]; [discriminate|].
    intros H. now injection H as <-.
Qed.

(** *** [some] and [filter] over the same patterns *)

Lemma some_filter rs : forall st s,
  fst (some_test rs st s) = true <-> fst (filter_test rs st s) <> [].
Proof.
  induction rs as [|r rs IH]; intros st s; cbn [some_test filter_test].
  - cbn. split; [discriminate | congruence].
  - destruct st as [|i st]; [cbn; split; [discriminate | congruence]|].
    destruct (test_global (pattern r) i s) as [b i'].
    specialize (IH st s).
    destruct (some_test rs st s) as [b' st''].
    destruct (filter_test rs st s) as [keep st3].
    cbn [fst] in IH.
    destruct b; cbn [fst].
    + split; [discriminate | reflexivity].
    + exact IH.
Qed.

Lemma some_test_false rs : forall st s st',
  some_test rs st s = (false, st') -> length st = length rs ->
  st' = map (fun _ => 0%nat) rs /\
  Forall2 (fun r i => fst (test_global (pattern r) i s) = false) rs st.
Proof.
  induction rs as [|r rs IH]; intros st s st'; cbn [some_test map].
  - destruct st; [|discriminate]. intros H _. injection H as <-. split; constructor.
  - destruct st as [|i st]; [discriminate|].
    destruct (test_global (pattern r) i s) as [b i'] eqn:Ht.
    destruct b; [discriminate|].
    destruct (some_test rs st s) as [b' st''] eqn:Hs.
    intros H Hlen. injection H as -> <-. cbn [length] in Hlen.
    destruct (IH st s st'' Hs ltac:(lia)) as [-> HF].
    apply test_global_false in Ht as Hi. subst i'.
    split; [reflexivity|]. constructor; [now rewrite Ht | exact HF].
Qed.


Lemma some_test_true_fresh rs s :
  fst (some_test rs (map (fun _ => 0%nat) rs) s) = true ->
  Exists (fun r => search (pattern r) None s <> None) rs.
Proof.
  induction rs as [|r rs IH]; cbn [some_test map]; [discriminate|].
  pose proof (test_global_fresh (pattern r) s) as Ht.
  destruct (test_global (pattern r) 0 s) as [b i']. cbn [fst] in Ht.
  destruct b.
  - intros _. apply Exists_cons_hd.
    destruct (search (pattern r) None s); [discriminate | discriminate].
  - destruct (some_test rs (map (fun _ => 0%nat) rs) s) as [b' st''].
    cbn [fst] in *. intros H. apply Exists_cons_tl. auto.
Qed.

(** *** A string that is not flagged is not changed *)

Lemma fold_apply_fixed rs s :
  Forall (fun r => apply_rule s r = s) rs -> fold_left apply_rule rs s = s.
Proof.
  induction 1 as [|r rs Hr _ IH]; cbn [fold_left]; [reflexivity|].
  now rewrite Hr.
Qed.

Lemma Forall2_fresh {A} (P : A -> nat -> Prop) (rs : list A) :
  Forall2 P rs (map (fun _ => 0%nat) rs) -> Forall (fun r => P r 0%nat) rs.
Proof.
  induction rs as [|r rs IH]; cbn [map]; intros H; [constructor|].
  inversion H; subst. constructor; auto.
Qed.

Lemma sanitizeString_unflagged s st' :
  containsSensitiveData fresh_patterns s = (false, st') -> sanitizeString s = s.
Proof.
  unfold containsSensitiveData, fresh_patterns. intros H.
  apply some_test_false in H; [|now rewrite length_map].
  destruct H as [_ HF]. apply Forall2_fresh in HF.
  unfold sanitizeString. apply fold_apply_fixed.
  eapply Forall_impl; [exact HF|].
  intros r Hr. cbn beta in Hr. rewrite test_global_fresh in Hr.
  unfold apply_rule, replace_all. apply search_None_replace.
  destruct (search (pattern r) None s); [discriminate | reflexivity].
Qed.

(** *** The Bearer pattern finds the bearer tokens, and only them *)

Lemma letters_then_app p : forall m rest,
  Forall2 (fun x c => char_eqb_i x c = true) p m ->
  letters_then p (m ++ rest) = space_then_token rest.
Proof.
  induction p as [|x p IH]; intros m rest HF; inversion HF; subst;
    cbn [letters_then app]; [reflexivity|].
  match goal with H : char_eqb_i x _ = true |- _ => rewrite H end.
  cbn [andb]. now apply IH.
Qed.

Lemma spaces_then_token_app ws rest :
  forallb is_space ws = true -> spaces_then_token (ws ++ rest) = spaces_then_token rest.
Proof.
  induction ws as [|c ws IH]; cbn [forallb app spaces_then_token]; [reflexivity|].
  rewrite andb_true_iff. intros [Hc Hws]. rewrite Hc. auto.
Qed.

Lemma bearer_re_sound pv s h :
  match_here bearer_re pv s = Some h -> bearer_at s = true.
Proof.
  intros Hm. destruct (match_here_sound _ _ _ _ Hm) as [E S].
  unfold bearer_re in S. cbn [sem] in S. sem_destruct.
  match goal with
  | H : sem (Re.lit_i _) _ _ _ |- _ => apply sem_lit_i in H; destruct H as [HF _]
  end.
  subst.
  match goal with H : matched h = _ |- _ => rewrite H end.
  rewrite <- !app_assoc.
  unfold bearer_at. rewrite (letters_then_app _ _ _ HF).
  match goal with
  | H2 : forallb is_space ?m2 = true, L2 : (1 <= length ?m2)%nat,
    H3 : forallb is_token ?m3 = true, L3 : (1 <= length ?m3)%nat |- _ =>
      destruct m2 as [|c m2]; [cbn [length] in L2; lia|];
      destruct m3 as [|t m3]; [cbn [length] in L3; lia|];
      cbn [forallb] in H2, H3;
      apply andb_true_iff in H2; destruct H2 as [Hc H2];
      apply andb_true_iff in H3; destruct H3 as [Ht H3];
      cbn [app space_then_token]; rewrite Hc; cbn [andb];
      rewrite (spaces_then_token_app _ _ H2); cbn [app spaces_then_token];
      destruct (is_space t) eqn:Hs; [|exact Ht];
      apply is_space_not_token in Hs; congruence
  end.
Qed.

Lemma search_bearer s : forall pv,
  search bearer_re pv s <> None <-> has_bearer s = true.
Proof.
  induction s as [|c s IH]; intros pv; cbn [search has_bearer].
  - destruct (match_here bearer_re pv []) as [h|] eqn:Hm.
    + apply bearer_re_sound in Hm. rewrite Hm. split; [reflexivity | discriminate].
    + apply bearer_re_complete in Hm. rewrite Hm. split; [congruence | discriminate].
  - destruct (match_here bearer_re pv (c :: s)) as [h|] eqn:Hm.
    + apply bearer_re_sound in Hm. rewrite Hm. split; [reflexivity | discriminate].
    + apply bearer_re_complete in Hm. rewrite Hm. cbn [orb].
      rewrite <- (IH (Some c)).
      destruct (search bearer_re (Some c) s) as [[i n]|]; split; congruence.
Qed.

(** *** Every replacement brings a mask in *)

Lemma starts_with_of_prefix p q : forall s,
  starts_with (p ++ q) s = true -> starts_with p s = true.
Proof.
  induction p as [|x p IH]; intros s; cbn [app starts_with]; [reflexivity|].
  destruct s as [|c s]; [discriminate|].
  rewrite !andb_true_iff. intros [Hc H]. split; [exact Hc | now apply IH].
Qed.

Lemma includes_of_prefix p q : forall s,
  includes s (p ++ q) = true -> includes s p = true.
Proof.
  induction s as [|c s IH]; intros H; cbn [includes] in H;
    apply orb_true_iff in H; destruct H as [H|H].
  - apply starts_with_includes. now apply starts_with_of_prefix in H.
  - discriminate.
  - apply starts_with_includes. now apply starts_with_of_prefix in H.
  - apply includes_cons. now apply IH.
Qed.

Lemma includes_open s : includes s REDACTED = true -> includes s MASK_OPEN = true.
Proof. apply (includes_of_prefix MASK_OPEN (js "]")). Qed.

Lemma match_here_search r pv s : match_here r pv s <> None -> search r pv s <> None.
Proof.
  destruct s; cbn [search]; destruct (match_here r pv _); congruence.
Qed.

Lemma search_skip r b : forall pre pv,
  (forall pv', search r pv' b <> None) -> search r pv (pre ++ b) <> None.
Proof.
  induction pre as [|c pre IH]; intros pv Hb; cbn [app]; [apply Hb|].
  cbn [search]. destruct (match_here r pv (c :: pre ++ b)); [discriminate|].
  specialize (IH (Some c) Hb).
  destruct (search r (Some c) (pre ++ b)) as [[i n]|]; congruence.
Qed.

Lemma search_Some_replace_first r f p : forall s pv,
  (forall pv' s' h, match_here r pv' s' = Some h ->
                    includes (f (matched h) (groups h)) p = true) ->
  search r pv s <> None -> includes (replace_first_from r f pv s) p = true.
Proof.
  intros s pv Hf. revert pv.
  induction s as [|c s IH]; intros pv; cbn [search replace_first_from].
  - destruct (match_here r pv []) as [h|] eqn:Hm; [|congruence].
    intros _. apply includes_app_l. eapply Hf; eauto.
  - destruct (match_here r pv (c :: s)) as [h|] eqn:Hm.
    + intros _. apply includes_app_l. eapply Hf; eauto.
    + destruct (search r (Some c) s) as [[i n]|] eqn:E; [|congruence].
      intros _. apply includes_cons. apply IH. congruence.
Qed.

Lemma apikey_value_found v post pv :
  forallb is_token v = true -> (16 <= length v)%nat ->
  match_here apikey_value_re pv (v ++ post) <> None.
Proof.
  intros Hv Hl. unfold match_here, apikey_value_re. cbn [rmatch prev rest caps].
  match goal with
  | |- match ?x with _ => _ end <> None =>
      assert (Hx : x <> None); [|destruct x; [discriminate | contradiction]]
  end.
  apply rep_greedy_complete; [exact Hv | exact Hl | discriminate].
Qed.

Lemma quoted_found q1 body q2 pv :
  is_quote q1 = true -> forallb not_quote body = true -> (2 <= length body)%nat ->
  is_quote q2 = true ->
  match_here quoted_re pv (q1 :: body ++ [q2]) <> None.
Proof.
  intros H1 Hb Hl H2. unfold match_here, quoted_re.
  cbn [rmatch prev rest caps]. rewrite H1. cbn [rmatch prev rest caps].
  match goal with
  | |- match ?x with _ => _ end <> None =>
      assert (Hx : x <> None); [|destruct x; [discriminate | contradiction]]
  end.
  apply rep_greedy_complete; [exact Hb | exact Hl |].
  cbn [rmatch rest]. rewrite H2. discriminate.
Qed.

Lemma hit_masked r :
  In r SENSITIVE_PATTERNS ->
  forall pv s h, match_here (pattern r) pv s = Some h ->
    includes (replacer_of (repl r) (matched h) (groups h)) MASK_OPEN = true.
Proof.
  cbn [SENSITIVE_PATTERNS In].
  intros [<-|[<-|[<-|[<-|[<-|[<-|[]]]]]]] pv s h Hm;
    unfold BEARER_RULE, SK_RULE, APIKEY_RULE, PASSWORD_RULE, JWT_RULE, POSTGRES_RULE in *;
    cbn [pattern repl replacer_of] in *.
  - vm_compute. reflexivity.
  - rewrite expand_plain_sk. vm_compute. reflexivity.
  - destruct (match_here_sound _ _ _ _ Hm) as [_ S].
    unfold apikey_re in S. cbn [sem] in S. sem_destruct. subst.
    match goal with H : matched h = _ |- _ => rewrite H end.
    unfold replace_all.
    apply search_Some_replace.
    + intros. cbn [replacer_of]. rewrite expand_redacted. reflexivity.
    + do 6 (apply search_skip; intros ?).
      apply match_here_search. apply apikey_value_found; assumption.
  - destruct (match_here_sound _ _ _ _ Hm) as [_ S].
    unfold password_re in S. cbn [sem] in S. sem_destruct. subst.
    match goal with H : matched h = _ |- _ => rewrite H end.
    unfold replace_first.
    apply search_Some_replace_first.
    + intros. cbn [replacer_of]. rewrite expand_quoted. reflexivity.
    + do 4 (apply search_skip; intros ?).
      apply match_here_search. cbn [app]. apply quoted_found; assumption.
  - rewrite expand_plain_jwt. vm_compute. reflexivity.
  - destruct (match_here_sound _ _ _ _ Hm) as [_ S].
    unfold postgres_re in S. cbn [sem] in S. sem_destruct.
    match goal with
    | H : sem (Re.lit_i _) _ _ _ |- _ => apply sem_lit_i in H; destruct H as [_ ?]
    end.
    subst.
    match goal with G : groups h = _ |- _ => rewrite G end.
    rewrite expand_postgres. apply includes_open.
    apply includes_app_r. apply includes_prefix.
Qed.


(** *** A mask that is in stays in *)

Section Carry.
Variable M : str.
Variable miss : str -> Prop.

Lemma rewrites_carry_mask s out :
  rewrites (fun _ t => includes t M = true) miss s out ->
  (includes s M = true -> includes out M = true) /\
  (forall r, In r (tails M) -> starts_with r s = true ->
             starts_with r out = true \/ includes out M = true).
Proof.
  induction 1 as [|c s out _ H [IH1 IH2]|c s out t Ht H _|m t s out Ht H _].
  - split; auto.
  - assert (K : forall r, In r (tails M) -> starts_with r (c :: s) = true ->
                  starts_with r (c :: out) = true \/ includes (c :: out) M = true).
    { intros [|x r] Hr; [left; reflexivity|].
      cbn [starts_with]. rewrite andb_true_iff. intros [Hc Hs].
      destruct (IH2 r (tails_tl _ _ _ Hr) Hs) as [H'|H'].
      - left. now rewrite Hc, H'.
      - right. now apply includes_cons. }
    split; [|exact K].
    intros Hi. cbn [includes] in Hi. apply orb_true_iff in Hi. destruct Hi as [Hi|Hi].
    + destruct (K M (tails_self _) Hi) as [H'|H']; [|exact H'].
      now apply starts_with_includes.
    + apply includes_cons. auto.
  - assert (Hi : includes (t ++ c :: out) M = true) by now apply includes_app_l.
    split; auto.
  - assert (Hi : includes (t ++ out) M = true) by now apply includes_app_l.
    split; auto.
Qed.

End Carry.

Lemma apply_rule_carries s r :
  In r SENSITIVE_PATTERNS ->
  includes s MASK_OPEN = true -> includes (apply_rule s r) MASK_OPEN = true.
Proof.
  intros Hr.
  apply (rewrites_carry_mask MASK_OPEN (fun _ => True)).
  unfold apply_rule. apply replace_all_rewrites; [|auto].
  intros pv s' h Hm. now apply (hit_masked r Hr pv s').
Qed.

Lemma fold_carries rs : forall s,
  Forall (fun r => In r SENSITIVE_PATTERNS) rs ->
  includes s MASK_OPEN = true -> includes (fold_left apply_rule rs s) MASK_OPEN = true.
Proof.
  induction rs as [|r rs IH]; intros s Hrs Hs; cbn [fold_left]; [exact Hs|].
  inversion Hrs; subst. apply IH; [assumption|]. now apply apply_rule_carries.
Qed.

Lemma fold_masks rs : forall s,
  Forall (fun r => In r SENSITIVE_PATTERNS) rs ->
  Exists (fun r => search (pattern r) None s <> None) rs ->
  includes (fold_left apply_rule rs s) MASK_OPEN = true.
Proof.
  induction rs as [|r rs IH]; intros s Hrs Hex; [inversion Hex|].
  inversion Hrs as [|? ? Hr Hrs']; subst. cbn [fold_left].
  destruct (search (pattern r) None s) as [[i n]|] eqn:E.
  - apply fold_carries; [assumption|].
    unfold apply_rule, replace_all. apply search_Some_replace.
    + now apply hit_masked.
    + congruence.
  - replace (apply_rule s r) with s.
    + apply IH; [assumption|]. inversion Hex; subst; [congruence | assumption].
    + symmetry. unfold apply_rule, replace_all. now apply search_None_replace.
Qed.

Lemma sanitizeString_flagged s :
  fst (containsSensitiveData fresh_patterns s) = true ->
  includes (sanitizeString s) MASK_OPEN = true.
Proof.
  unfold containsSensitiveData, fresh_patterns. intros H.
  apply some_test_true_fresh in H.
  unfold sanitizeString. apply fold_masks; [|exact H].
  apply Forall_forall. intros r Hr. now apply list_elem_of_In in Hr.
Qed.

End QueryFacts.

(** X5. A string the detector does not flag is left as it is by the
    redactor: when [containsSensitiveData], on freshly loaded patterns,
    answers false for a string, [sanitizeString] returns that string. *)
Theorem unflagged_string_is_unchanged (s : str) (st' : pattern_state) :
  containsSensitiveData fresh_patterns s = (false, st') ->
  sanitizeString s = s.
Proof. apply QueryFacts.sanitizeString_unflagged. Qed.

Lemma unflagged_string_is_unchanged_witness :
  sanitizeString (js "user 42 logged in") = js "user 42 logged in".
Proof.
  apply (unflagged_string_is_unchanged (js "user 42 logged in") fresh_patterns).
  vm_compute. reflexivity.
Defined.

(** X6. A string the detector flags comes out of the redactor with a
    mask in it: when [containsSensitiveData], on freshly loaded patterns,
    answers true, the result of [sanitizeString] contains [[REDACTED],
    the opening of both masks. *)
Theorem flagged_string_is_masked (s : str) :
  fst (containsSensitiveData fresh_patterns s) = true ->
  includes (sanitizeString s) (js "[REDACTED") = true.
Proof. apply QueryFacts.sanitizeString_flagged. Qed.

Lemma flagged_string_is_masked_witness :
  includes (sanitizeString (js "token eyJhbGciOi.eyJzdWIi.sig")) (js "[REDACTED") = true.
Proof.
  apply (flagged_string_is_masked (js "token eyJhbGciOi.eyJzdWIi.sig")).
  vm_compute. reflexivity.
Defined.

(** X7. The two queries agree when asked in the same state of the
    patterns: [containsSensitiveData] answers true exactly when
    [detectSensitivePatterns] returns at least one label. *)
Theorem queries_agree (st : pattern_state) (s : str) :
  fst (containsSensitiveData st s) = true <->
  fst (detectSensitivePatterns st s) <> [].
Proof.
  unfold containsSensitiveData, detectSensitivePatterns.
  rewrite QueryFacts.some_filter.
  destruct (filter_test SENSITIVE_PATTERNS st s) as [keep st'].
  cbn [fst]. destruct keep; cbn [map]; split; congruence.
Qed.

(** X8. A false answer of [containsSensitiveData] leaves every pattern
    with [lastIndex] 0, as at load: the next query is answered from the
    start of its string. *)
Theorem false_answer_resets_patterns (st st' : pattern_state) (s : str) :
  length st = length SENSITIVE_PATTERNS ->
  containsSensitiveData st s = (false, st') ->
  st' = fresh_patterns.
Proof.
  intros Hlen H. unfold containsSensitiveData in H.
  now destruct (QueryFacts.some_test_false _ _ _ _ H Hlen) as [-> _].
Qed.

Lemma false_answer_resets_patterns_witness :
  snd (containsSensitiveData [13; 0; 0; 0; 0; 0]%nat (js "Bearer abc123")) = fresh_patterns.
Proof.
  apply (false_answer_resets_patterns [13; 0; 0; 0; 0; 0]%nat _ (js "Bearer abc123")).
  - reflexivity.
  - vm_compute. reflexivity.
Defined.

(** X9. On freshly loaded patterns the first label
    [detectSensitivePatterns] returns is that of the Bearer rule exactly
    when the string has a bearer token in it ([Bearer] in any case, white
    space, a token character). *)
Theorem bearer_label_iff_bearer_token (s : str) :
  head (fst (detectSensitivePatterns fresh_patterns s)) = Some (js "Bearer tokens") <->
  has_bearer s = true.
Proof.
  rewrite <- (QueryFacts.search_bearer s None).
  unfold detectSensitivePatterns, fresh_patterns, SENSITIVE_PATTERNS.
  cbn [map filter_test].
  pose proof (QueryFacts.test_global_fresh (pattern BEARER_RULE) s) as Ht.
  destruct (Re.test_global (pattern BEARER_RULE) 0 s) as [b i'].
  cbn [fst] in Ht. change (pattern BEARER_RULE) with bearer_re in Ht.
  repeat match goal with
         | |- context [Re.test_global ?r 0%nat s] =>
             destruct (Re.test_global r 0%nat s) as [[] ?]
         end;
    cbn [fst map head description BEARER_RULE SK_RULE APIKEY_RULE PASSWORD_RULE
           JWT_RULE POSTGRES_RULE];
    destruct b; destruct (Re.search bearer_re None s); try discriminate;
    split; intros H; try congruence; try reflexivity;
    try (exfalso; vm_compute in H; congruence).
Qed.

(* ------------------------------------------------------------------ *)
(** ** Running a computation step by step *)

Lemma seq_ret {A B} (a : A) (f : A -> js_comp B) w : seq (ret a) f w = f a w.
Proof. reflexivity. Qed.

Lemma seq_lift_Return {A B} (a : A) (f : A -> js_comp B) w :
  seq (lift (Return a)) f w = f a w.
Proof. reflexivity. Qed.

Lemma seq_get_heap {B} (f : heap -> js_comp B) w : seq get_heap f w = f (w_heap w) w.
Proof. reflexivity. Qed.

Lemma seq_alloc {B} v (f : loc -> js_comp B) w :
  seq (alloc v) f w
  = f (w_next w)
      (World (<[w_next w := v]> (w_heap w)) (S (w_next w)) (w_ticks w) (w_out w)).
Proof. reflexivity. Qed.

Lemma seq_heap_set_prop {B} l k v (f : unit -> js_comp B) w :
  seq (heap_set_prop l k v) f w
  = f tt (World (<[l := VObject (set_prop k v (own_enumerable (w_heap w) (VRef l)))]>
                   (w_heap w))
            (w_next w) (w_ticks w) (w_out w)).
Proof. reflexivity. Qed.

Lemma seq_read_clock {B} rt (f : str -> js_comp B) w :
  seq (read_clock rt) f w
  = f (clock rt (w_ticks w)) (World (w_heap w) (w_next w) (S (w_ticks w)) (w_out w)).
Proof. reflexivity. Qed.

Lemma seq_assoc {A B C} (m : js_comp A) (f : A -> js_comp B) (g : B -> js_comp C) w :
  seq (seq m f) g w = seq m (fun a => seq (f a) g) w.
Proof. unfold seq. destruct (m w) as [[a|e] w']; reflexivity. Qed.

Lemma seq_Return {A B} (m : js_comp A) (f : A -> js_comp B) w a w' :
  m w = (Return a, w') -> seq m f w = f a w'.
Proof. unfold seq. now intros ->. Qed.

(** *** What throws *)

Lemma seq_lift_Throw {A B} (e : thrown) (f : A -> js_comp B) w :
  seq (lift (Throw e)) f w = (Throw e, w).
Proof. reflexivity. Qed.

Lemma seq_Throw {A B} (m : js_comp A) (f : A -> js_comp B) w e w' :
  m w = (Throw e, w') -> seq m f w = (Throw e, w').
Proof. unfold seq. now intros ->. Qed.

Lemma spread_readable h v :
  unreadable h v = false -> spread h v = Return (own_enumerable h v).
Proof. unfold unreadable, spread. destruct (deref h v); try discriminate; reflexivity. Qed.

Lemma spread_Return h v own :
  spread h v = Return own -> unreadable h v = false /\ own = own_enumerable h v.
Proof.
  unfold unreadable, spread.
  destruct (deref h v); try discriminate; intros H; injection H as <-; auto.
Qed.

Lemma spread_Throw h v e :
  spread h v = Throw e -> unreadable h v = true /\ deref h v = VThrowing e.
Proof.
  unfold unreadable, spread.
  destruct (deref h v); try discriminate. intros H. injection H as <-. auto.
Qed.

(** [sanitizeLogData] throws only what [String] throws on a value that
    the input makes the walk throw. *)
Lemma sanitizeLogData_Throw node_env h data e :
  sanitizeLogData node_env h data = Throw e ->
  escapes h data 10 = Some (Unprintable e).
Proof.
  rewrite sanitizeLogData_unfold.
  destruct (sanitizeObject node_env h data 10) as [v|e0] eqn:Hw; [discriminate|].
  apply walk_throws_iff in Hw. rewrite Hw.
  destruct e0; cbn [error_text]; try discriminate.
  intros H. now injection H as ->.
Qed.

Lemma sanitizeLogArgs_Throw node_env h args e :
  sanitizeLogArgs node_env h args = Throw e ->
  exists a, In a args /\ escapes h a 10 = Some (Unprintable e).
Proof.
  unfold sanitizeLogArgs. intros H.
  apply array_map_throw_elem in H. destruct H as [a [Hin Ha]].
  exists a. split; [exact Hin | now apply (sanitizeLogData_Throw node_env)].
Qed.

(* ------------------------------------------------------------------ *)
(** ** What [formatLogData] builds *)

Lemma own_enumerable_insert (h : heap) l o :
  own_enumerable (<[l := VObject o]> h) (VRef l) = o.
Proof.
  unfold own_enumerable, deref, heap, loc in *. now rewrite lookup_insert_eq.
Qed.

Lemma own_enumerable_insert_ne (h : heap) l l' v :
  l <> l' -> own_enumerable (<[l' := v]> h) (VRef l) = own_enumerable h (VRef l).
Proof.
  intros Hne. unfold own_enumerable, deref, heap, loc in *.
  rewrite lookup_insert_ne by congruence. reflexivity.
Qed.

Lemma sanitizeLogData_object node_env h es :
  sanitizeLogData node_env h (VObject es)
  = Return (VObject (sanitize_entries h
              (fun value => sanitizeObject node_env h value 9) es)).
Proof.
  apply sanitizeLogData_of_Return.
  now rewrite (sanitizeObject_entries node_env h _ es) by reflexivity.
Qed.

Lemma sanitizeLogArgs_nonempty node_env h a args sargs :
  sanitizeLogArgs node_env h (a :: args) = Return sargs ->
  exists v vs, sargs = v :: vs.
Proof.
  unfold sanitizeLogArgs. intros H. apply array_map_Return in H.
  inversion H; subst. eauto.
Qed.

Lemma array_map_of_Forall2 {A B} (f : A -> outcome B) l l' :
  Forall2 (fun x y => f x = Return y) l l' -> array_map f l = Return l'.
Proof.
  intros H. induction H as [|x y l l' Hxy _ IH]; cbn [array_map]; [reflexivity|].
  rewrite Hxy. cbn [bind]. rewrite IH. reflexivity.
Qed.

Section FormatFacts.
Variable rt : runtime.

(** What becomes of the arguments of a call, in the heap they are read
    in: they are all sanitized, or [sanitizeLogArgs] throws. *)
Lemma args_sanitized h args :
  (exists sargs,
     match args with
     | [] => sargs = []
     | _ :: _ => sanitizeLogArgs (process_env_NODE_ENV rt) h args = Return sargs
     end /\
     (args = [] <-> sargs = [])) \/
  (exists e, sanitizeLogArgs (process_env_NODE_ENV rt) h args = Throw e /\ args <> []).
Proof.
  destruct args as [|a args].
  - left. exists []. split; [reflexivity | tauto].
  - destruct (sanitizeLogArgs (process_env_NODE_ENV rt) h (a :: args)) as [sargs|e] eqn:E.
    + left. exists sargs. split; [reflexivity|].
      destruct (sanitizeLogArgs_nonempty _ _ _ _ _ E) as [v [vs ->]].
      split; discriminate.
    + right. exists e. split; [reflexivity | discriminate].
Qed.

(** A call whose context cannot be read throws what the getter throws,
    before anything is done. *)
Lemma formatLogData_unreadable l message context args w e :
  truthy (w_heap w) context = true ->
  spread (w_heap w) context = Throw e ->
  Structured.formatLogData rt l message context args w = (Throw e, w).
Proof.
  intros Ht Hs. unfold Structured.formatLogData.
  rewrite seq_get_heap. cbv beta. rewrite Ht, Hs.
  rewrite !seq_assoc. rewrite seq_lift_Throw. reflexivity.
Qed.

Lemma formatLogData_with_context l message context args w :
  truthy (w_heap w) context = true ->
  unreadable (w_heap w) context = false ->
  let sm := sanitized_merge (process_env_NODE_ENV rt) (w_heap w)
              (default_context_of l w) context in
  let h1 := <[w_next w := VObject sm]> (w_heap w) in
  forall sargs,
    match args with
    | [] => sargs = []
    | _ :: _ => sanitizeLogArgs (process_env_NODE_ENV rt) h1 args = Return sargs
    end ->
    Structured.formatLogData rt l message context args w
    = (Return (record_of message (with_additional sargs sm)),
       World (match sargs with
              | [] => h1
              | _ :: _ => <[w_next w := VObject (with_additional sargs sm)]> h1
              end)
             (S (w_next w)) (w_ticks w) (w_out w)).
Proof.
  intros Ht Hread sm h1 sargs Hs.
  unfold Structured.formatLogData.
  rewrite seq_get_heap. cbv beta. rewrite Ht, (spread_readable _ _ Hread).
  rewrite !seq_assoc. rewrite seq_lift_Return. cbv beta.
  rewrite seq_assoc. rewrite sanitizeLogData_object.
  rewrite seq_lift_Return. cbv beta. rewrite seq_alloc. cbv beta.
  rewrite seq_get_heap. cbv beta. cbn [w_heap w_next w_ticks w_out].
  fold (default_context_of l w).
  fold (sanitized_merge (process_env_NODE_ENV rt) (w_heap w) (default_context_of l w) context).
  fold sm. fold h1.
  destruct args as [|a args].
  - subst sargs. rewrite seq_ret. cbv beta iota.
    rewrite seq_ret. cbv beta. rewrite seq_get_heap. cbv beta.
    cbn [w_heap w_next w_ticks w_out]. unfold ret, h1.
    rewrite own_enumerable_insert. reflexivity.
  - rewrite Hs. rewrite seq_lift_Return. cbv beta.
    destruct (sanitizeLogArgs_nonempty _ _ _ _ _ Hs) as [v [vs ->]].
    cbv iota. rewrite seq_heap_set_prop. cbv beta.
    cbn [w_heap w_next w_ticks w_out].
    rewrite seq_get_heap. cbv beta. cbn [w_heap w_next w_ticks w_out].
    unfold ret. subst h1. rewrite !own_enumerable_insert. reflexivity.
Qed.

(** With a context that can be read, the only thing that throws is
    [sanitizeLogArgs]; the merge is in the heap by then. *)
Lemma formatLogData_with_context_throw l message context args w e :
  truthy (w_heap w) context = true ->
  unreadable (w_heap w) context = false ->
  let sm := sanitized_merge (process_env_NODE_ENV rt) (w_heap w)
              (default_context_of l w) context in
  let h1 := <[w_next w := VObject sm]> (w_heap w) in
  sanitizeLogArgs (process_env_NODE_ENV rt) h1 args = Throw e ->
  Structured.formatLogData rt l message context args w
  = (Throw e, World h1 (S (w_next w)) (w_ticks w) (w_out w)).
Proof.
  intros Ht Hread sm h1 Hs.
  unfold Structured.formatLogData.
  rewrite seq_get_heap. cbv beta. rewrite Ht, (spread_readable _ _ Hread).
  rewrite !seq_assoc. rewrite seq_lift_Return. cbv beta.
  rewrite seq_assoc. rewrite sanitizeLogData_object.
  rewrite seq_lift_Return. cbv beta. rewrite seq_alloc. cbv beta.
  rewrite seq_get_heap. cbv beta. cbn [w_heap w_next w_ticks w_out].
  fold (default_context_of l w).
  fold (sanitized_merge (process_env_NODE_ENV rt) (w_heap w) (default_context_of l w) context).
  fold sm. fold h1.
  destruct args as [|a args]; [discriminate|].
  rewrite Hs. rewrite seq_lift_Throw. reflexivity.
Qed.

Lemma formatLogData_without_context l message context args w :
  truthy (w_heap w) context = false ->
  forall sargs,
    match args with
    | [] => sargs = []
    | _ :: _ => sanitizeLogArgs (process_env_NODE_ENV rt) (w_heap w) args = Return sargs
    end ->
    Structured.formatLogData rt l message context args w
    = (Return (record_of message (with_additional sargs (default_context_of l w))),
       match sargs with
       | [] => w
       | _ :: _ =>
           World (<[Structured.defaultContext l :=
                      VObject (with_additional sargs (default_context_of l w))]> (w_heap w))
                 (w_next w) (w_ticks w) (w_out w)
       end).
Proof.
  intros Ht sargs Hs.
  unfold Structured.formatLogData.
  rewrite seq_get_heap. cbv beta. rewrite Ht.
  rewrite seq_ret. cbv beta. rewrite seq_get_heap. cbv beta.
  destruct args as [|a args].
  - subst sargs. rewrite seq_ret. cbv beta iota.
    rewrite seq_ret. cbv beta. rewrite seq_get_heap. cbv beta.
    unfold ret. reflexivity.
  - rewrite Hs. rewrite seq_lift_Return. cbv beta.
    destruct (sanitizeLogArgs_nonempty _ _ _ _ _ Hs) as [v [vs ->]].
    cbv iota. rewrite seq_heap_set_prop. cbv beta.
    rewrite seq_get_heap. cbv beta. cbn [w_heap w_next w_ticks w_out].
    unfold ret. rewrite own_enumerable_insert. reflexivity.
Qed.

Lemma formatLogData_without_context_throw l message context args w e :
  truthy (w_heap w) context = false ->
  sanitizeLogArgs (process_env_NODE_ENV rt) (w_heap w) args = Throw e ->
  Structured.formatLogData rt l message context args w = (Throw e, w).
Proof.
  intros Ht Hs.
  unfold Structured.formatLogData.
  rewrite seq_get_heap. cbv beta. rewrite Ht.
  rewrite seq_ret. cbv beta. rewrite seq_get_heap. cbv beta.
  destruct args as [|a args]; [discriminate|].
  rewrite Hs. rewrite seq_lift_Throw. destruct w; reflexivity.
Qed.

(** What a record that was built is made of. *)
Lemma formatLogData_with_context_inv l message context args w logData :
  truthy (w_heap w) context = true ->
  fst (Structured.formatLogData rt l message context args w) = Return logData ->
  let sm := sanitized_merge (process_env_NODE_ENV rt) (w_heap w)
              (default_context_of l w) context in
  unreadable (w_heap w) context = false /\
  exists sargs,
    match args with
    | [] => sargs = []
    | _ :: _ => sanitizeLogArgs (process_env_NODE_ENV rt)
                  (<[w_next w := VObject sm]> (w_heap w)) args = Return sargs
    end /\
    (args = [] <-> sargs = []) /\
    logData = record_of message (with_additional sargs sm).
Proof.
  intros Ht Hr sm.
  destruct (unreadable (w_heap w) context) eqn:Hread.
  { exfalso. unfold unreadable in Hread.
    destruct (deref (w_heap w) context) eqn:E; try discriminate.
    rewrite (formatLogData_unreadable l message context args w e Ht) in Hr;
      [discriminate|]. unfold spread. now rewrite E. }
  split; [reflexivity|].
  destruct (args_sanitized (<[w_next w := VObject sm]> (w_heap w)) args)
    as [[sargs [Hs Hnil]]|[e [Hs _]]].
  - exists sargs. split; [exact Hs|]. split; [exact Hnil|].
    rewrite (formatLogData_with_context l message context args w Ht Hread sargs Hs) in Hr.
    cbn [fst] in Hr. now injection Hr as <-.
  - rewrite (formatLogData_with_context_throw l message context args w e Ht Hread Hs) in Hr.
    discriminate.
Qed.

Lemma formatLogData_without_context_inv l message context args w logData :
  truthy (w_heap w) context = false ->
  fst (Structured.formatLogData rt l message context args w) = Return logData ->
  exists sargs,
    match args with
    | [] => sargs = []
    | _ :: _ => sanitizeLogArgs (process_env_NODE_ENV rt) (w_heap w) args = Return sargs
    end /\
    (args = [] <-> sargs = []) /\
    logData = record_of message (with_additional sargs (default_context_of l w)).
Proof.
  intros Ht Hr.
  destruct (args_sanitized (w_heap w) args) as [[sargs [Hs Hnil]]|[e [Hs _]]].
  - exists sargs. split; [exact Hs|]. split; [exact Hnil|].
    rewrite (formatLogData_without_context l message context args w Ht sargs Hs) in Hr.
    cbn [fst] in Hr. now injection Hr as <-.
  - rewrite (formatLogData_without_context_throw l message context args w e Ht Hs) in Hr.
    discriminate.
Qed.

(** [formatLogData] throws only what reading the context throws, or what
    [sanitizeLogArgs] throws. *)
Lemma formatLogData_Throw l message context args w e :
  fst (Structured.formatLogData rt l message context args w) = Throw e ->
  (truthy (w_heap w) context = true /\ spread (w_heap w) context = Throw e) \/
  exists h', sanitizeLogArgs (process_env_NODE_ENV rt) h' args = Throw e /\
             (h' = w_heap w \/ exists o, h' = <[w_next w := o]> (w_heap w)).
Proof.
  intros Hr.
  destruct (truthy (w_heap w) context) eqn:Ht.
  - destruct (spread (w_heap w) context) as [own|e'] eqn:Hs.
    + right. apply spread_Return in Hs. destruct Hs as [Hread _].
      eexists. split; [|right; eexists; reflexivity].
      destruct (args_sanitized
                  (<[w_next w := VObject (sanitized_merge (process_env_NODE_ENV rt) (w_heap w)
                                            (default_context_of l w) context)]> (w_heap w))
                  args) as [[sargs [Hs Hnil]]|[e' [Hs _]]].
      * rewrite (formatLogData_with_context l message context args w Ht Hread sargs Hs) in Hr.
        discriminate.
      * rewrite (formatLogData_with_context_throw l message context args w e' Ht Hread Hs)
          in Hr.
        cbn [fst] in Hr. injection Hr as <-. exact Hs.
    + left. split; [reflexivity|].
      rewrite (formatLogData_unreadable l message context args w e' Ht Hs) in Hr.
      cbn [fst] in Hr. now injection Hr as <-.
  - right. exists (w_heap w). split; [|now left].
    destruct (args_sanitized (w_heap w) args) as [[sargs [Hs Hnil]]|[e' [Hs _]]].
    + rewrite (formatLogData_without_context l message context args w Ht sargs Hs) in Hr.
      discriminate.
    + rewrite (formatLogData_without_context_throw l message context args w e' Ht Hs) in Hr.
      cbn [fst] in Hr. injection Hr as <-. exact Hs.
Qed.

End FormatFacts.

(* ------------------------------------------------------------------ *)
(** ** The records of the structured logger *)

Lemma pino_write_out lg lv record w :
  w_out (snd (Pino.write lg lv record w))
  = w_out w ++ (if Pino.enabled lg lv
                then [PinoWrite lv (Pino.bindings lg) record] else []).
Proof.
  unfold Pino.write. destruct (Pino.enabled lg lv); cbn [emit ret snd w_out].
  - reflexivity.
  - now rewrite app_nil_r.
Qed.

Lemma pino_write_next lg lv record w :
  w_next (snd (Pino.write lg lv record w)) = w_next w.
Proof. unfold Pino.write. destruct (Pino.enabled lg lv); reflexivity. Qed.

Lemma pino_write_returns lg lv record w : fst (Pino.write lg lv record w) = Return tt.
Proof. unfold Pino.write. destruct (Pino.enabled lg lv); reflexivity. Qed.

Section RecordFacts.
Variable rt : runtime.

Lemma log_at_step lv l message context args w logData w' :
  Structured.formatLogData rt l message context args w = (Return logData, w') ->
  Structured.log_at rt lv l message context args w
  = Pino.write (Structured.pino l) lv logData w'.
Proof. intros H. unfold Structured.log_at. now apply seq_Return. Qed.

Lemma log_at_Throw_step lv l message context args w e w' :
  Structured.formatLogData rt l message context args w = (Throw e, w') ->
  Structured.log_at rt lv l message context args w = (Throw e, w').
Proof. intros H. unfold Structured.log_at. now apply seq_Throw. Qed.

(** A call throws what [formatLogData] throws, and nothing else. *)
Lemma log_at_fst lv l message context args w :
  fst (Structured.log_at rt lv l message context args w)
  = match fst (Structured.formatLogData rt l message context args w) with
    | Return _ => Return tt
    | Throw e => Throw e
    end.
Proof.
  destruct (Structured.formatLogData rt l message context args w) as [[r|e] w'] eqn:E.
  - rewrite (log_at_step _ _ _ _ _ _ _ _ E). cbn [fst]. apply pino_write_returns.
  - rewrite (log_at_Throw_step _ _ _ _ _ _ _ _ E). reflexivity.
Qed.

(** A call with a context: what it leaves in the heap.  When the context
    cannot be read, nothing; otherwise one new object. *)
Lemma log_at_with_context_world lv l message context args w :
  truthy (w_heap w) context = true ->
  (w_heap (snd (Structured.log_at rt lv l message context args w)) = w_heap w /\
   w_next (snd (Structured.log_at rt lv l message context args w)) = w_next w) \/
  exists o,
    w_heap (snd (Structured.log_at rt lv l message context args w))
      = <[w_next w := o]> (w_heap w) /\
    w_next (snd (Structured.log_at rt lv l message context args w)) = S (w_next w).
Proof.
  intros Ht.
  destruct (spread (w_heap w) context) as [own|e] eqn:Hsp.
  - right. apply spread_Return in Hsp. destruct Hsp as [Hread _].
    destruct (args_sanitized rt
                (<[w_next w := VObject (sanitized_merge (process_env_NODE_ENV rt) (w_heap w)
                                          (default_context_of l w) context)]> (w_heap w))
                args) as [[sargs [Hs _]]|[e [Hs _]]].
    + rewrite (log_at_step lv l message context args w _ _
                 (formatLogData_with_context rt l message context args w Ht Hread sargs Hs)).
      rewrite pino_write_heap, pino_write_next. cbn [snd w_heap w_next].
      destruct sargs; eexists; split; try reflexivity.
      unfold heap, loc in *. now rewrite insert_insert_eq.
    + rewrite (log_at_Throw_step lv l message context args w _ _
                 (formatLogData_with_context_throw rt l message context args w e
                    Ht Hread Hs)).
      cbn [snd w_heap w_next]. eexists; split; reflexivity.
  - left.
    rewrite (log_at_Throw_step lv l message context args w _ _
               (formatLogData_unreadable rt l message context args w e Ht Hsp)).
    split; reflexivity.
Qed.

End RecordFacts.

(** X10. A level method of a StructuredLogger throws only what the caller's
    own objects throw: what a getter of the call context threw, which the
    spread lets through as it is, or what [String] threw on a value that
    is no Error and that a getter reached through an argument threw.  An
    invalid Date, a cycle or an Error thrown by a getter of an argument
    never make a call throw; and a call that throws has written
    nothing.  (The write of pino is taken not to throw.) *)
Theorem level_methods_throw_only_what_getters_throw
  (rt : runtime) (sl : Structured.StructuredLogger) (lv : pino_level_name)
  (message : str) (context : value) (args : list value) (w : world) (e : thrown) :
  fst (Structured.log_at rt lv sl message context args w) = Throw e ->
  ((truthy (w_heap w) context = true /\ deref (w_heap w) context = VThrowing e) \/
   (exists a h', In a args /\ escapes h' a 10 = Some (Unprintable e) /\
                 (h' = w_heap w \/ exists o, h' = <[w_next w := o]> (w_heap w)))) /\
  w_out (snd (Structured.log_at rt lv sl message context args w)) = w_out w.
Proof.
  intros H. rewrite log_at_fst in H.
  destruct (Structured.formatLogData rt sl message context args w) as [[r|e'] w'] eqn:E;
    cbn [fst] in H; [discriminate|].
  injection H as ->.
  split.
  - assert (Hf : fst (Structured.formatLogData rt sl message context args w) = Throw e)
      by now rewrite E.
    apply formatLogData_Throw in Hf. destruct Hf as [[Ht Hs]|[h' [Hs Hh]]].
    + left. split; [exact Ht|]. now apply spread_Throw in Hs.
    + right. apply sanitizeLogArgs_Throw in Hs. destruct Hs as [a [Hin Ha]]. eauto.
  - rewrite (log_at_Throw_step rt lv sl message context args w e w' E). cbn [snd].
    pose proof (silent_out _ w (formatLogData_silent rt sl message context args)) as Hout.
    now rewrite E in Hout.
Qed.

Lemma level_methods_throw_only_what_getters_throw_witness :
  let sl := Structured.Build (Pino.create (Pino.Level PInfo)) (js "M") 0%nat in
  let w := World (<[0%nat := VObject [(js "module", VStr (js "M"))]]> ∅) 1 0 [] in
  fst (Structured.log_at production_server PInfo sl (js "hello") throwing_getter [] w)
    = Throw null_prototype_object /\
  w_out (snd (Structured.log_at production_server PInfo sl (js "hello")
                throwing_getter [] w)) = [].
Proof.
  intros sl w.
  assert (H : fst (Structured.log_at production_server PInfo sl (js "hello")
                     throwing_getter [] w) = Throw null_prototype_object)
    by (vm_compute; reflexivity).
  split; [exact H|].
  destruct (level_methods_throw_only_what_getters_throw production_server sl PInfo
              (js "hello") throwing_getter [] w null_prototype_object H) as [_ Hout].
  exact Hout.
Defined.

(** X11. A call with a context leaves the default context of the instance
    as it was: the merge is a new object, and the arguments are stored
    into that one. *)
Theorem call_with_context_keeps_default_context
  (rt : runtime) (l : Structured.StructuredLogger) (lv : pino_level_name)
  (message : str) (context : value) (args : list value) (w : world) :
  (Structured.defaultContext l < w_next w)%nat ->
  truthy (w_heap w) context = true ->
  default_context_of l (snd (Structured.log_at rt lv l message context args w))
  = default_context_of l w.
Proof.
  intros Hl Ht.
  destruct (log_at_with_context_world rt lv l message context args w Ht)
    as [[Hh _]|[o [Hh _]]]; unfold default_context_of; rewrite Hh.
  - reflexivity.
  - apply own_enumerable_insert_ne. lia.
Qed.

Lemma call_with_context_keeps_default_context_witness :
  exists l w1,
    Structured.new production_server (js "M") [] (World ∅ 0 0 []) = (Return l, w1) /\
    default_context_of l
      (snd (Structured.info production_server l (js "first")
              (VObject [(js "user", VStr (js "ann"))]) [VStr (js "x")] w1))
    = default_context_of l w1.
Proof.
  eexists _, _. split; [reflexivity|].
  apply (call_with_context_keeps_default_context production_server _ PInfo).
  - cbn. lia.
  - reflexivity.
Defined.

(** X12. The façade never changes the default context of its structured
    backend: every call passes the context [{}], so whatever calls are
    made, with whatever arguments, the default context stays as it was. *)
Theorem facade_keeps_default_context
  (rt : runtime) (l : Console.Logger) (sl : Structured.StructuredLogger)
  (calls : list call) (w : world) :
  Console.structuredLogger l = Some sl ->
  (Structured.defaultContext sl < w_next w)%nat ->
  default_context_of sl (run_calls rt l calls w) = default_context_of sl w.
Proof.
  intros Hsl. revert w.
  induction calls as [|c calls IH]; intros w Hl; cbn [run_calls]; [reflexivity|].
  assert (Hstep : exists lv m a,
            do_call rt l c w = Structured.log_at rt lv sl m (VObject []) a w).
  { destruct c as [[] m a]; cbn [do_call];
      unfold Console.debug, Console.info, Console.warn, Console.error;
      rewrite Hsl; eauto. }
  destruct Hstep as [lv [m [a Hstep]]]. rewrite Hstep.
  destruct (log_at_with_context_world rt lv sl m (VObject []) a w eq_refl)
    as [[Hh Hn]|[o [Hh Hn]]].
  - rewrite IH by (rewrite Hn; lia).
    unfold default_context_of. now rewrite Hh.
  - rewrite IH by (rewrite Hn; lia).
    unfold default_context_of. rewrite Hh.
    apply own_enumerable_insert_ne. lia.
Qed.

Lemma facade_keeps_default_context_witness :
  exists l sl w1,
    Console.new production_server (js "M") (World ∅ 0 0 []) = (Return l, w1) /\
    Console.structuredLogger l = Some sl /\
    default_context_of sl
      (run_calls production_server l
         [Call Console.INFO (js "a") [VStr (js "x")]; Call Console.ERROR (js "b") []] w1)
    = default_context_of sl w1.
Proof.
  eexists _, _, _. split; [reflexivity|]. split; [reflexivity|].
  apply (facade_keeps_default_context production_server).
  - reflexivity.
  - cbn. lia.
Defined.

(** X13. A call without a context and without arguments writes the
    default context as it stands, unsanitized, under the message, and
    changes nothing in the heap. *)
Theorem call_without_context_writes_default_context
  (rt : runtime) (l : Structured.StructuredLogger) (lv : pino_level_name)
  (message : str) (context : value) (w : world) :
  truthy (w_heap w) context = false ->
  w_out (snd (Structured.log_at rt lv l message context [] w))
    = w_out w ++ (if Pino.enabled (Structured.pino l) lv
                  then [PinoWrite lv (Pino.bindings (Structured.pino l))
                          (record_of message (default_context_of l w))]
                  else []) /\
  w_heap (snd (Structured.log_at rt lv l message context [] w)) = w_heap w.
Proof.
  intros Ht.
  rewrite (log_at_step rt lv l message context [] w _ _
             (formatLogData_without_context rt l message context [] w Ht [] eq_refl)).
  cbn [with_additional]. rewrite pino_write_out, pino_write_heap. split; reflexivity.
Qed.

Lemma call_without_context_writes_default_context_witness :
  exists l w1,
    Structured.new production_server (js "M")
      [(js "auth", VStr (js "Bearer abc123"))] (World ∅ 0 0 []) = (Return l, w1) /\
    w_out (snd (Structured.log_at production_server PInfo l (js "hello") VUndefined [] w1))
      = [PinoWrite PInfo []
           (VObject [ (js "msg", VStr (js "hello"));
                      (js "module", VStr (js "M"));
                      (js "auth", VStr (js "Bearer abc123")) ])].
Proof.
  eexists _, _. split; [reflexivity|].
  match goal with
  | |- w_out (snd (Structured.log_at ?rt ?lv ?l ?m ?c [] ?w)) = _ =>
      destruct (call_without_context_writes_default_context rt l lv m c w eq_refl)
        as [H _]; rewrite H
  end.
  vm_compute. reflexivity.
Defined.

(** X14. A call without a context but with arguments stores the sanitized
    arguments into the default context of the instance, under
    [additionalData]; the other keys stay as they were.  (When
    [sanitizeLogArgs] throws, nothing is stored.) *)
Theorem arguments_without_context_go_to_default_context
  (rt : runtime) (l : Structured.StructuredLogger) (lv : pino_level_name)
  (message : str) (context : value) (a : value) (args sargs : list value) (w : world) :
  truthy (w_heap w) context = false ->
  sanitizeLogArgs (process_env_NODE_ENV rt) (w_heap w) (a :: args) = Return sargs ->
  default_context_of l (snd (Structured.log_at rt lv l message context (a :: args) w))
  = set_prop (js "additionalData") (VArray sargs) (default_context_of l w).
Proof.
  intros Ht Hs.
  rewrite (log_at_step rt lv l message context (a :: args) w _ _
             (formatLogData_without_context rt l message context (a :: args) w Ht
                sargs Hs)).
  destruct (sanitizeLogArgs_nonempty _ _ _ _ _ Hs) as [v [vs ->]].
  unfold default_context_of at 1. rewrite pino_write_heap. cbn [snd w_heap].
  rewrite own_enumerable_insert. reflexivity.
Qed.

Lemma arguments_without_context_go_to_default_context_witness :
  let l := Structured.Build (Pino.create (Pino.Level PInfo)) (js "M") 0%nat in
  let w1 := World (<[0%nat := VObject [(js "module", VStr (js "M"))]]> ∅) 1 0 [] in
  Structured.new production_server (js "M") [] (World ∅ 0 0 []) = (Return l, w1) /\
  default_context_of l
    (snd (Structured.log_at production_server PInfo l (js "first") VUndefined
            [VStr (js "Bearer abc123")] w1))
  = set_prop (js "additionalData") (VArray [VStr (js "Bearer [REDACTED]")])
      (default_context_of l w1).
Proof.
  intros l w1. split; [reflexivity|].
  apply (arguments_without_context_go_to_default_context production_server l PInfo
           (js "first") VUndefined (VStr (js "Bearer abc123")) []
           [VStr (js "Bearer [REDACTED]")] w1).
  - reflexivity.
  - vm_compute. reflexivity.
Defined.

(* ------------------------------------------------------------------ *)
(** ** The fields of a record *)

Lemma In_has_key k v (es : list (str * value)) : In (k, v) es -> has_key k es = true.
Proof.
  intros H. unfold has_key. apply existsb_exists. exists (k, v).
  split; [exact H | apply str_eqb_refl].
Qed.

Lemma wf_with_additional sargs o :
  wf_keys (keys o) -> wf_keys (keys (with_additional sargs o)).
Proof. destruct sargs; cbn [with_additional]; [auto | apply wf_set_prop]. Qed.

Lemma get_with_additional k sargs o :
  (k = js "additionalData" -> sargs = []) ->
  get_prop k (with_additional sargs o) = get_prop k o /\
  has_key k (with_additional sargs o) = has_key k o.
Proof.
  intros H. destruct sargs as [|v vs]; cbn [with_additional]; [tauto|].
  assert (Hne : k <> js "additionalData") by (intros E; specialize (H E); discriminate).
  split.
  - now apply get_set_prop_ne.
  - rewrite has_key_set_prop. now rewrite (str_eqb_neq _ _ Hne).
Qed.

Section LookupFacts.
Variable rt : runtime.

(** The record of a call with a context, read key by key: under a key
    of the merged context, the sanitized value of that key; under [msg],
    the message, when the merged context has no such key; and nothing
    under [__proto__]. *)
Lemma record_lookup l message context args w logData :
  truthy (w_heap w) context = true ->
  fst (Structured.formatLogData rt l message context args w) = Return logData ->
  let h := w_heap w in
  let merged := assign_props (object_literal (default_context_of l w))
                  (own_enumerable h context) in
  exists r,
    logData = VObject r /\
    (forall k v, In (k, v) merged -> is_function h v = false ->
                 k <> js "__proto__" ->
                 (k = js "additionalData" -> args = []) ->
                 get_prop k r
                 = entry_result (fun value =>
                     sanitizeObject (process_env_NODE_ENV rt) h value 9) v) /\
    (has_key (js "msg") merged = false -> get_prop (js "msg") r = VStr message) /\
    has_key (js "__proto__") r = false.
Proof.
  intros Ht Hr h merged.
  destruct (formatLogData_with_context_inv rt l message context args w logData Ht Hr)
    as [Hread [sargs [Hs [Hnil ->]]]].
  unfold record_of. eexists. split; [reflexivity|].
  assert (Hwfm : wf_keys (keys merged)).
  { unfold merged. apply wf_assign_props. apply wf_object_literal. }
  set (walk := fun value => sanitizeObject (process_env_NODE_ENV rt) h value 9).
  assert (Hsm : sanitized_merge (process_env_NODE_ENV rt) (w_heap w)
                  (default_context_of l w) context
                = sanitize_entries h walk merged) by reflexivity.
  rewrite Hsm.
  assert (Hwf' : wf_keys (keys (with_additional sargs (sanitize_entries h walk merged)))).
  { apply wf_with_additional. apply sanitize_entries_wf. }
  split; [|split].
  - intros k v Hin Hf Hp Hk.
    assert (Hk' : k = js "additionalData" -> sargs = []) by (intros E; apply Hnil; auto).
    destruct (get_with_additional k sargs (sanitize_entries h walk merged) Hk') as [Hg Hh].
    pose proof (get_sanitize_entries h walk merged k v Hwfm Hin Hf Hp) as Hv.
    assert (Hhas : has_key k (sanitize_entries h walk merged) = true).
    { rewrite sanitize_entries_map by assumption.
      apply (In_has_key k (entry_result walk v)).
      apply in_map_iff. exists (k, v). split; [reflexivity|].
      apply filter_In. split; [exact Hin|]. unfold kept. cbn [fst snd].
      now rewrite Hf, (str_eqb_neq _ _ Hp). }
    rewrite get_assign_props_present; [| exact Hwf' | now rewrite Hh].
    now rewrite Hg.
  - intros Hmsg.
    rewrite get_assign_props_absent; [vm_compute; reflexivity|].
    destruct (get_with_additional (js "msg") sargs (sanitize_entries h walk merged))
      as [_ Hh]; [discriminate|].
    rewrite Hh.
    destruct (has_key (js "msg") (sanitize_entries h walk merged)) eqn:E; [|reflexivity].
    apply has_key_sanitize_entries in E; [congruence | exact Hwfm].
  - rewrite has_key_assign_props.
    destruct (get_with_additional (js "__proto__") sargs (sanitize_entries h walk merged))
      as [_ Hh]; [discriminate|].
    rewrite Hh, sanitize_entries_no_proto. reflexivity.
Qed.

End LookupFacts.

(** X15. In the record of a call with a context the call-supplied keys
    win.  A key of the call context holds the sanitized value the call
    gave it, [msg] included, which then takes the place of the message; a
    key only the default context has holds the sanitized default; and
    [msg] holds the message when neither context has that key.  The one
    key that does not come through is [__proto__]: the record never has
    it as an own key, whichever context had it.  (The key
    [additionalData] is the arguments' when there are arguments.) *)
Theorem record_fields_with_context
  (rt : runtime) (l : Structured.StructuredLogger) (message : str)
  (context : value) (args : list value) (w : world) (logData : value) :
  truthy (w_heap w) context = true ->
  wf_keys (keys (own_enumerable (w_heap w) context)) ->
  wf_keys (keys (default_context_of l w)) ->
  fst (Structured.formatLogData rt l message context args w) = Return logData ->
  let h := w_heap w in
  let walk := fun value => sanitizeObject (process_env_NODE_ENV rt) h value 9 in
  exists r,
    logData = VObject r /\
    (forall k v, In (k, v) (own_enumerable h context) -> is_function h v = false ->
                 k <> js "__proto__" ->
                 (k = js "additionalData" -> args = []) ->
                 get_prop k r = entry_result walk v) /\
    (forall k v, In (k, v) (default_context_of l w) ->
                 has_key k (own_enumerable h context) = false ->
                 is_function h v = false ->
                 k <> js "__proto__" ->
                 (k = js "additionalData" -> args = []) ->
                 get_prop k r = entry_result walk v) /\
    (has_key (js "msg") (own_enumerable h context) = false ->
     has_key (js "msg") (default_context_of l w) = false ->
     get_prop (js "msg") r = VStr message) /\
    has_key (js "__proto__") r = false.
Proof.
  intros Ht Hwc Hwd Hret h walk.
  destruct (record_lookup rt l message context args w logData Ht Hret)
    as [r [Hr [Hkey [Hmsg Hproto]]]].
  exists r. split; [exact Hr|].
  set (merged := assign_props (object_literal (default_context_of l w))
                   (own_enumerable h context)) in *.
  assert (Hlit : forall k, get_prop k (object_literal (default_context_of l w))
                           = get_prop k (default_context_of l w) /\
                           has_key k (object_literal (default_context_of l w))
                           = has_key k (default_context_of l w)).
  { intros k. unfold object_literal. rewrite has_key_assign_props. cbn [has_key existsb orb].
    split; [|reflexivity].
    destruct (has_key k (default_context_of l w)) eqn:E.
    - apply get_assign_props_present; [exact Hwd | exact E].
    - rewrite get_assign_props_absent by exact E.
      rewrite (get_prop_absent k (default_context_of l w)) by exact E.
      reflexivity. }
  split; [|split; [|split]].
  - intros k v Hin Hf Hp Hk. apply Hkey; [|assumption|assumption|assumption].
    assert (Hhas : has_key k (own_enumerable h context) = true) by (eapply In_has_key; eauto).
    assert (Hg : get_prop k merged = v).
    { unfold merged. rewrite get_assign_props_present by assumption.
      now apply get_prop_In. }
    rewrite <- Hg. apply In_get_prop.
    unfold merged. rewrite has_key_assign_props.
    apply orb_true_iff. right. exact Hhas.
  - intros k v Hin Hnot Hf Hp Hk. apply Hkey; [|assumption|assumption|assumption].
    assert (Hhas : has_key k (default_context_of l w) = true) by (eapply In_has_key; eauto).
    destruct (Hlit k) as [Hl1 Hl2].
    assert (Hg : get_prop k merged = v).
    { unfold merged. rewrite get_assign_props_absent by assumption.
      rewrite Hl1. now apply get_prop_In. }
    rewrite <- Hg. apply In_get_prop.
    unfold merged. rewrite has_key_assign_props.
    apply orb_true_iff. left. rewrite Hl2. exact Hhas.
  - intros H1 H2. apply Hmsg.
    unfold merged. rewrite has_key_assign_props. destruct (Hlit (js "msg")) as [_ Hl2].
    apply orb_false_iff. split; [rewrite Hl2; exact H2 | exact H1].
  - exact Hproto.
Qed.

Lemma record_fields_with_context_witness :
  let l := Structured.Build (Pino.create (Pino.Level PInfo)) (js "M") 0%nat in
  let w1 := World (<[0%nat := VObject [ (js "module", VStr (js "M"));
                                        (js "requestId", VStr (js "r-1")) ]]> ∅) 1 0 [] in
  let context := VObject [ (js "auth", VStr (js "Bearer abc123"));
                           (js "__proto__", VObject [(js "admin", VBool true)]) ] in
  Structured.new production_server (js "M") [(js "requestId", VStr (js "r-1"))]
    (World ∅ 0 0 []) = (Return l, w1) /\
  exists r,
    fst (Structured.formatLogData production_server l (js "hello") context [] w1)
      = Return (VObject r) /\
    get_prop (js "auth") r = VStr (js "Bearer [REDACTED]") /\
    get_prop (js "requestId") r = VStr (js "r-1") /\
    get_prop (js "msg") r = VStr (js "hello") /\
    has_key (js "__proto__") r = false.
Proof.
  intros l w1 context. split; [reflexivity|].
  assert (Hwc : wf_keys (keys (own_enumerable (w_heap w1) context))).
  { cbn [context own_enumerable deref keys map fst wf_keys].
    repeat split; repeat constructor; try discriminate. }
  assert (Hwd : wf_keys (keys (default_context_of l w1))).
  { replace (default_context_of l w1)
      with [ (js "module", VStr (js "M")); (js "requestId", VStr (js "r-1")) ]
      by (vm_compute; reflexivity).
    cbn [keys map fst wf_keys].
    repeat split; repeat constructor; try discriminate. }
  destruct (Structured.formatLogData production_server l (js "hello") context [] w1)
    as [[logData|e] w2] eqn:E; [|vm_compute in E; discriminate].
  destruct (record_fields_with_context production_server l (js "hello")
              context [] w1 logData eq_refl Hwc Hwd)
    as [r [Hr [Hc [Hd [Hm Hp]]]]]; [now rewrite E|].
  exists r. cbn [fst]. split; [now rewrite Hr|]. split; [|split; [|split]].
  - rewrite (Hc (js "auth") (VStr (js "Bearer abc123"))).
    + vm_compute. reflexivity.
    + now left.
    + reflexivity.
    + discriminate.
    + discriminate.
  - rewrite (Hd (js "requestId") (VStr (js "r-1"))).
    + vm_compute. reflexivity.
    + vm_compute. tauto.
    + reflexivity.
    + reflexivity.
    + discriminate.
    + discriminate.
  - apply Hm; reflexivity.
  - exact Hp.
Defined.

(* ------------------------------------------------------------------ *)
(** ** The helper methods *)

Section HelperFacts.
Variable rt : runtime.

(** What a call writes: one record when the level passes and
    [formatLogData] returned, nothing when it threw. *)
Lemma log_at_out_cases lv l message context args w :
  w_out (snd (Structured.log_at rt lv l message context args w))
  = w_out w ++
    match fst (Structured.formatLogData rt l message context args w) with
    | Return r =>
        if Pino.enabled (Structured.pino l) lv
        then [PinoWrite lv (Pino.bindings (Structured.pino l)) r] else []
    | Throw _ => []
    end.
Proof.
  pose proof (silent_out _ w (formatLogData_silent rt l message context args)) as Hout.
  destruct (Structured.formatLogData rt l message context args w) as [[r|e] w'] eqn:E;
    cbn [fst snd] in *.
  - rewrite (log_at_step rt lv l message context args w r w' E).
    now rewrite pino_write_out, Hout.
  - rewrite (log_at_Throw_step rt lv l message context args w e w' E).
    cbn [snd]. now rewrite app_nil_r.
Qed.

Lemma log_at_out lv l message context args w r :
  fst (Structured.formatLogData rt l message context args w) = Return r ->
  w_out (snd (Structured.log_at rt lv l message context args w))
  = w_out w ++ (if Pino.enabled (Structured.pino l) lv
                then [PinoWrite lv (Pino.bindings (Structured.pino l)) r] else []).
Proof. intros Hr. now rewrite log_at_out_cases, Hr. Qed.

(** A call with an object literal as context and no arguments builds
    its record. *)
Lemma literal_context_returns l message props w :
  exists logData,
    fst (Structured.formatLogData rt l message (VObject props) [] w) = Return logData.
Proof.
  eexists.
  now rewrite (formatLogData_with_context rt l message (VObject props) [] w
                 eq_refl eq_refl [] eq_refl).
Qed.

(** The fields a helper puts after the spread of the caller's context
    are in the record, sanitized, whatever the two contexts hold. *)
Lemma helper_record lv l message (ctxprops fields : list (str * value)) w :
  wf_keys (keys fields) ->
  Forall (fun kv => fst kv <> js "additionalData" /\ fst kv <> js "__proto__" /\
                    is_function (w_heap w) (snd kv) = false) fields ->
  exists r,
    w_out (snd (Structured.log_at rt lv l message
                  (VObject (assign_props (object_literal ctxprops) fields)) [] w))
    = w_out w ++ (if Pino.enabled (Structured.pino l) lv
                  then [PinoWrite lv (Pino.bindings (Structured.pino l)) (VObject r)]
                  else []) /\
    Forall (fun kv =>
              get_prop (fst kv) r
              = entry_result (fun value =>
                  sanitizeObject (process_env_NODE_ENV rt) (w_heap w) value 9) (snd kv))
           fields.
Proof.
  intros Hwf Hfields.
  set (X := assign_props (object_literal ctxprops) fields).
  destruct (literal_context_returns l message X w) as [logData Hret].
  destruct (record_lookup rt l message (VObject X) [] w logData eq_refl Hret)
    as [r [-> [Hkey _]]].
  exists r. split; [now apply log_at_out|].
  apply Forall_forall. intros [k v] Hin. apply list_elem_of_In in Hin. cbn [fst snd].
  rewrite Forall_forall in Hfields.
  destruct (Hfields (k, v) ltac:(now apply list_elem_of_In)) as [Hne [Hp Hf]].
  cbn [fst snd] in *.
  apply Hkey; [|exact Hf|exact Hp|intros E; contradiction].
  cbn [own_enumerable deref].
  assert (HX : wf_keys (keys X)) by (apply wf_assign_props, wf_object_literal).
  assert (Hhas : has_key k X = true).
  { unfold X. rewrite has_key_assign_props. apply orb_true_iff. right.
    eapply In_has_key; eauto. }
  assert (Hg : get_prop k X = v).
  { unfold X. rewrite get_assign_props_present; [|exact Hwf|eapply In_has_key; eauto].
    now apply get_prop_In. }
  set (M := assign_props (object_literal (default_context_of l w)) X).
  assert (HgM : get_prop k M = v).
  { unfold M. rewrite get_assign_props_present; assumption. }
  rewrite <- HgM. apply In_get_prop.
  unfold M. rewrite has_key_assign_props. apply orb_true_iff. now right.
Qed.

End HelperFacts.

Lemma shown_query_length query : (length (Structured.shown_query query) <= 203)%nat.
Proof.
  unfold Structured.shown_query.
  destruct (Nat.ltb 200 (length query)) eqn:E.
  - rewrite length_app, length_firstn. cbn [length js map list_ascii_of_string]. lia.
  - apply Nat.ltb_ge in E. lia.
Qed.

(** X16. [logQuery], given a context that can be read (or none), writes
    at level debug, so only where pino lets debug through.  The record
    holds under [query] the redacted query, cut to 200 code units and
    three dots before it is redacted, and under [performance] the
    duration, or [undefined] when the duration is 0 or missing; neither
    the caller's context nor the default context can put something else
    under these keys. *)
Theorem logQuery_record (rt : runtime) (l : Structured.StructuredLogger)
  (query : str) (duration context : value) (w : world) :
  unreadable (w_heap w) context = false ->
  exists r,
    w_out (snd (Structured.logQuery rt l query duration context w))
    = w_out w ++ (if Pino.enabled (Structured.pino l) PDebug
                  then [PinoWrite PDebug (Pino.bindings (Structured.pino l)) (VObject r)]
                  else []) /\
    get_prop (js "query") r = VStr (sanitizeString (Structured.shown_query query)) /\
    (length (Structured.shown_query query) <= 203)%nat /\
    get_prop (js "performance") r
    = if truthy (w_heap w) duration
      then entry_result (fun value =>
             sanitizeObject (process_env_NODE_ENV rt) (w_heap w) value 9)
             (VObject [(js "duration", duration)])
      else VUndefined.
Proof.
  intros Hread.
  unfold Structured.logQuery. rewrite seq_get_heap. cbv beta.
  rewrite (spread_readable _ _ Hread). rewrite seq_lift_Return. cbv beta.
  unfold Structured.debug.
  destruct (helper_record rt PDebug l (js "Database Query")
              (own_enumerable (w_heap w) context)
              [ (js "query", VStr (Structured.shown_query query));
                (js "performance", Structured.performance_of (w_heap w) duration) ] w)
    as [r [Hout Hf]].
  - cbn [keys map fst wf_keys]. repeat split; repeat constructor; discriminate.
  - repeat constructor; cbn [fst snd]; try discriminate.
    unfold Structured.performance_of. destruct (truthy (w_heap w) duration); reflexivity.
  - exists r. split; [exact Hout|].
    inversion Hf as [|? ? Hq Hf']; subst. inversion Hf' as [|? ? Hp _]; subst.
    cbn [fst snd] in Hq, Hp.
    split; [exact Hq|]. split; [apply shown_query_length|].
    rewrite Hp. unfold Structured.performance_of.
    destruct (truthy (w_heap w) duration); reflexivity.
Qed.

Lemma logQuery_record_witness :
  let l := Structured.Build (Pino.create (Pino.Level PDebug)) (js "db") 0%nat in
  let w := World (<[0%nat := VObject [(js "module", VStr (js "db"))]]> ∅) 1 0 [] in
  exists r,
    w_out (snd (Structured.logQuery production_server l
                  (js "select 1 -- Bearer abc123") (VNum 12)
                  (VObject [(js "query", VStr (js "mine"))]) w))
    = [PinoWrite PDebug [] (VObject r)] /\
    get_prop (js "query") r = VStr (js "select 1 -- Bearer [REDACTED]").
Proof.
  intros l w.
  destruct (logQuery_record production_server l (js "select 1 -- Bearer abc123")
              (VNum 12) (VObject [(js "query", VStr (js "mine"))]) w eq_refl)
    as [r [Hout [Hq _]]].
  exists r. split; [exact Hout|]. rewrite Hq. vm_compute. reflexivity.
Defined.

(** X17. [logExternalCall], given a context that can be read (or none),
    writes at level info.  The record holds under [url] and [method] the
    redacted url and method, so the password of a connection string
    given as url is masked; neither context can put something else under
    these keys. *)
Theorem logExternalCall_record (rt : runtime) (l : Structured.StructuredLogger)
  (url method : str) (statusCode duration context : value) (w : world) :
  unreadable (w_heap w) context = false ->
  exists r,
    w_out (snd (Structured.logExternalCall rt l url method statusCode duration context w))
    = w_out w ++ (if Pino.enabled (Structured.pino l) PInfo
                  then [PinoWrite PInfo (Pino.bindings (Structured.pino l)) (VObject r)]
                  else []) /\
    get_prop (js "url") r = VStr (sanitizeString url) /\
    get_prop (js "method") r = VStr (sanitizeString method).
Proof.
  intros Hread.
  unfold Structured.logExternalCall. rewrite seq_get_heap. cbv beta.
  rewrite (spread_readable _ _ Hread). rewrite seq_lift_Return. cbv beta.
  unfold Structured.info.
  set (fields := [ (js "url", VStr url); (js "method", VStr method);
                   (js "statusCode", statusCode);
                   (js "performance", Structured.performance_of (w_heap w) duration) ]).
  set (X := assign_props (object_literal (own_enumerable (w_heap w) context)) fields).
  destruct (literal_context_returns rt l (js "External API Call") X w) as [logData Hret].
  destruct (record_lookup rt l (js "External API Call") (VObject X) [] w logData
              eq_refl Hret) as [r [-> [Hkey _]]].
  exists r. split; [now apply log_at_out|].
  cbn [own_enumerable deref] in Hkey.
  assert (HX : wf_keys (keys X)) by (apply wf_assign_props, wf_object_literal).
  assert (Hwf : wf_keys (keys fields)).
  { cbn [fields keys map fst wf_keys]. repeat split; repeat constructor; discriminate. }
  assert (Hin : forall k v, In (k, v) fields ->
            In (k, v) (assign_props (object_literal (default_context_of l w)) X)).
  { intros k v Hkv.
    assert (Hhas : has_key k X = true).
    { unfold X. rewrite has_key_assign_props. apply orb_true_iff. right.
      eapply In_has_key; eauto. }
    assert (Hg : get_prop k X = v).
    { unfold X. rewrite get_assign_props_present; [|exact Hwf|eapply In_has_key; eauto].
      now apply get_prop_In. }
    assert (HgM : get_prop k (assign_props (object_literal (default_context_of l w)) X) = v).
    { rewrite get_assign_props_present; assumption. }
    rewrite <- HgM at 1. apply In_get_prop.
    rewrite has_key_assign_props. apply orb_true_iff. now right. }
  split.
  - rewrite (Hkey (js "url") (VStr url));
      [reflexivity | | reflexivity | discriminate | discriminate].
    apply Hin. cbn [fields In]. tauto.
  - rewrite (Hkey (js "method") (VStr method));
      [reflexivity | | reflexivity | discriminate | discriminate].
    apply Hin. cbn [fields In]. tauto.
Qed.

Lemma logExternalCall_record_witness :
  let l := Structured.Build (Pino.create (Pino.Level PInfo)) (js "api") 0%nat in
  let w := World (<[0%nat := VObject [(js "module", VStr (js "api"))]]> ∅) 1 0 [] in
  exists r,
    w_out (snd (Structured.logExternalCall production_server l
                  (js "postgresql://ann:hunter2@db/x") (js "GET") (VNum 200) VUndefined
                  VUndefined w))
    = [PinoWrite PInfo [] (VObject r)] /\
    get_prop (js "url") r = VStr (js "postgresql://ann:[REDACTED]@db/x").
Proof.
  intros l w.
  destruct (logExternalCall_record production_server l
              (js "postgresql://ann:hunter2@db/x") (js "GET") (VNum 200) VUndefined
              VUndefined w eq_refl) as [r [Hout [Hu _]]].
  exists r. split; [exact Hout|]. rewrite Hu. vm_compute. reflexivity.
Defined.

(* ------------------------------------------------------------------ *)
(** ** Levels and environments *)

Section EnvironmentFacts.
Variable rt : runtime.

Lemma config_cases :
  (Console.ENV rt = js "production" /\
   Console.config rt = Console.LogConfig true Console.INFO false true) \/
  (Console.ENV rt <> js "production" /\ Console.enabled (Console.config rt) = false) \/
  (Console.ENV rt <> js "production" /\
   Console.config rt = Console.LogConfig true Console.DEBUG true false).
Proof.
  unfold Console.config, Console.LOG_CONFIG. cbn [Console.lookup_config].
  destruct (str_eqb (Console.ENV rt) (js "development")) eqn:Hd.
  { right. right. split; [|reflexivity].
    intros E. rewrite E in Hd. vm_compute in Hd. discriminate. }
  destruct (str_eqb (Console.ENV rt) (js "production")) eqn:Hp.
  { left. split; [now apply str_eqb_eq | reflexivity]. }
  assert (Hne : Console.ENV rt <> js "production").
  { intros E. rewrite E in Hp. vm_compute in Hp. discriminate. }
  destruct (str_eqb (Console.ENV rt) (js "test")).
  { right. left. split; [exact Hne | reflexivity]. }
  destruct (existsb (str_eqb (Console.ENV rt)) Console.OBJECT_PROTOTYPE_KEYS).
  - right. left. split; [exact Hne | reflexivity].
  - right. right. split; [exact Hne | reflexivity].
Qed.

Lemma new_cases module w l w1 :
  Console.new rt module w = (Return l, w1) ->
  (Console.isServerSide rt && Console.useStructured (Console.config rt) = true /\
   exists sl, Console.structuredLogger l = Some sl) \/
  (Console.isServerSide rt && Console.useStructured (Console.config rt) = false /\
   l = Console.Build module None /\ w1 = w).
Proof.
  unfold Console.new.
  destruct (Console.isServerSide rt && Console.useStructured (Console.config rt)).
  - unfold seq, Structured.createStructuredLogger, Structured.new, alloc, ret.
    cbv beta iota. intros H. injection H as H _. subst l. left. split; [reflexivity|].
    eexists. reflexivity.
  - unfold ret. intros H. injection H as H1 H2. subst. right. auto.
Qed.

End EnvironmentFacts.

(** X18. The branch of [log] that writes the prefix without colours never
    runs: whenever a Logger writes to the console, the configuration in
    force has [colorize] set.  (The configurations without colours are
    those of production, which logs through the structured backend on
    the server and is silent in the browser, and of test, which is
    disabled.) *)
Theorem console_output_is_always_colorized
  (rt : runtime) (module : str) (w : world) (l : Console.Logger) (w1 : world)
  (level : Console.LogLevel) :
  Console.new rt module w = (Return l, w1) ->
  Console.structuredLogger l = None ->
  Console.shouldLog rt level = true ->
  Console.colorize (Console.config rt) = true.
Proof.
  intros Hnew Hnone Hlog.
  destruct (new_cases rt module w l w1 Hnew) as [[_ [sl Hsl]]|[Hb _]]; [congruence|].
  unfold Console.shouldLog, Console.shouldLogInEnvironment in Hlog.
  destruct (config_cases rt) as [[He Hc]|[[Hne Hc]|[Hne Hc]]].
  - rewrite He, Hc in *. rewrite str_eqb_refl in Hlog.
    cbn [Console.useStructured] in Hb. rewrite andb_true_r in Hb.
    rewrite Hb in Hlog. discriminate.
  - rewrite (str_eqb_neq _ _ Hne), Hc in Hlog. discriminate.
  - rewrite Hc. reflexivity.
Qed.

Lemma console_output_is_always_colorized_witness :
  let rt := Runtime (Some (js "staging")) None true (fun _ => []) (fun _ s => s)
              (fun _ _ _ => Return VUndefined) in
  Console.colorize (Console.config rt) = true.
Proof.
  intros rt.
  apply (console_output_is_always_colorized rt (js "M") (World ∅ 0 0 [])
           (Console.Build (js "M") None) (World ∅ 0 0 []) Console.WARN);
    reflexivity.
Defined.

(** X19. In production a Logger built in the browser writes nothing and
    changes nothing, whatever is called on it. *)
Theorem production_browser_is_silent
  (rt : runtime) (module : str) (w : world) (l : Console.Logger) (w1 : world)
  (calls : list call) :
  env_NODE_ENV rt = Some (js "production") ->
  window_defined rt = true ->
  Console.new rt module w = (Return l, w1) ->
  Console.structuredLogger l = None /\ run_calls rt l calls w1 = w.
Proof.
  intros He Hw Hnew.
  assert (HENV : Console.ENV rt = js "production").
  { unfold Console.ENV. rewrite He. reflexivity. }
  assert (Hlog : forall level, Console.shouldLog rt level = false).
  { intros level. unfold Console.shouldLog, Console.shouldLogInEnvironment,
      Console.isServerSide. rewrite HENV, Hw. reflexivity. }
  destruct (new_cases rt module w l w1 Hnew) as [[Hb _]|[_ [-> ->]]].
  { unfold Console.isServerSide in Hb. rewrite Hw in Hb. discriminate. }
  split; [reflexivity|].
  revert w Hnew. induction calls as [|c calls IH]; intros w Hnew; cbn [run_calls];
    [reflexivity|].
  replace (do_call rt (Console.Build module None) c w) with (Return tt, w).
  - cbn [snd]. now apply IH.
  - destruct c as [[] m a]; cbn [do_call];
      unfold Console.debug, Console.info, Console.warn, Console.error;
      cbn [Console.structuredLogger]; unfold Console.log;
      rewrite Hlog; reflexivity.
Qed.

Lemma production_browser_is_silent_witness :
  let rt := Runtime (Some (js "production")) None true (fun _ => []) (fun _ s => s)
              (fun _ _ _ => Return VUndefined) in
  run_calls rt (Console.Build (js "M") None)
    [Call Console.ERROR (js "boom") [VStr (js "x")]] (World ∅ 0 0 []) = World ∅ 0 0 [].
Proof.
  intros rt.
  apply (production_browser_is_silent rt (js "M") (World ∅ 0 0 [])
           (Console.Build (js "M") None) (World ∅ 0 0 [])); reflexivity.
Defined.

(** X20. A StructuredLogger writes at most one record per call, at the
    level of the method and with what [formatLogData] built, and it
    writes it only when the level passes the level of the environment:
    nothing under test, from debug up in development, from info up in
    every other environment.  A call in which [formatLogData] throws
    writes nothing. *)
Theorem structured_level_gate
  (rt : runtime) (module : str) (context0 : list (str * value)) (w0 : world)
  (l : Structured.StructuredLogger) (w1 : world)
  (lv : pino_level_name) (message : str) (context : value) (args : list value)
  (w : world) :
  Structured.new rt module context0 w0 = (Return l, w1) ->
  w_out (snd (Structured.log_at rt lv l message context args w))
  = w_out w ++
    match fst (Structured.formatLogData rt l message context args w) with
    | Return logData =>
        if (if env_is (env_NODE_ENV rt) "test" then false
            else if env_is (env_NODE_ENV rt) "development"
                 then (20 <=? Pino.level_value lv)%Z
                 else (30 <=? Pino.level_value lv)%Z)
        then [PinoWrite lv [] logData] else []
    | Throw _ => []
    end.
Proof.
  intros Hnew.
  rewrite log_at_out_cases.
  unfold Structured.new, seq, alloc, ret in Hnew. injection Hnew as <- _.
  cbn [Structured.pino Pino.create Pino.bindings Pino.enabled Pino.level].
  unfold Structured.getLoggerConfig.
  destruct (fst (Structured.formatLogData rt _ message context args w)); [|reflexivity].
  destruct (env_is (env_NODE_ENV rt) "test"); [reflexivity|].
  destruct (env_is (env_NODE_ENV rt) "development"); reflexivity.
Qed.

Lemma structured_level_gate_witness :
  let l := Structured.Build (Pino.create (Pino.Level PInfo)) (js "M") 0%nat in
  let w := World (<[0%nat := VObject [(js "module", VStr (js "M"))]]> ∅) 1 0 [] in
  w_out (snd (Structured.log_at production_server PDebug l (js "hello") VUndefined [] w))
    = [] /\
  w_out (snd (Structured.log_at production_server PWarn l (js "hello") VUndefined [] w))
    = [PinoWrite PWarn [] (VObject [ (js "msg", VStr (js "hello"));
                                     (js "module", VStr (js "M")) ])] /\
  w_out (snd (Structured.log_at production_server PWarn l (js "hello") throwing_getter [] w))
    = [].
Proof.
  intros l w.
  pose proof (fun lv ctx =>
    structured_level_gate production_server (js "M") [] (World ∅ 0 0 []) l w
      lv (js "hello") ctx [] w eq_refl) as H.
  split; [|split].
  - rewrite (H PDebug VUndefined). vm_compute. reflexivity.
  - rewrite (H PWarn VUndefined). vm_compute. reflexivity.
  - rewrite (H PWarn throwing_getter). vm_compute. reflexivity.
Defined.

(** X21. [logWithLevel] with one of the six numbers of the enum does what
    the method of that level does; with any other number it logs at
    info. *)
Theorem logWithLevel_dispatch (rt : runtime) (l : Structured.StructuredLogger)
  (level : Z) (message : str) (context : value) (args : list value) (w : world) :
  Structured.logWithLevel rt level l message context args w
  = Structured.log_at rt
      (if (level =? 10)%Z then PTrace
       else if (level =? 20)%Z then PDebug
       else if (level =? 40)%Z then PWarn
       else if (level =? 50)%Z then PError
       else if (level =? 60)%Z then PFatal
       else PInfo)
      l message context args w.
Proof.
  unfold Structured.logWithLevel, Structured.log_at.
  destruct (level =? 10)%Z eqn:E1; [reflexivity|].
  destruct (level =? 20)%Z eqn:E2; [reflexivity|].
  destruct (level =? 30)%Z eqn:E3.
  - apply Z.eqb_eq in E3. subst level. reflexivity.
  - destruct (level =? 40)%Z; [reflexivity|].
    destruct (level =? 50)%Z; [reflexivity|].
    destruct (level =? 60)%Z; reflexivity.
Qed.

(** X22. In production [debug] writes nothing, on the server (where pino
    lets through info and above) as in the browser. *)
Theorem production_drops_debug
  (rt : runtime) (module : str) (w : world) (l : Console.Logger) (w1 : world)
  (message : str) (args : list value) (w2 : world) :
  env_NODE_ENV rt = Some (js "production") ->
  Console.new rt module w = (Return l, w1) ->
  w_out (snd (Console.debug rt l message args w2)) = w_out w2.
Proof.
  intros He Hnew.
  assert (HENV : Console.ENV rt = js "production").
  { unfold Console.ENV. rewrite He. reflexivity. }
  assert (Hcfg : Console.config rt = Console.LogConfig true Console.INFO false true).
  { unfold Console.config. rewrite HENV. reflexivity. }
  unfold Console.debug, Console.new in *.
  rewrite Hcfg in Hnew. cbn [Console.useStructured] in Hnew. rewrite andb_true_r in Hnew.
  destruct (Console.isServerSide rt).
  - unfold seq, Structured.createStructuredLogger, Structured.new, alloc, ret in Hnew.
    cbv beta iota in Hnew. injection Hnew as <- _. cbn [Console.structuredLogger].
    unfold Structured.debug.
    rewrite log_at_out_cases.
    cbn [Structured.pino Pino.create Pino.enabled Pino.level].
    unfold Structured.getLoggerConfig, env_is. rewrite He.
    destruct (fst (Structured.formatLogData rt _ message (VObject []) args w2));
      cbn; now rewrite app_nil_r.
  - unfold ret in Hnew. injection Hnew as <- _. cbn [Console.structuredLogger].
    unfold Console.log, Console.shouldLog. rewrite Hcfg.
    cbn [Console.minLevel Console.level_index Nat.leb].
    destruct (negb (Console.shouldLogInEnvironment rt)); reflexivity.
Qed.

Lemma production_drops_debug_witness :
  let l := Console.Build (js "M")
             (Some (Structured.Build (Pino.create (Pino.Level PInfo)) (js "M") 0%nat)) in
  let w1 := World (<[0%nat := VObject [(js "module", VStr (js "M"))]]> ∅) 1 0 [] in
  Console.new production_server (js "M") (World ∅ 0 0 []) = (Return l, w1) /\
  w_out (snd (Console.debug production_server l (js "x") [VNum 1] w1)) = w_out w1.
Proof.
  intros l w1. split; [reflexivity|].
  apply (production_drops_debug production_server (js "M") (World ∅ 0 0 []) l w1
           (js "x") [VNum 1] w1); reflexivity.
Defined.

(** X23. Where the environment is neither production nor test, nor a name
    every object inherits (an unknown name such as [staging], or no name
    at all, counts as development), every call on a Logger writes exactly
    one console event, on the server as in the browser: [console.error]
    for [error], [console.log] for the other three, with the coloured
    prefix, the message and the formatted arguments. *)
Theorem development_logs_every_call_to_console
  (rt : runtime) (module : str) (w : world) (l : Console.Logger) (w1 : world)
  (level : Console.LogLevel) (message : str) (args : list value) (w2 : world) :
  Console.ENV rt <> js "production" ->
  Console.ENV rt <> js "test" ->
  existsb (str_eqb (Console.ENV rt)) Console.OBJECT_PROTOTYPE_KEYS = false ->
  Console.new rt module w = (Return l, w1) ->
  w_out (snd (do_call rt l (Call level message args) w2))
  = w_out w2 ++
    [console_event level
       (VStr (chalk rt Gray (Console.bracket (clock rt (w_ticks w2))) ++ js " " ++
              chalk rt (match level with
                        | Console.DEBUG => Blue | Console.INFO => Green
                        | Console.WARN => Yellow | Console.ERROR => Red
                        end) (Console.bracket (Console.level_name level)) ++ js " " ++
              chalk rt Cyan (Console.bracket module))
        :: VStr message :: Console.formatArgs rt (w_heap w2) args)].
Proof.
  intros Hp Ht Hk Hnew.
  assert (Hcfg : Console.config rt = Console.LogConfig true Console.DEBUG true false).
  { unfold Console.config, Console.LOG_CONFIG. cbn [Console.lookup_config].
    destruct (str_eqb (Console.ENV rt) (js "development")); [reflexivity|].
    rewrite (str_eqb_neq _ _ Hp), (str_eqb_neq _ _ Ht), Hk. reflexivity. }
  assert (Hlog : Console.shouldLog rt level = true).
  { unfold Console.shouldLog, Console.shouldLogInEnvironment.
    rewrite (str_eqb_neq _ _ Hp), Hcfg. reflexivity. }
  unfold Console.new in Hnew. rewrite Hcfg in Hnew.
  cbn [Console.useStructured] in Hnew. rewrite andb_false_r in Hnew.
  unfold ret in Hnew. injection Hnew as <- _.
  assert (E : do_call rt (Console.Build module None) (Call level message args)
              = Console.log rt (Console.Build module None) level message args).
  { destruct level; reflexivity. }
  rewrite E. unfold Console.log. rewrite Hlog. cbn [negb].
  rewrite seq_read_clock. cbv beta. rewrite seq_get_heap. cbv beta.
  cbn [w_heap w_next w_ticks w_out]. rewrite Hcfg. cbn [Console.colorize Console.module].
  destruct level; reflexivity.
Qed.

Lemma development_logs_every_call_to_console_witness :
  let rt := Runtime (Some (js "staging")) None true (fun _ => js "T") (fun _ s => s)
              (fun _ _ _ => Return VUndefined) in
  w_out (snd (do_call rt (Console.Build (js "M") None)
                (Call Console.ERROR (js "boom") [VNum 1]) (World ∅ 0 0 [])))
  = [ConsoleError [VStr (js "[T] [ERROR] [M]"); VStr (js "boom"); VNum 1]].
Proof.
  intros rt.
  rewrite (development_logs_every_call_to_console rt (js "M") (World ∅ 0 0 [])
             (Console.Build (js "M") None) (World ∅ 0 0 []));
    try reflexivity; vm_compute; congruence.
Defined.

(* ------------------------------------------------------------------ *)
(** ** Children and ready-made loggers *)

Section ChildFacts.
Variable rt : runtime.

Lemma new_eq module context w :
  Structured.new rt module context w
  = (Return (Structured.Build (Pino.create (Structured.getLoggerConfig rt)) module (w_next w)),
     World (<[w_next w := VObject (assign_props (object_literal [(js "module", VStr module)])
                                     context)]> (w_heap w))
           (S (w_next w)) (w_ticks w) (w_out w)).
Proof. reflexivity. Qed.

Lemma child_eq parent context w c w1 :
  Structured.child rt parent context w = (Return c, w1) ->
  let merged := assign_props (object_literal (default_context_of parent w))
                  (own_enumerable (w_heap w) context) in
  let h' := <[w_next w := VObject (assign_props
                (object_literal [(js "module", VStr (Structured.module parent))])
                merged)]> (w_heap w) in
  exists b,
    sanitizeLogData (process_env_NODE_ENV rt) h' context = Return b /\
    c = Structured.Build (Pino.child (Structured.pino parent) b)
          (Structured.module parent) (w_next w) /\
    w1 = World h' (S (w_next w)) (w_ticks w) (w_out w).
Proof.
  intros Hchild merged h'.
  unfold Structured.child in Hchild. rewrite seq_get_heap in Hchild. cbv beta in Hchild.
  destruct (spread (w_heap w) context) as [own|e] eqn:Hsp.
  - apply spread_Return in Hsp. destruct Hsp as [_ ->].
    rewrite seq_lift_Return in Hchild. cbv beta in Hchild.
    fold (default_context_of parent w) in Hchild. fold merged in Hchild.
    rewrite (seq_Return _ _ _ _ _ (new_eq (Structured.module parent) merged w)) in Hchild.
    rewrite seq_get_heap in Hchild. cbv beta in Hchild. cbn [w_heap] in Hchild.
    fold h' in Hchild.
    destruct (sanitizeLogData (process_env_NODE_ENV rt) h' context) as [b|e] eqn:Hb.
    + rewrite seq_lift_Return in Hchild. unfold ret in Hchild.
      injection Hchild as <- <-. exists b. auto.
    + rewrite seq_lift_Throw in Hchild. discriminate.
  - rewrite seq_lift_Throw in Hchild. discriminate.
Qed.

End ChildFacts.

(** X24. [child] writes nothing and leaves the parent as it was.  The
    child has a context object of its own, holding the parent's default
    context with the keys of the given context over it; it keeps the
    parent's pino level, and its pino bindings are the parent's followed
    by the sanitized context. *)
Theorem child_logger
  (rt : runtime) (parent : Structured.StructuredLogger) (context : value)
  (w : world) (c : Structured.StructuredLogger) (w1 : world) :
  (Structured.defaultContext parent < w_next w)%nat ->
  Structured.child rt parent context w = (Return c, w1) ->
  w_out w1 = w_out w /\
  default_context_of parent w1 = default_context_of parent w /\
  Structured.defaultContext c <> Structured.defaultContext parent /\
  default_context_of c w1
  = assign_props (object_literal [(js "module", VStr (Structured.module parent))])
      (assign_props (object_literal (default_context_of parent w))
         (own_enumerable (w_heap w) context)) /\
  Pino.level (Structured.pino c) = Pino.level (Structured.pino parent) /\
  exists b,
    sanitizeLogData (process_env_NODE_ENV rt) (w_heap w1) context = Return b /\
    Pino.bindings (Structured.pino c) = Pino.bindings (Structured.pino parent) ++ [b].
Proof.
  intros Hl Hchild.
  destruct (child_eq rt parent context w c w1 Hchild) as [b [Hb [-> ->]]].
  cbn [w_out w_heap Structured.defaultContext Structured.pino Pino.child
         Pino.level Pino.bindings].
  split; [reflexivity|]. split; [|split; [|split; [|split]]].
  - unfold default_context_of. cbn [w_heap]. apply own_enumerable_insert_ne. lia.
  - lia.
  - unfold default_context_of. cbn [w_heap Structured.defaultContext].
    apply own_enumerable_insert.
  - reflexivity.
  - exists b. split; [exact Hb | reflexivity].
Qed.

Lemma child_logger_witness :
  let parent := Structured.Build (Pino.create (Pino.Level PInfo)) (js "M") 0%nat in
  let w := World (<[0%nat := VObject [(js "module", VStr (js "M"))]]> ∅) 1 0 [] in
  exists c w1,
    Structured.child production_server parent
      (VObject [(js "requestId", VStr (js "r-1"))]) w = (Return c, w1) /\
    default_context_of parent w1 = default_context_of parent w /\
    Structured.defaultContext c <> Structured.defaultContext parent.
Proof.
  intros parent w.
  destruct (Structured.child production_server parent
              (VObject [(js "requestId", VStr (js "r-1"))]) w) as [[c|e] w1] eqn:E.
  - exists c, w1. split; [reflexivity|].
    destruct (child_logger production_server parent _ w c w1 ltac:(cbn; lia) E)
      as [_ [H1 [H2 _]]].
    split; assumption.
  - exfalso. vm_compute in E. discriminate.
Defined.

Section TagFacts.
Variable rt : runtime.

(** A logger made with one identifying key puts it in every record. *)
Lemma tagged_record module key id w0 l w1 message context args logData :
  assign_props (object_literal [(js "module", VStr module)]) [(key, VStr id)]
    = [(js "module", VStr module); (key, VStr id)] ->
  array_index key = None ->
  key <> js "module" -> key <> js "msg" -> key <> js "additionalData" ->
  key <> js "__proto__" ->
  Structured.new rt module [(key, VStr id)] w0 = (Return l, w1) ->
  wf_keys (keys (own_enumerable (w_heap w1) context)) ->
  has_key key (own_enumerable (w_heap w1) context) = false ->
  fst (Structured.formatLogData rt l message context args w1) = Return logData ->
  exists r,
    logData = VObject r /\
    get_prop key r
    = VStr (if truthy (w_heap w1) context then sanitizeString id else id).
Proof.
  intros Hlit Hidx Hk1 Hk2 Hk3 Hk4 Hnew Hwf Hno Hret.
  rewrite new_eq, Hlit in Hnew. injection Hnew as <- <-.
  set (l := Structured.Build (Pino.create (Structured.getLoggerConfig rt)) module (w_next w0))
    in *.
  set (w1 := World (<[w_next w0 := VObject [(js "module", VStr module); (key, VStr id)]]>
                      (w_heap w0)) (S (w_next w0)) (w_ticks w0) (w_out w0)) in *.
  assert (Hdef : default_context_of l w1 = [(js "module", VStr module); (key, VStr id)]).
  { unfold default_context_of, l, w1. cbn [w_heap Structured.defaultContext].
    apply own_enumerable_insert. }
  destruct (truthy (w_heap w1) context) eqn:Ht.
  - assert (Hwd : wf_keys (keys (default_context_of l w1))).
    { rewrite Hdef. cbn [keys map fst wf_keys]. repeat split; repeat constructor.
      - congruence.
      - unfold key_before. now rewrite Hidx. }
    destruct (record_lookup rt l message context args w1 logData Ht Hret)
      as [r [Hr [Hkey _]]].
    exists r. split; [exact Hr|].
    rewrite (Hkey key (VStr id));
      [reflexivity | | reflexivity | exact Hk4 | intros E; contradiction].
    set (M := assign_props (object_literal (default_context_of l w1))
                (own_enumerable (w_heap w1) context)).
    assert (Hg : get_prop key M = VStr id).
    { unfold M. rewrite get_assign_props_absent by exact Hno.
      unfold object_literal. rewrite get_assign_props_present.
      - rewrite Hdef. rewrite !get_prop_cons.
        rewrite (str_eqb_neq _ _ Hk1), str_eqb_refl. reflexivity.
      - exact Hwd.
      - rewrite Hdef. rewrite !has_key_cons. rewrite str_eqb_refl. apply orb_true_r. }
    rewrite <- Hg. apply In_get_prop.
    unfold M. rewrite has_key_assign_props. apply orb_true_iff. left.
    unfold object_literal. rewrite has_key_assign_props. apply orb_true_iff. right.
    rewrite Hdef, !has_key_cons, str_eqb_refl. apply orb_true_r.
  - destruct (formatLogData_without_context_inv rt l message context args w1 logData Ht Hret)
      as [sargs [Hs [_ ->]]].
    unfold record_of. eexists. split; [reflexivity|].
    rewrite Hdef.
    assert (Hwa : forall o, wf_keys (keys o) -> has_key key o = true ->
                  get_prop key (assign_props (object_literal [(js "msg", VStr message)]) o)
                  = get_prop key o).
    { intros o Ho Hh. now apply get_assign_props_present. }
    assert (Hbase : wf_keys (keys [(js "module", VStr module); (key, VStr id)])).
    { cbn [keys map fst wf_keys]. repeat split; repeat constructor.
      - congruence.
      - unfold key_before. now rewrite Hidx. }
    rewrite Hwa.
    + destruct (get_with_additional key sargs
                  [(js "module", VStr module); (key, VStr id)]) as [Hg _];
        [intros E; contradiction|].
      rewrite Hg, !get_prop_cons, (str_eqb_neq _ _ Hk1), str_eqb_refl. reflexivity.
    + now apply wf_with_additional.
    + destruct (get_with_additional key sargs
                  [(js "module", VStr module); (key, VStr id)]) as [_ Hh];
        [intros E; contradiction|].
      rewrite Hh, !has_key_cons, str_eqb_refl. apply orb_true_r.
Qed.

End TagFacts.

(** X25. A logger made by [createRequestLogger], [createUserLogger] or
    [createWorkflowLogger] puts its identifier in the records it writes:
    for a call whose context does not have the key, the record holds the
    identifier under [requestId], [userId] or [workflowId], redacted when
    the call has a context and as given when it has none. *)
Theorem ready_made_loggers_tag_records
  (rt : runtime) (k : ready_made) (id : str) (module : option str) (w0 : world)
  (l : Structured.StructuredLogger) (w1 : world)
  (message : str) (context : value) (args : list value) (logData : value) :
  ready_made_logger rt k id module w0 = (Return l, w1) ->
  wf_keys (keys (own_enumerable (w_heap w1) context)) ->
  has_key (ready_made_key k) (own_enumerable (w_heap w1) context) = false ->
  fst (Structured.formatLogData rt l message context args w1) = Return logData ->
  exists r,
    logData = VObject r /\
    get_prop (ready_made_key k) r
    = VStr (if truthy (w_heap w1) context then sanitizeString id else id).
Proof.
  intros Hnew Hwf Hno Hret.
  destruct k; cbn [ready_made_logger ready_made_key] in *;
    unfold Structured.createRequestLogger, Structured.createUserLogger,
      Structured.createWorkflowLogger, Structured.createStructuredLogger in Hnew;
    (eapply tagged_record; [| | | | | | exact Hnew | exact Hwf | exact Hno | exact Hret]);
    first [discriminate | vm_compute; reflexivity].
Qed.

Lemma ready_made_loggers_tag_records_witness :
  exists r,
    fst (Structured.formatLogData production_server
           (Structured.Build (Pino.create (Pino.Level PInfo)) (js "request") 0%nat)
           (js "hello") (VObject [(js "user", VStr (js "ann"))]) []
           (World (<[0%nat := VObject [ (js "module", VStr (js "request"));
                                        (js "requestId", VStr (js "r-1")) ]]> ∅) 1 0 []))
      = Return (VObject r) /\
    get_prop (js "requestId") r = VStr (js "r-1").
Proof.
  destruct (Structured.formatLogData production_server
           (Structured.Build (Pino.create (Pino.Level PInfo)) (js "request") 0%nat)
           (js "hello") (VObject [(js "user", VStr (js "ann"))]) []
           (World (<[0%nat := VObject [ (js "module", VStr (js "request"));
                                        (js "requestId", VStr (js "r-1")) ]]> ∅) 1 0 []))
    as [[logData|e] w2] eqn:E; [|vm_compute in E; discriminate].
  destruct (ready_made_loggers_tag_records production_server ForRequest (js "r-1") None
              (World ∅ 0 0 [])
              (Structured.Build (Pino.create (Pino.Level PInfo)) (js "request") 0%nat)
              (World (<[0%nat := VObject [ (js "module", VStr (js "request"));
                                           (js "requestId", VStr (js "r-1")) ]]> ∅) 1 0 [])
              (js "hello") (VObject [(js "user", VStr (js "ann"))]) [] logData eq_refl)
    as [r [Hr Hg]].
  - cbn [own_enumerable deref w_heap keys map fst wf_keys]. repeat constructor.
  - reflexivity.
  - exact (f_equal fst E).
  - exists r. cbn [fst]. split; [now rewrite Hr|].
    change (js "requestId") with (ready_made_key ForRequest).
    rewrite Hg. vm_compute. reflexivity.
Defined.

(* ------------------------------------------------------------------ *)
(** ** The façade on the server in production *)

Lemma record_literal message a sargs :
  record_of message (with_additional sargs [(js "module", a)])
  = VObject ((js "msg", VStr message) :: (js "module", a) ::
             match sargs with
             | [] => []
             | _ :: _ => [(js "additionalData", VArray sargs)]
             end).
Proof. destruct sargs; vm_compute; reflexivity. Qed.

Lemma sanitized_merge_module node_env h module :
  sanitized_merge node_env h [(js "module", VStr module)] (VObject [])
  = [(js "module", VStr (sanitizeString module))].
Proof.
  unfold sanitized_merge, sanitize_entries, object_literal, assign_props.
  cbn [own_enumerable deref fold_left fst snd].
  change (set_prop (js "module") (VStr module) []) with [(js "module", VStr module)].
  cbn [fold_left fst snd is_function deref sanitizeObject].
  reflexivity.
Qed.

Section ServerFacts.
Variable rt : runtime.
Hypothesis Hprod : env_NODE_ENV rt = Some (js "production").

Lemma production_config :
  Console.config rt = Console.LogConfig true Console.INFO false true.
Proof using Hprod. unfold Console.config, Console.ENV. rewrite Hprod. reflexivity. Qed.

Lemma production_pino_enabled lv :
  Pino.enabled (Pino.create (Structured.getLoggerConfig rt)) lv
  = (30 <=? Pino.level_value lv)%Z.
Proof using Hprod.
  unfold Structured.getLoggerConfig, env_is. rewrite Hprod. reflexivity.
Qed.

Lemma production_server_new module w :
  window_defined rt = false ->
  Console.new rt module w
  = (Return (Console.Build module
               (Some (Structured.Build (Pino.create (Structured.getLoggerConfig rt))
                        module (w_next w)))),
     World (<[w_next w := VObject [(js "module", VStr module)]]> (w_heap w))
           (S (w_next w)) (w_ticks w) (w_out w)).
Proof using Hprod.
  intros Hw. unfold Console.new, Console.isServerSide.
  rewrite production_config, Hw. cbn [negb andb Console.useStructured].
  unfold Structured.createStructuredLogger.
  rewrite (seq_Return _ _ _ _ _ (new_eq rt module [] w)). reflexivity.
Qed.

Lemma production_server_call sl module level message args w1 sargs :
  Structured.pino sl = Pino.create (Structured.getLoggerConfig rt) ->
  default_context_of sl w1 = [(js "module", VStr module)] ->
  match args with
  | [] => sargs = []
  | _ :: _ =>
      sanitizeLogArgs (process_env_NODE_ENV rt)
        (<[w_next w1 := VObject [(js "module", VStr (sanitizeString module))]]> (w_heap w1))
        args = Return sargs
  end ->
  w_out (snd (Structured.log_at rt (pino_level_of level) sl message (VObject []) args w1))
  = w_out w1 ++
    (if (30 <=? Pino.level_value (pino_level_of level))%Z
     then [PinoWrite (pino_level_of level) []
             (VObject ((js "msg", VStr message) ::
                       (js "module", VStr (sanitizeString module)) ::
                       match sargs with
                       | [] => []
                       | _ :: _ => [(js "additionalData", VArray sargs)]
                       end))]
     else []).
Proof using Hprod.
  intros Hpino Hdef Hs.
  assert (Hsm : sanitized_merge (process_env_NODE_ENV rt) (w_heap w1)
                  (default_context_of sl w1) (VObject [])
                = [(js "module", VStr (sanitizeString module))]).
  { rewrite Hdef. apply sanitized_merge_module. }
  assert (Hfmt : fst (Structured.formatLogData rt sl message (VObject []) args w1)
                 = Return (record_of message
                             (with_additional sargs
                                [(js "module", VStr (sanitizeString module))]))).
  { rewrite (formatLogData_with_context rt sl message (VObject []) args w1
               eq_refl eq_refl sargs).
    - cbn [fst]. now rewrite Hsm.
    - rewrite Hsm. exact Hs. }
  rewrite (log_at_out rt _ sl message (VObject []) args w1 _ Hfmt).
  rewrite record_literal, Hpino, production_pino_enabled. reflexivity.
Qed.

End ServerFacts.

(** X26. On the server in production every [info], [warn] and [error] of
    the façade whose arguments [sanitizeLogData] can answer for writes
    exactly one record to the structured stream, at the level of the
    method: the message, the module name passed through the redactor,
    and, when there are arguments, each of them passed through
    [sanitizeLogData], under [additionalData].  [debug] writes nothing. *)
Theorem production_server_record
  (rt : runtime) (module : str) (w : world) (l : Console.Logger) (w1 : world)
  (level : Console.LogLevel) (message : str) (args sargs : list value) :
  env_NODE_ENV rt = Some (js "production") ->
  window_defined rt = false ->
  Console.new rt module w = (Return l, w1) ->
  let h1 := <[w_next w1 := VObject [(js "module", VStr (sanitizeString module))]]>
              (w_heap w1) in
  Forall2 (fun a v => sanitizeLogData (process_env_NODE_ENV rt) h1 a = Return v)
    args sargs ->
  w_out (snd (do_call rt l (Call level message args) w1))
  = w_out w1 ++
    match level with
    | Console.DEBUG => []
    | _ =>
        [PinoWrite (pino_level_of level) []
           (VObject ((js "msg", VStr message) ::
                     (js "module", VStr (sanitizeString module)) ::
                     match sargs with
                     | [] => []
                     | _ :: _ => [(js "additionalData", VArray sargs)]
                     end))]
    end.
Proof.
  intros He Hw Hnew h1 Hall.
  rewrite (production_server_new rt He module w Hw) in Hnew.
  injection Hnew as <- <-.
  assert (Hs : match args with
               | [] => sargs = []
               | _ :: _ => sanitizeLogArgs (process_env_NODE_ENV rt) h1 args = Return sargs
               end).
  { destruct args as [|a args]; [now inversion Hall|].
    unfold sanitizeLogArgs. now apply array_map_of_Forall2. }
  clear Hall.
  match goal with
  | |- w_out (snd (do_call rt (Console.Build module (Some ?sl0)) _ ?w0)) = _ =>
      set (sl := sl0); set (w1 := w0) in *
  end.
  assert (E : do_call rt (Console.Build module (Some sl)) (Call level message args)
              = Structured.log_at rt (pino_level_of level) sl message (VObject []) args).
  { destruct level; reflexivity. }
  rewrite E.
  rewrite (production_server_call rt He sl module level message args w1 sargs).
  - destruct level; reflexivity.
  - reflexivity.
  - unfold default_context_of, sl, w1. cbn [w_heap Structured.defaultContext].
    apply own_enumerable_insert.
  - exact Hs.
Qed.

Lemma production_server_record_witness :
  let l := Console.Build (js "M")
             (Some (Structured.Build (Pino.create (Pino.Level PInfo)) (js "M") 0%nat)) in
  let w1 := World (<[0%nat := VObject [(js "module", VStr (js "M"))]]> ∅) 1 0 [] in
  w_out (snd (do_call production_server l
                (Call Console.WARN (js "careful") [VStr (js "Bearer abc123")]) w1))
  = [PinoWrite PWarn []
       (VObject [ (js "msg", VStr (js "careful"));
                  (js "module", VStr (js "M"));
                  (js "additionalData", VArray [VStr (js "Bearer [REDACTED]")]) ])].
Proof.
  intros l w1.
  rewrite (production_server_record production_server (js "M") (World ∅ 0 0 []) l w1
             Console.WARN (js "careful") [VStr (js "Bearer abc123")]
             [VStr (js "Bearer [REDACTED]")] eq_refl eq_refl eq_refl).
  - reflexivity.
  - constructor; [vm_compute; reflexivity | constructor].
Defined.

(* ------------------------------------------------------------------ *)
(** ** Bearer tokens at every depth *)

Lemma bearer_free_entries es :
  Forall (fun kv : str * value => bearer_free (snd kv) = true) es ->
  forallb (fun kv => bearer_free (snd kv)) es = true.
Proof.
  intros H. apply forallb_forall. intros kv Hin.
  rewrite Forall_forall in H. apply H. now apply list_elem_of_In.
Qed.

Lemma walk_bearer_free node_env h d : forall v o,
  no_error_met h v d = true ->
  dates_bearer_free h v d = true ->
  sanitizeObject node_env h v d = Return o ->
  bearer_free o = true.
Proof.
  induction d as [|d IH]; intros v o Hne Hd Hw.
  - cbn in Hw. injection Hw as <-. reflexivity.
  - cbn [sanitizeObject] in Hw. cbn [no_error_met] in Hne. cbn [dates_bearer_free] in Hd.
    assert (Hentries : forall es,
      forallb (fun kv => is_function h (snd kv) || no_error_met h (snd kv) d) es = true ->
      forallb (fun kv => is_function h (snd kv) || dates_bearer_free h (snd kv) d) es = true ->
      bearer_free (VObject (sanitize_entries h
                     (fun value => sanitizeObject node_env h value d) es)) = true).
    { intros es H1 H2. cbn [bearer_free]. apply bearer_free_entries.
      apply (sanitize_entries_inv h _ es (fun v => bearer_free v = true)).
      rewrite forallb_forall in H1, H2. apply Forall_forall. intros kv Hin Hfn.
      apply list_elem_of_In in Hin.
      specialize (H1 kv Hin). specialize (H2 kv Hin). rewrite Hfn in H1, H2.
      cbn [orb] in H1, H2.
      destruct (sanitizeObject node_env h (snd kv) d) as [v'|e] eqn:Hkv.
      - eapply IH; eauto.
      - reflexivity. }
    destruct (deref h v) eqn:E;
      try (injection Hw as <-; reflexivity); try discriminate.
    + injection Hw as <-. cbn [bearer_free].
      now rewrite RedactionFacts.sanitizeString_clean.
    + destruct iso as [iso|]; cbn in Hw; [injection Hw as <-; exact Hd | discriminate].
    + unfold bind in Hw.
      destruct (array_map (fun item => sanitizeObject node_env h item d) items)
        as [items'|e] eqn:Ha; [|discriminate].
      injection Hw as <-. cbn [bearer_free].
      apply array_map_Return in Ha.
      rewrite forallb_forall in Hne, Hd. apply forallb_forall.
      clear E. induction Ha as [|x y l l' Hxy _ IHl]; intros z Hz; [destruct Hz|].
      destruct Hz as [<-|Hz].
      * apply (IH x y); [apply Hne; now left | apply Hd; now left | exact Hxy].
      * apply IHl; [intros; apply Hne; now right | intros; apply Hd; now right | exact Hz].
    + injection Hw as <-. now apply Hentries.
    + injection Hw as <-. now apply Hentries.
    + injection Hw as <-. now apply Hentries.
    + injection Hw as <-. now apply Hentries.
Qed.

(** The message of what a getter throws goes into the diagnostic record
    as it is. *)
Example thrown_message_written_unsanitized :
  sanitizeLogData None ∅
    (VArray [VThrowing (JsError (js "Error") (js "denied for Bearer abc123"))])
  = Return (VObject [ (js "_sanitization_error", VBool true);
                      (js "_original_type", VStr (js "object"));
                      (js "_error", VStr (js "denied for Bearer abc123")) ]).
Proof. vm_compute. reflexivity. Qed.

(** X27. The deep sanitizer leaves no bearer token in any string it
    returns, at any depth: for data in which the walk meets no Error
    object (whose [name] is copied as it is) and which makes the walk
    throw nothing that carries a token in its text (the handler copies
    that text as it is), every string of the result of
    [sanitizeLogData], the sentinels and the diagnostic record included,
    is free of bearer tokens.  Keys are not looked at. *)
Theorem sanitized_data_has_no_bearer_token
  (node_env : option str) (h : heap) (data o : value) :
  no_error_met h data 10 = true ->
  dates_bearer_free h data 10 = true ->
  escape_bearer_free h data 10 = true ->
  sanitizeLogData node_env h data = Return o ->
  bearer_free o = true.
Proof.
  intros Hne Hd He Ho.
  rewrite sanitizeLogData_unfold in Ho.
  destruct (sanitizeObject node_env h data 10) as [v|e] eqn:Hw.
  - apply Return_inj in Ho. subst o. eapply walk_bearer_free; eauto.
  - apply walk_throws_iff in Hw. unfold escape_bearer_free in He. rewrite Hw in He.
    rewrite (escapes_typeof h 10 data e Hw) in Ho.
    destruct e as [name text|text|raised]; cbn [error_text] in Ho; try discriminate;
      apply Return_inj in Ho; subst o; rewrite sanitization_error_literal;
      cbn [bearer_free forallb snd]; rewrite He; reflexivity.
Qed.

Lemma sanitized_data_has_no_bearer_token_witness :
  exists o,
    sanitizeLogData None ∅ sample_log_data = Return o /\ bearer_free o = true.
Proof.
  eexists. split; [vm_compute; reflexivity|].
  apply (sanitized_data_has_no_bearer_token None ∅ sample_log_data);
    vm_compute; reflexivity.
Defined.

(* ------------------------------------------------------------------ *)
(** ** An environment named after an inherited member *)

(** X28. When NODE_ENV is a name every object inherits ([constructor],
    [toString], [__proto__], ...), [LOG_CONFIG[ENV]] is the inherited
    member and not a configuration: a Logger then has no structured
    backend and writes nothing, whatever is called on it. *)
Theorem inherited_environment_name_is_silent
  (rt : runtime) (module : str) (w : world) (l : Console.Logger) (w1 : world)
  (calls : list call) :
  existsb (str_eqb (Console.ENV rt)) Console.OBJECT_PROTOTYPE_KEYS = true ->
  Console.new rt module w = (Return l, w1) ->
  Console.structuredLogger l = None /\ run_calls rt l calls w1 = w.
Proof.
  intros Hk Hnew.
  assert (Hne : forall e, In e [js "development"; js "production"; js "test"] ->
                          str_eqb (Console.ENV rt) e = false).
  { intros e He. destruct (str_eqb (Console.ENV rt) e) eqn:E; [|reflexivity].
    apply str_eqb_eq in E. rewrite E in Hk.
    cbn [In] in He. destruct He as [<-|[<-|[<-|[]]]]; vm_compute in Hk; discriminate. }
  assert (Hcfg : Console.config rt = Console.inherited_member).
  { unfold Console.config, Console.LOG_CONFIG. cbn [Console.lookup_config].
    rewrite !Hne by (cbn [In]; tauto). now rewrite Hk. }
  assert (Hlog : forall level, Console.shouldLog rt level = false).
  { intros level. unfold Console.shouldLog, Console.shouldLogInEnvironment.
    rewrite Hne by (cbn [In]; tauto). rewrite Hcfg. reflexivity. }
  destruct (new_cases rt module w l w1 Hnew) as [[Hb _]|[_ [-> ->]]].
  { rewrite Hcfg in Hb. cbn [Console.inherited_member Console.useStructured] in Hb.
    rewrite andb_false_r in Hb. discriminate. }
  split; [reflexivity|].
  clear Hnew. revert w. induction calls as [|c calls IH]; intros w; cbn [run_calls];
    [reflexivity|].
  replace (do_call rt (Console.Build module None) c w) with (Return tt, w).
  - cbn [snd]. apply IH.
  - destruct c as [[] m a]; cbn [do_call];
      unfold Console.debug, Console.info, Console.warn, Console.error;
      cbn [Console.structuredLogger]; unfold Console.log;
      rewrite Hlog; reflexivity.
Qed.

Lemma inherited_environment_name_is_silent_witness :
  let rt := Runtime (Some (js "constructor")) None false (fun _ => []) (fun _ s => s)
              (fun _ _ _ => Return VUndefined) in
  run_calls rt (Console.Build (js "M") None)
    [Call Console.ERROR (js "boom") [VStr (js "x")]] (World ∅ 0 0 []) = World ∅ 0 0 [].
Proof.
  intros rt.
  apply (inherited_environment_name_is_silent rt (js "M") (World ∅ 0 0 [])
           (Console.Build (js "M") None) (World ∅ 0 0 [])); reflexivity.
Defined.
